(** * Global memory roots of the OCaml runtime ([runtime/globroots.c])

    A shallow embedding of the registration, removal, modification and
    scanning of global C roots, and the properties of the three root lists
    that follow from the code.

    Conventions of the embedding:
    - a [value] and a [value *] are machine words, here integers ([Z]);
    - the file-scope variables of [globroots.c] (the mutex, the thread-local
      iteration counter, the three skip lists) are the fields of one record
      [state], threaded through every function, together with the memory
      holding the root slots;
    - a C function [void g(...)] is a computation [M unit]; a run either
      finishes in a new state or is stuck (blocked on the mutex, a read or a
      write through an invalid pointer, a signed overflow);
    - the build without [NATIVE_CODE] is the one embedded: of the
      [#ifdef NATIVE_CODE] part, [scan_native_globals] is left out, and
      [caml_register_dyn_globals] is embedded apart from the scans;
    - [CAMLassert] and [Caml_check_caml_state] are debug-build checks that
      compile to nothing otherwise; they are left out. *)

From stdpp Require Import gmap list sorting.

Local Open Scope Z_scope.

(** ** Machine words and the address classes *)

Abbreviation value := Z (only parsing).
Abbreviation uintnat := Z (only parsing).

(** Modelled from the spec: the macros [Is_block] and [Is_young] of
    [caml/mlvalues.h] and [caml/address_class.h], which are not among the
    sources. The spec consumes them "as a single classification primitive"
    supplied by the memory manager ("how a tagged reference is distinguished
    from an integer, how 'is this address in the young generation' is
    computed"), so they are taken as an interface with two tests. *)
Class AddressClass := {
  Is_block : value → bool;
  Is_young : value → bool
}.

(** An instance for concrete evaluations: integers carry a low tag bit, and
    the young generation is the open address interval [(lo, hi)]. *)
Definition tagged_address_class (lo hi : Z) : AddressClass :=
  {| Is_block := λ v, Z.land v 1 =? 0;
     Is_young := λ v, (lo <? v) && (v <? hi) |}.

(** ** The state *)

(** [enum { ROOT_PRESENT = 0, ROOT_DELETED = 1 }] *)
Definition ROOT_PRESENT : uintnat := 0.
Definition ROOT_DELETED : uintnat := 1.

(** Modelled from the spec: [struct skiplist] of [caml/skiplist.h], which is
    not among the sources. The spec's "Ordered Root Map" "associates an
    address with a small tag" and is used "only through its map contract:
    keyed insert, keyed remove, keyed find-mutable-slot, empty, and
    mutation-safe ordered iteration". A skip list is therefore a finite map
    from keys to data, walked in increasing key order. *)
Abbreviation skiplist := (gmap Z Z) (only parsing).

Record state := mkState {
  roots_mutex : bool;                  (* [true] while the mutex is held *)
  iterating_roots : Z;                 (* thread-local [int] *)
  caml_global_roots : skiplist;
  caml_global_roots_young : skiplist;
  caml_global_roots_old : skiplist;
  mem : gmap Z Z;                      (* the words roots point to: [*r] *)
  scanned : list (Z * Z)               (* ghost: the calls [f(fdata, v, r)]
                                          made so far, as pairs [(r, v)] *)
}.

(** The argument [struct skiplist * list]: the address of one of the three
    global skip lists. *)
Inductive skiplist_ptr :=
  | GLOBAL_ROOTS
  | GLOBAL_ROOTS_YOUNG
  | GLOBAL_ROOTS_OLD.

Global Instance skiplist_ptr_eq_dec : EqDecision skiplist_ptr.
Proof. solve_decision. Defined.

Definition deref (list : skiplist_ptr) (st : state) : skiplist :=
  match list with
  | GLOBAL_ROOTS => caml_global_roots st
  | GLOBAL_ROOTS_YOUNG => caml_global_roots_young st
  | GLOBAL_ROOTS_OLD => caml_global_roots_old st
  end.

Definition assign (list : skiplist_ptr) (sk : skiplist) (st : state) : state :=
  match list with
  | GLOBAL_ROOTS =>
      mkState (roots_mutex st) (iterating_roots st) sk
        (caml_global_roots_young st) (caml_global_roots_old st)
        (mem st) (scanned st)
  | GLOBAL_ROOTS_YOUNG =>
      mkState (roots_mutex st) (iterating_roots st) (caml_global_roots st)
        sk (caml_global_roots_old st) (mem st) (scanned st)
  | GLOBAL_ROOTS_OLD =>
      mkState (roots_mutex st) (iterating_roots st) (caml_global_roots st)
        (caml_global_roots_young st) sk (mem st) (scanned st)
  end.

Definition set_mutex (b : bool) (st : state) : state :=
  mkState b (iterating_roots st) (caml_global_roots st)
    (caml_global_roots_young st) (caml_global_roots_old st)
    (mem st) (scanned st).

Definition set_iterating (n : Z) (st : state) : state :=
  mkState (roots_mutex st) n (caml_global_roots st)
    (caml_global_roots_young st) (caml_global_roots_old st)
    (mem st) (scanned st).

Definition set_mem (m : gmap Z Z) (st : state) : state :=
  mkState (roots_mutex st) (iterating_roots st) (caml_global_roots st)
    (caml_global_roots_young st) (caml_global_roots_old st)
    m (scanned st).

Definition set_scanned (l : list (Z * Z)) (st : state) : state :=
  mkState (roots_mutex st) (iterating_roots st) (caml_global_roots st)
    (caml_global_roots_young st) (caml_global_roots_old st)
    (mem st) l.

(** ** Computations *)

Inductive stuck :=
  | Blocked     (* waiting for a mutex that is held *)
  | Fault       (* access through a pointer to no live object *)
  | Overflow.   (* signed overflow of an [int] *)

Inductive outcome (A : Type) :=
  | Done (a : A) (st : state)
  | Stuck (e : stuck).
Arguments Done {A} a st.
Arguments Stuck {A} e.

Definition M (A : Type) : Type := state → outcome A.

Global Instance M_ret : MRet M := λ A a st, Done a st.

Global Instance M_bind : MBind M := λ A B k c st,
  match c st with
  | Done a st' => k a st'
  | Stuck e => Stuck e
  end.

Definition INT_MAX : Z := 2147483647.
Definition INT_MIN : Z := -2147483648.

(** [*r] as an rvalue. *)
Definition load (r : Z) : M value :=
  λ st, match mem st !! r with
        | Some v => Done v st
        | None => Stuck Fault
        end.

(** [*r = v] *)
Definition store (r : Z) (v : value) : M unit :=
  λ st, match mem st !! r with
        | Some _ => Done tt (set_mem (<[r := v]> (mem st)) st)
        | None => Stuck Fault
        end.

(** Modelled from the spec: [caml_plat_lock_blocking] of [caml/platform.h],
    which is not among the sources. The lock of the spec's "Registry Access
    Guard" has a "blocking acquire (callers sleep/block, never busy-fail)"
    that "never fails": the caller waits while the mutex is held, and a
    thread that waits for a mutex it holds itself waits for ever. *)
Definition caml_plat_lock_blocking : M unit :=
  λ st, if roots_mutex st then Stuck Blocked else Done tt (set_mutex true st).

(** Modelled from the spec: [caml_plat_unlock] of [caml/platform.h], which is
    not among the sources; it "releases" the lock of the guard. *)
Definition caml_plat_unlock : M unit :=
  λ st, Done tt (set_mutex false st).

(** [iterating_roots ++] and [iterating_roots --] on a C [int]. *)
Definition incr_iterating_roots : M unit :=
  λ st, if iterating_roots st <? INT_MAX
        then Done tt (set_iterating (iterating_roots st + 1) st)
        else Stuck Overflow.

Definition decr_iterating_roots : M unit :=
  λ st, if INT_MIN <? iterating_roots st
        then Done tt (set_iterating (iterating_roots st - 1) st)
        else Stuck Overflow.

(** ** The skip list operations used by [globroots.c]

    [skiplist.c] and [caml/skiplist.h] are not among the sources: the
    operations are those of the map contract of the spec's "Ordered Root
    Map", "consumed here only through its map contract: keyed insert, keyed
    remove, keyed find-mutable-slot, empty, and mutation-safe ordered
    iteration". *)

(** Modelled from the spec: [caml_skiplist_insert(list, key, data)], the
    "keyed insert" of the map contract: [key] is bound to [data]. *)
Definition caml_skiplist_insert (list : skiplist_ptr) (key data : uintnat)
  : M unit :=
  λ st, Done tt (assign list (<[key := data]> (deref list st)) st).

(** Modelled from the spec: [caml_skiplist_remove(list, key)], the "keyed
    remove" of the map contract: the entry of [key] is unlinked;
    "removing a non-existent address is a no-op". *)
Definition caml_skiplist_remove (list : skiplist_ptr) (key : uintnat)
  : M unit :=
  λ st, Done tt (assign list (delete key (deref list st)) st).

(** Modelled from the spec: [caml_skiplist_find_ptr(list, key)], the "keyed
    find-mutable-slot" of the map contract: the address of the data word of
    the entry of [key], or [NULL] when there is none. A cell is named by its
    key. *)
Definition caml_skiplist_find_ptr (list : skiplist_ptr) (key : uintnat)
  : M (option Z) :=
  λ st, match deref list st !! key with
        | Some _ => Done (Some key) st
        | None => Done None st
        end.

(** Modelled from the spec: the assignment [*p = data] through the slot [p]
    that [caml_skiplist_find_ptr(list, _)] returned: the entry is marked
    "in place". *)
Definition store_data (list : skiplist_ptr) (p : Z) (data : uintnat)
  : M unit :=
  λ st, match deref list st !! p with
        | Some _ => Done tt (assign list (<[p := data]> (deref list st)) st)
        | None => Stuck Fault
        end.

(** Modelled from the spec: the field access [e->data] for a cell [e] of
    [list], of [struct skipcell] in [caml/skiplist.h]: the tag that the map
    associates with the key. *)
Definition cell_data (list : skiplist_ptr) (e : Z) : M uintnat :=
  λ st, match deref list st !! e with
        | Some d => Done d st
        | None => Stuck Fault
        end.

(** Modelled from the spec: [caml_skiplist_empty(list)], the "empty" of the
    map contract: the list is cleared "entirely". *)
Definition caml_skiplist_empty (list : skiplist_ptr) : M unit :=
  λ st, Done tt (assign list ∅ st).

(** Modelled from the spec: the cells of a skip list in the order of the
    "ordered iteration" of the map contract, by increasing keys. *)
Definition skiplist_cells (sk : skiplist) : list Z :=
  merge_sort Z.le (elements (dom sk)).

(** The loop over a list of cells. *)
Fixpoint foreach (action : Z → M unit) (cells : list Z) : M unit :=
  match cells with
  | [] => mret tt
  | e :: rest => action e;; foreach action rest
  end.

(** Modelled from the spec: the macro [FOREACH_SKIPLIST_ELEMENT(e, list,
    action)] of [caml/skiplist.h], the "mutation-safe ordered iteration" of
    the map contract: [action] runs on every cell of [list], by increasing
    keys, and may unlink the cell it runs on. While a walk is under way the
    mutex is held and [iterating_roots] is positive, so that the code of
    [globroots.c] links no cell, and unlinks none but the one the walk is
    on: the walk visits the cells that are linked when it starts. *)
Definition FOREACH_SKIPLIST_ELEMENT (list : skiplist_ptr)
    (action : Z → M unit) : M unit :=
  λ st, foreach action (skiplist_cells (deref list st)) st.

(** ** [globroots.c] *)

(** [scanning_action]: the callback [f(fdata, v, r)] of a scan. It runs as
    part of the scan, on the scanning thread, and may change the state. *)
Definition scanning_action : Type := Z → value → Z → M unit.

(** Ghost: record the call [f(fdata, v, r)] that is about to be made. *)
Definition note_call (r : Z) (v : value) : M unit :=
  λ st, Done tt (set_scanned (scanned st ++ [(r, v)]) st).

Section globroots.
Context {AC : AddressClass}.

(** *** Insertion and deletion *)

Definition caml_insert_global_root (list : skiplist_ptr) (r : Z) : M unit :=
  caml_plat_lock_blocking;;
  caml_skiplist_insert list r ROOT_PRESENT;;
  caml_plat_unlock.

Definition caml_delete_global_root (list : skiplist_ptr) (r : Z) : M unit :=
  λ st,
    if 0 <? iterating_roots st then
      (* We hold the roots_mutex because we are iterating *)
      (p ← caml_skiplist_find_ptr list r;
       match p with
       | Some p => store_data list p ROOT_DELETED
       | None => mret tt
       end) st
    else
      (caml_plat_lock_blocking;;
       caml_skiplist_remove list r;;
       caml_plat_unlock) st.

(** *** Roots of the mutable kind *)

Definition caml_register_global_root (r : Z) : M unit :=
  caml_insert_global_root GLOBAL_ROOTS r.

Definition caml_remove_global_root (r : Z) : M unit :=
  caml_delete_global_root GLOBAL_ROOTS r.

(** *** Roots of the generational kind *)

Inductive gc_root_class :=
  | YOUNG
  | OLD
  | UNTRACKED.

Global Instance gc_root_class_eq_dec : EqDecision gc_root_class.
Proof. solve_decision. Defined.

Definition classify_gc_root (v : value) : gc_root_class :=
  if negb (Is_block v) then UNTRACKED
  else if Is_young v then YOUNG
  else OLD.

Definition caml_register_generational_global_root (r : Z) : M unit :=
  v ← load r;
  match classify_gc_root v with
  | YOUNG => caml_insert_global_root GLOBAL_ROOTS_YOUNG r
  | OLD => caml_insert_global_root GLOBAL_ROOTS_OLD r
  | UNTRACKED => mret tt
  end.

Definition caml_remove_generational_global_root (r : Z) : M unit :=
  v ← load r;
  match classify_gc_root v with
  | OLD =>
      caml_delete_global_root GLOBAL_ROOTS_OLD r;;
      (* Fallthrough: the root can be in the young list while actually
         being in the major heap. *)
      caml_delete_global_root GLOBAL_ROOTS_YOUNG r
  | YOUNG => caml_delete_global_root GLOBAL_ROOTS_YOUNG r
  | UNTRACKED => mret tt
  end.

Definition caml_modify_generational_global_root (r : Z) (newval : value)
  : M unit :=
  match classify_gc_root newval with
  | YOUNG =>
      v ← load r;
      let c := classify_gc_root v in
      (if decide (c = OLD)
       then caml_delete_global_root GLOBAL_ROOTS_OLD r else mret tt);;
      (if decide (c ≠ YOUNG)
       then caml_insert_global_root GLOBAL_ROOTS_YOUNG r else mret tt)
  | OLD =>
      (* If the old class is YOUNG, then we do not need to do anything *)
      v ← load r;
      if decide (classify_gc_root v = UNTRACKED)
      then caml_insert_global_root GLOBAL_ROOTS_OLD r else mret tt
  | UNTRACKED => caml_remove_generational_global_root r
  end;;
  store r newval.

(** The [switch] statement of [caml_modify_generational_global_root]: the
    function up to its last statement, the store [*r = newval], which is
    still to come. *)
Definition caml_modify_generational_global_root_switch (r : Z)
    (newval : value) : M unit :=
  match classify_gc_root newval with
  | YOUNG =>
      v ← load r;
      let c := classify_gc_root v in
      (if decide (c = OLD)
       then caml_delete_global_root GLOBAL_ROOTS_OLD r else mret tt);;
      (if decide (c ≠ YOUNG)
       then caml_insert_global_root GLOBAL_ROOTS_YOUNG r else mret tt)
  | OLD =>
      v ← load r;
      if decide (classify_gc_root v = UNTRACKED)
      then caml_insert_global_root GLOBAL_ROOTS_OLD r else mret tt
  | UNTRACKED => caml_remove_generational_global_root r
  end.

(** *** Scanning *)

(** The action of the loop of [caml_iterate_global_roots] on the cell [e]:
    a deleted entry is unlinked, the scanning action is called on any
    other. *)
Definition iterate_action (f : scanning_action) (rootlist : skiplist_ptr)
    (fdata : Z) (e : Z) : M unit :=
  data ← cell_data rootlist e;
  if data =? ROOT_DELETED then
    caml_skiplist_remove rootlist e
  else
    (* [value * r = (value * ) (e->key); f(fdata, *r, r);] *)
    v ← load e;
    note_call e v;;
    f fdata v e.

(** Iterate a GC scanning action over a global root list. *)
Definition caml_iterate_global_roots (f : scanning_action)
    (rootlist : skiplist_ptr) (fdata : Z) : M unit :=
  FOREACH_SKIPLIST_ELEMENT rootlist (iterate_action f rootlist fdata).

(** Scan all global roots. *)
Definition caml_scan_global_roots (f : scanning_action) (fdata : Z) : M unit :=
  caml_plat_lock_blocking;;
  incr_iterating_roots;;
  caml_iterate_global_roots f GLOBAL_ROOTS fdata;;
  caml_iterate_global_roots f GLOBAL_ROOTS_YOUNG fdata;;
  caml_iterate_global_roots f GLOBAL_ROOTS_OLD fdata;;
  decr_iterating_roots;;
  caml_plat_unlock.

(** The second loop of [caml_scan_global_young_roots]: move young roots to
    old roots. *)
Definition move_young_roots_to_old : M unit :=
  FOREACH_SKIPLIST_ELEMENT GLOBAL_ROOTS_YOUNG (λ e,
    caml_skiplist_insert GLOBAL_ROOTS_OLD e 0);;
  caml_skiplist_empty GLOBAL_ROOTS_YOUNG.

(** Scan global roots for a minor collection. *)
Definition caml_scan_global_young_roots (f : scanning_action) (fdata : Z)
  : M unit :=
  caml_plat_lock_blocking;;
  incr_iterating_roots;;
  caml_iterate_global_roots f GLOBAL_ROOTS fdata;;
  caml_iterate_global_roots f GLOBAL_ROOTS_YOUNG fdata;;
  move_young_roots_to_old;;
  decr_iterating_roots;;
  caml_plat_unlock.

End globroots.

(** ** Sequences of calls from the mutator and the collector *)

Inductive call :=
  | Register_global_root (r : Z)
  | Remove_global_root (r : Z)
  | Register_generational_global_root (r : Z)
  | Remove_generational_global_root (r : Z)
  | Modify_generational_global_root (r : Z) (newval : value)
  | Scan_global_roots (f : scanning_action) (fdata : Z)
  | Scan_global_young_roots (f : scanning_action) (fdata : Z).

Section calls.
Context {AC : AddressClass}.

Definition run_call (c : call) : M unit :=
  match c with
  | Register_global_root r => caml_register_global_root r
  | Remove_global_root r => caml_remove_global_root r
  | Register_generational_global_root r =>
      caml_register_generational_global_root r
  | Remove_generational_global_root r =>
      caml_remove_generational_global_root r
  | Modify_generational_global_root r newval =>
      caml_modify_generational_global_root r newval
  | Scan_global_roots f fdata => caml_scan_global_roots f fdata
  | Scan_global_young_roots f fdata => caml_scan_global_young_roots f fdata
  end.

Fixpoint run_calls (cs : list call) : M unit :=
  match cs with
  | [] => mret tt
  | c :: cs => run_call c;; run_calls cs
  end.

(** The memory [m'] has every word of [m], with blocks where [m] has blocks
    and integers where [m] has integers. *)
Definition same_blocks (m m' : gmap Z Z) : Prop :=
  ∀ a w, m !! a = Some w → ∃ w', m' !! a = Some w' ∧ Is_block w' = Is_block w.

(** A scanning action that only relocates: called on a root and its value,
    it returns, and it changes nothing but the memory, where it keeps every
    word allocated, blocks blocks and integers integers. *)
Definition relocating (f : scanning_action) : Prop :=
  ∀ fdata v r st, mem st !! r = Some v → ∃ m',
    f fdata v r st = Done tt (set_mem m' st) ∧ same_blocks (mem st) m'.

(** The scanning action that does nothing. *)
Definition no_action : scanning_action := λ _ _ _, mret tt.

(** A scanning action in the manner of a minor collection: the young value
    of a root is replaced by the address of its copy, [delta] bytes further
    on; the other roots are left as they are. *)
Definition oldify_action (delta : Z) : scanning_action :=
  λ _ v r, if Is_young v then store r (v + delta) else mret tt.

Definition call_relocating (c : call) : Prop :=
  match c with
  | Scan_global_roots f _ | Scan_global_young_roots f _ => relocating f
  | _ => True
  end.

(** Every root of the young list is allocated and holds a block: a word
    that [Is_block] accepts, a pointer and not an integer. Nothing is said
    of where the pointer leads: [Is_block] and [Is_young] are the only tests
    of [classify_gc_root], so that the block may be in the young generation,
    in the major heap or outside the heap. *)
Definition young_roots_hold_blocks (st : state) : Prop :=
  ∀ r d, caml_global_roots_young st !! r = Some d →
         ∃ v, mem st !! r = Some v ∧ Is_block v = true.

(** The second state has the iteration counter of the first, no root that
    the first has not, and the words of the first, blocks where it has
    blocks. *)
Definition walked (st st' : state) : Prop :=
  iterating_roots st' = iterating_roots st ∧
  (∀ l k, is_Some (deref l st' !! k) → is_Some (deref l st !! k)) ∧
  same_blocks (mem st) (mem st').

(** The reading of the spec's invariant I1: every root of the young list
    holds a pointer into the young generation. *)
Definition young_roots_hold_young (st : state) : Prop :=
  ∀ r d, caml_global_roots_young st !! r = Some d →
         ∃ v, mem st !! r = Some v ∧ classify_gc_root v = YOUNG.

(** A scanning action that un-registers the generational root [A] when it
    is called on it, and does nothing on the other roots. *)
Definition unregister_when_visited (A : Z) : scanning_action :=
  λ _ _ r,
    if decide (r = A) then caml_remove_generational_global_root r
    else mret tt.

End calls.

(** No scan is under way and nobody holds the mutex. *)
Definition quiescent (st : state) : Prop :=
  roots_mutex st = false ∧ iterating_roots st = 0.

(** Every registered root is a word of the memory. *)
Definition roots_mapped (st : state) : Prop :=
  ∀ list k, is_Some (deref list st !! k) → is_Some (mem st !! k).

(** How often the scanning action was called on the root [r] in a log of
    calls. *)
Definition times_scanned (r : Z) (log : list (Z * Z)) : nat :=
  length (filter (λ k, k = r) log.*1).

(** The entry of [r] in a skip list is a live one. *)
Definition present (sk : skiplist) (r : Z) : Prop :=
  ∃ d, sk !! r = Some d ∧ d ≠ ROOT_DELETED.

Global Instance present_dec sk r : Decision (present sk r).
Proof.
  unfold present. destruct (sk !! r) as [d|].
  - destruct (decide (d = ROOT_DELETED)) as [->|Hd].
    + right. intros (d' & [= <-] & Hd'). done.
    + left. eauto.
  - right. intros (d' & [=] & _).
Defined.

(** The entry of a skip list that [caml_delete_global_root] leaves for [r]
    while a scan is under way: the data of the cell, if there is one,
    becomes [ROOT_DELETED]. *)
Definition tombstone (r : Z) (sk : skiplist) : skiplist :=
  alter (λ _, ROOT_DELETED) r sk.

(** What [caml_delete_global_root] does to a skip list in the state [st]:
    a tombstone while a scan is under way, an unlinked cell otherwise. *)
Definition removal (st : state) (r : Z) (sk : skiplist) : skiplist :=
  if 0 <? iterating_roots st then tombstone r sk else delete r sk.

(** A skip list without its deleted entries: what a walk of
    [caml_iterate_global_roots] leaves of it. *)
Definition purge (sk : skiplist) : skiplist :=
  filter (λ kv, kv.2 ≠ ROOT_DELETED) sk.

(** The entries that [caml_scan_global_young_roots] writes to the old list
    for the young list [sk]: one for every cell of [sk], with data 0. *)
Definition promoted (sk : skiplist) : skiplist :=
  (λ _, ROOT_PRESENT) <$> sk.

(** [1] when the entry of [r] in [sk] is a live one, [0] otherwise. *)
Definition live_count (sk : skiplist) (r : Z) : nat :=
  if decide (present sk r) then 1%nat else 0%nat.

(** ** Collections and the invariant of the generational roots *)

Section collections.
Context {AC : AddressClass}.

(** A word before and after a collection: it keeps its class, or it was
    young and is old. *)
Definition aged (w w' : value) : Prop :=
  classify_gc_root w' = classify_gc_root w ∨
  (classify_gc_root w = YOUNG ∧ classify_gc_root w' = OLD).

(** The memory [m'] has the words of [m], aged. *)
Definition aged_mem (m m' : gmap Z Z) : Prop :=
  (∀ a w, m !! a = Some w → ∃ w', m' !! a = Some w' ∧ aged w w') ∧
  (∀ a w', m' !! a = Some w' → is_Some (m !! a)).

(** A scanning action in the manner of a major collection: called on a
    root and its value, it returns, and it changes nothing but the memory,
    where every word is aged. *)
Definition aging (f : scanning_action) : Prop :=
  ∀ fdata v r st, mem st !! r = Some v → ∃ m',
    f fdata v r st = Done tt (set_mem m' st) ∧ aged_mem (mem st) m'.

(** A scanning action in the manner of a minor collection: an aging action
    after which the root it was called on does not hold a young value. *)
Definition promoting (f : scanning_action) : Prop :=
  ∀ fdata v r st, mem st !! r = Some v → ∃ m',
    f fdata v r st = Done tt (set_mem m' st) ∧ aged_mem (mem st) m' ∧
    ∃ w', m' !! r = Some w' ∧ classify_gc_root w' ≠ YOUNG.

Definition call_collecting (c : call) : Prop :=
  match c with
  | Scan_global_roots f _ => aging f
  | Scan_global_young_roots f _ => promoting f
  | _ => True
  end.

(** The generational roots that are registered after the calls [cs], when
    those of [regs] were registered before. *)
Fixpoint registered_after (cs : list call) (regs : gset Z) : gset Z :=
  match cs with
  | [] => regs
  | Register_generational_global_root r :: cs =>
      registered_after cs ({[ r ]} ∪ regs)
  | Remove_generational_global_root r :: cs =>
      registered_after cs (regs ∖ {[ r ]})
  | _ :: cs => registered_after cs regs
  end.

(** What the young and the old list hold: no deleted entry; in the young
    list, roots whose value is a block; in the old list, roots whose value
    is a block outside the young generation. *)
Definition lists_agree (st : state) : Prop :=
  (∀ r d, caml_global_roots_young st !! r = Some d →
          d ≠ ROOT_DELETED ∧
          ∃ v, mem st !! r = Some v ∧ Is_block v = true) ∧
  (∀ r d, caml_global_roots_old st !! r = Some d →
          d ≠ ROOT_DELETED ∧
          ∃ v, mem st !! r = Some v ∧ classify_gc_root v = OLD).

(** The invariant of the generational roots that the code keeps, for the
    registered roots [regs], stated with the three classes that
    [classify_gc_root] computes: a registered root whose value is [YOUNG]
    is in the young list; a registered root whose value is [OLD] is in the
    old list or in the young list; a root whose value is [UNTRACKED] is in
    neither list.

    This is less than the comment before [caml_insert_global_root] says.
    The comment puts a root that holds "a pointer outside of the heap or an
    integer" in neither list. Here the third clause is about integers only:
    [classify_gc_root] has no test for the heap, a pointer outside the heap
    has class [OLD] like a pointer to the major heap, and a root that holds
    one falls under the second clause and is in a list. *)
Definition generational_invariant (regs : gset Z) (st : state) : Prop :=
  (∀ r v, r ∈ regs → mem st !! r = Some v →
          classify_gc_root v = YOUNG →
          is_Some (caml_global_roots_young st !! r)) ∧
  (∀ r v, r ∈ regs → mem st !! r = Some v →
          classify_gc_root v = OLD →
          is_Some (caml_global_roots_old st !! r) ∨
          is_Some (caml_global_roots_young st !! r)) ∧
  (∀ r v, mem st !! r = Some v →
          classify_gc_root v = UNTRACKED →
          caml_global_roots_young st !! r = None ∧
          caml_global_roots_old st !! r = None).

(** The second state comes from the first by a walk of a collection: the
    iteration counter is the same, the lists have lost deleted entries at
    most, and the memory is aged. *)
Definition collected (st st' : state) : Prop :=
  iterating_roots st' = iterating_roots st ∧
  roots_mutex st' = roots_mutex st ∧
  (∀ l k, deref l st' !! k = deref l st !! k ∨
          (deref l st !! k = Some ROOT_DELETED ∧ deref l st' !! k = None)) ∧
  aged_mem (mem st) (mem st').

End collections.

(** A scanning action that removes the mutable root [C] when it is called
    on the root [B], and does nothing on the other roots. *)
Definition remove_when_visiting (B C : Z) : scanning_action :=
  λ _ _ r, if decide (r = B) then caml_remove_global_root C else mret tt.

(** A scanning action that registers the mutable root [X] whenever it is
    called. *)
Definition registering_action (X : Z) : scanning_action :=
  λ _ _ _, caml_register_global_root X.

(** ** The dynamic globals of the [NATIVE_CODE] build *)

Section dyn_globals.

(** [sizeof(void * )] *)
Variable sizeof_ptr : Z.

(** The loop of [caml_register_dyn_globals], at index [i] with [n] more
    rounds to go: [caml_dyn_globals = cons(globals[i], caml_dyn_globals)].
    The chain of links, whose cells [cons] allocates with [caml_stat_alloc],
    is the list of their [data] fields; the allocation is taken to
    succeed. *)
Fixpoint register_dyn_globals_loop (globals i : Z) (n : nat)
    (caml_dyn_globals : list Z) : M (list Z) :=
  match n with
  | O => mret caml_dyn_globals
  | S n =>
      g ← load (globals + i * sizeof_ptr);
      register_dyn_globals_loop globals (i + 1) n (g :: caml_dyn_globals)
  end.

(** [caml_register_dyn_globals(globals, nglobals)]; the variable
    [caml_dyn_globals] is passed in and returned. *)
Definition caml_register_dyn_globals (globals nglobals : Z)
    (caml_dyn_globals : list Z) : M (list Z) :=
  caml_plat_lock_blocking;;
  dyn ← register_dyn_globals_loop globals 0 (Z.to_nat nglobals)
          caml_dyn_globals;
  caml_plat_unlock;;
  mret dyn.

End dyn_globals.

(** ** Sample states

    The young generation is the address interval (4096, 8192). The roots
    are the words at 16, 24, 32, 40 and 48: two hold pointers into the young
    generation, one a pointer into the major heap, one the integer 3
    (tagged: 7), and one the address 1048576 of a block of static data,
    outside the heap. *)

Definition sample_class : AddressClass := tagged_address_class 4096 8192.

Definition sample_mem : gmap Z Z :=
  list_to_map [(16, 4104); (24, 12288); (32, 7); (40, 4112); (48, 1048576)].

(** Nothing is registered. *)
Definition sample_state : state :=
  mkState false 0 ∅ ∅ ∅ sample_mem [].

(** 40 is a mutable root, 16 a generational root in the young list and 24 a
    generational root in the old list. *)
Definition registered_state : state :=
  mkState false 0 {[ 40 := ROOT_PRESENT ]} {[ 16 := ROOT_PRESENT ]}
    {[ 24 := ROOT_PRESENT ]} sample_mem [].

(** 40 is a mutable root and 24 a generational root in the old list; 16 is
    not registered. *)
Definition other_roots_state : state :=
  mkState false 0 {[ 40 := ROOT_PRESENT ]} ∅ {[ 24 := ROOT_PRESENT ]}
    sample_mem [].

(** A sequence of calls: registrations, a full scan, modifications, a minor
    collection that moves the young blocks 8192 bytes further on, and a
    removal. *)
Definition sample_calls : list call :=
  [Register_generational_global_root 16;
   Register_generational_global_root 24;
   Register_global_root 40;
   Scan_global_roots no_action 0;
   Modify_generational_global_root 16 12288;
   Modify_generational_global_root 24 4120;
   Scan_global_young_roots (oldify_action (AC := sample_class) 8192) 0;
   Modify_generational_global_root 16 4104;
   Remove_generational_global_root 24].

(** 32 and 40 are mutable roots, 16 is a generational root in the young
    list and 24 a generational root in the old list. *)
Definition two_mutable_roots_state : state :=
  mkState false 0 (<[ 32 := ROOT_PRESENT ]> {[ 40 := ROOT_PRESENT ]})
    {[ 16 := ROOT_PRESENT ]} {[ 24 := ROOT_PRESENT ]} sample_mem [].

(** The same lists in the course of a scan by the current thread. *)
Definition scanning_state : state :=
  mkState true 1 {[ 40 := ROOT_PRESENT ]} {[ 16 := ROOT_PRESENT ]}
    {[ 24 := ROOT_PRESENT ]} sample_mem [].

(** ** Running the basic operations *)

Lemma assign_deref_same list sk st : deref list (assign list sk st) = sk.
Proof. by destruct list. Qed.

Lemma assign_deref_other list list' sk st :
  list ≠ list' → deref list' (assign list sk st) = deref list' st.
Proof. by destruct list, list'. Qed.

Lemma assign_id list st : assign list (deref list st) st = st.
Proof. by destruct list, st. Qed.

Lemma assign_mem list sk st : mem (assign list sk st) = mem st.
Proof. by destruct list. Qed.

Lemma assign_roots_mutex list sk st :
  roots_mutex (assign list sk st) = roots_mutex st.
Proof. by destruct list. Qed.

Lemma assign_iterating_roots list sk st :
  iterating_roots (assign list sk st) = iterating_roots st.
Proof. by destruct list. Qed.

Lemma assign_scanned list sk st : scanned (assign list sk st) = scanned st.
Proof. by destruct list. Qed.

Lemma tombstone_lookup r sk k :
  tombstone r sk !! k =
    if decide (r = k) then (λ _, ROOT_DELETED) <$> sk !! k else sk !! k.
Proof. unfold tombstone. rewrite lookup_alter. by case_decide; subst. Qed.

Lemma tombstone_present r sk d :
  sk !! r = Some d → tombstone r sk = <[r := ROOT_DELETED]> sk.
Proof.
  intros Hr. apply map_eq. intros k. rewrite tombstone_lookup, lookup_insert.
  case_decide; [subst; by rewrite Hr | done].
Qed.

Lemma tombstone_absent r sk : sk !! r = None → tombstone r sk = sk.
Proof.
  intros Hr. apply map_eq. intros k. rewrite tombstone_lookup.
  case_decide; [subst; by rewrite Hr | done].
Qed.

Lemma tombstone_dom r sk : dom (tombstone r sk) = dom sk.
Proof. apply dom_alter_L. Qed.

Lemma tombstone_is_Some r sk k :
  is_Some (tombstone r sk !! k) ↔ is_Some (sk !! k).
Proof. apply lookup_alter_is_Some. Qed.

Lemma caml_insert_global_root_run list r st :
  roots_mutex st = false →
  caml_insert_global_root list r st =
    Done tt (assign list (<[r := ROOT_PRESENT]> (deref list st)) st).
Proof.
  intros Hm. unfold caml_insert_global_root, mbind, M_bind,
    caml_plat_lock_blocking. rewrite Hm. cbn.
  destruct list, st; cbn in *; by subst.
Qed.

Lemma caml_insert_global_root_blocked list r st :
  roots_mutex st = true → caml_insert_global_root list r st = Stuck Blocked.
Proof.
  intros Hm. unfold caml_insert_global_root, mbind, M_bind,
    caml_plat_lock_blocking. by rewrite Hm.
Qed.

Lemma caml_delete_global_root_iterating list r st :
  0 < iterating_roots st →
  caml_delete_global_root list r st =
    Done tt (assign list (tombstone r (deref list st)) st).
Proof.
  intros Hi. unfold caml_delete_global_root.
  destruct (Z.ltb_spec 0 (iterating_roots st)); [|lia].
  unfold mbind, M_bind, caml_skiplist_find_ptr, store_data.
  destruct (deref list st !! r) as [d|] eqn:Hr; cbn.
  - rewrite Hr. by erewrite tombstone_present.
  - rewrite tombstone_absent by done. by rewrite assign_id.
Qed.

Lemma caml_delete_global_root_unlocked list r st :
  iterating_roots st ≤ 0 → roots_mutex st = false →
  caml_delete_global_root list r st =
    Done tt (assign list (delete r (deref list st)) st).
Proof.
  intros Hi Hm. unfold caml_delete_global_root.
  destruct (Z.ltb_spec 0 (iterating_roots st)); [lia|].
  unfold mbind, M_bind, caml_plat_lock_blocking. rewrite Hm. cbn.
  destruct list, st; cbn in *; by subst.
Qed.

Lemma caml_delete_global_root_blocked list r st :
  iterating_roots st ≤ 0 → roots_mutex st = true →
  caml_delete_global_root list r st = Stuck Blocked.
Proof.
  intros Hi Hm. unfold caml_delete_global_root.
  destruct (Z.ltb_spec 0 (iterating_roots st)); [lia|].
  unfold mbind, M_bind, caml_plat_lock_blocking. by rewrite Hm.
Qed.

Lemma bind_run {A B} (c : M A) (k : A → M B) st :
  (c ≫= k) st =
    match c st with Done a st' => k a st' | Stuck e => Stuck e end.
Proof. done. Qed.

Lemma load_run r v st : mem st !! r = Some v → load r st = Done v st.
Proof. intros Hr. unfold load. by rewrite Hr. Qed.

Lemma store_run r v w st :
  mem st !! r = Some w →
  store r v st = Done tt (set_mem (<[r := v]> (mem st)) st).
Proof. intros Hr. unfold store. by rewrite Hr. Qed.

(** ** Removal *)

(** C6. The removal protocol of [caml_delete_global_root], for every root
    list and every root address. While the calling thread is scanning
    ([iterating_roots > 0]) the entry of [r], when there is one, is marked
    [ROOT_DELETED] in place and the keys of the list are unchanged. When it
    is not scanning (the counter is zero, or below) the entry is unlinked
    between taking and releasing [roots_mutex]: the call waits while the
    mutex is held, and leaves it released. In both cases the removal of an
    address that is not in the list changes nothing. *)
Theorem removal_protocol (list : skiplist_ptr) (r : Z) (st : state) :
  (0 < iterating_roots st →
     caml_delete_global_root list r st =
       Done tt (assign list (tombstone r (deref list st)) st) ∧
     dom (tombstone r (deref list st)) = dom (deref list st) ∧
     (is_Some (deref list st !! r) →
        tombstone r (deref list st) !! r = Some ROOT_DELETED) ∧
     (∀ k, k ≠ r → tombstone r (deref list st) !! k = deref list st !! k)) ∧
  (iterating_roots st ≤ 0 →
     caml_delete_global_root list r st =
       (caml_plat_lock_blocking;;
        caml_skiplist_remove list r;;
        caml_plat_unlock) st ∧
     (roots_mutex st = true →
        caml_delete_global_root list r st = Stuck Blocked) ∧
     (roots_mutex st = false →
        caml_delete_global_root list r st =
          Done tt (assign list (delete r (deref list st)) st) ∧
        delete r (deref list st) !! r = None ∧
        roots_mutex (assign list (delete r (deref list st)) st) = false)) ∧
  (deref list st !! r = None →
     0 < iterating_roots st ∨ roots_mutex st = false →
     caml_delete_global_root list r st = Done tt st).
Proof.
  split_and!.
  - intros Hi. split_and!.
    + by apply caml_delete_global_root_iterating.
    + apply tombstone_dom.
    + intros [d Hd]. rewrite tombstone_lookup, decide_True by done.
      by rewrite Hd.
    + intros k Hk. by rewrite tombstone_lookup, decide_False.
  - intros Hi. split_and!.
    + unfold caml_delete_global_root.
      by destruct (Z.ltb_spec 0 (iterating_roots st)); [lia|].
    + by apply caml_delete_global_root_blocked.
    + intros Hm. split_and!.
      * by apply caml_delete_global_root_unlocked.
      * apply lookup_delete_eq.
      * by destruct list.
  - intros Hr Hg.
    destruct (Z.ltb_spec 0 (iterating_roots st)) as [Hi|Hi].
    + rewrite caml_delete_global_root_iterating by done.
      rewrite tombstone_absent by done. by rewrite assign_id.
    + destruct Hg as [?|Hm]; [lia|].
      rewrite caml_delete_global_root_unlocked by done.
      rewrite delete_id by done. by rewrite assign_id.
Qed.

Section generational.
Context {AC : AddressClass}.

Lemma caml_delete_global_root_removal list r st :
  0 < iterating_roots st ∨ roots_mutex st = false →
  caml_delete_global_root list r st =
    Done tt (assign list (removal st r (deref list st)) st).
Proof.
  intros Hg. unfold removal.
  destruct (Z.ltb_spec 0 (iterating_roots st)) as [Hi|Hi].
  - by apply caml_delete_global_root_iterating.
  - destruct Hg as [?|Hm]; [lia|].
    by apply caml_delete_global_root_unlocked.
Qed.

(** The effect of [caml_remove_generational_global_root] on a root whose
    slot is allocated, when the call does not have to wait for the mutex. *)
Lemma caml_remove_generational_global_root_run (r : Z) (v : value)
    (st : state) :
  mem st !! r = Some v →
  0 < iterating_roots st ∨ roots_mutex st = false →
  ∃ st',
    caml_remove_generational_global_root r st = Done tt st' ∧
    caml_global_roots st' = caml_global_roots st ∧
    mem st' = mem st ∧
    roots_mutex st' = roots_mutex st ∧
    iterating_roots st' = iterating_roots st ∧
    match classify_gc_root v with
    | OLD =>
        caml_global_roots_old st' = removal st r (caml_global_roots_old st) ∧
        caml_global_roots_young st' =
          removal st r (caml_global_roots_young st)
    | YOUNG =>
        caml_global_roots_young st' =
          removal st r (caml_global_roots_young st) ∧
        caml_global_roots_old st' = caml_global_roots_old st
    | UNTRACKED => st' = st
    end.
Proof.
  intros Hr Hg. unfold caml_remove_generational_global_root.
  rewrite bind_run, (load_run r v) by done.
  destruct (classify_gc_root v).
  - rewrite caml_delete_global_root_removal by done. by eexists.
  - rewrite bind_run, caml_delete_global_root_removal by done.
    rewrite caml_delete_global_root_removal by done. by eexists.
  - by eexists.
Qed.

(** C7. [caml_remove_generational_global_root(r)] by cases on the class of
    [*r]: for [OLD] the removal is applied to the old list and also to the
    young list; for [YOUNG] to the young list only, the old list being left
    as it is; for [UNTRACKED] nothing changes. The list of mutable roots,
    the memory and the guard are never changed. *)
Theorem remove_generational_by_class (r : Z) (v : value) (st : state) :
  mem st !! r = Some v →
  0 < iterating_roots st ∨ roots_mutex st = false →
  ∃ st',
    caml_remove_generational_global_root r st = Done tt st' ∧
    caml_global_roots st' = caml_global_roots st ∧
    mem st' = mem st ∧
    roots_mutex st' = roots_mutex st ∧
    iterating_roots st' = iterating_roots st ∧
    match classify_gc_root v with
    | OLD =>
        caml_global_roots_old st' = removal st r (caml_global_roots_old st) ∧
        caml_global_roots_young st' =
          removal st r (caml_global_roots_young st)
    | YOUNG =>
        caml_global_roots_young st' =
          removal st r (caml_global_roots_young st) ∧
        caml_global_roots_old st' = caml_global_roots_old st
    | UNTRACKED => st' = st
    end.
Proof. apply caml_remove_generational_global_root_run. Qed.

End generational.

Section modification.
Context {AC : AddressClass}.

(** [caml_modify_generational_global_root] with an [OLD] new value on a
    root that holds a tracked value. *)
Lemma caml_modify_generational_global_root_old_run (r : Z)
    (newval w : value) (st : state) :
  mem st !! r = Some w →
  classify_gc_root newval = OLD →
  classify_gc_root w ≠ UNTRACKED →
  caml_modify_generational_global_root r newval st =
    Done tt (set_mem (<[r := newval]> (mem st)) st).
Proof.
  intros Hr Hnew Hold. unfold caml_modify_generational_global_root.
  rewrite Hnew, !bind_run, (load_run r w) by done.
  rewrite decide_False by done. cbn. by erewrite store_run.
Qed.

(** C3. Deferred promotion: when the new value is [OLD] and the root holds
    a tracked value ([YOUNG] or [OLD]),
    [caml_modify_generational_global_root] inserts nothing and removes
    nothing. It takes no mutex and changes the state by the assignment
    [*r = newval] alone. *)
Theorem modify_to_old_is_assignment (r : Z) (newval w : value) (st : state) :
  mem st !! r = Some w →
  classify_gc_root newval = OLD →
  classify_gc_root w ≠ UNTRACKED →
  caml_modify_generational_global_root r newval st =
    Done tt (set_mem (<[r := newval]> (mem st)) st).
Proof. apply caml_modify_generational_global_root_old_run. Qed.

Lemma register_young_run (A : Z) (w : value) (st : state) :
  mem st !! A = Some w →
  classify_gc_root w = YOUNG →
  roots_mutex st = false →
  caml_register_generational_global_root A st =
    Done tt (assign GLOBAL_ROOTS_YOUNG
               (<[A := ROOT_PRESENT]> (caml_global_roots_young st)) st).
Proof.
  intros HA Hw Hm. unfold caml_register_generational_global_root.
  rewrite bind_run, (load_run A w), Hw by done.
  by rewrite caml_insert_global_root_run.
Qed.

Lemma register_old_run (A : Z) (w : value) (st : state) :
  mem st !! A = Some w →
  classify_gc_root w = OLD →
  roots_mutex st = false →
  caml_register_generational_global_root A st =
    Done tt (assign GLOBAL_ROOTS_OLD
               (<[A := ROOT_PRESENT]> (caml_global_roots_old st)) st).
Proof.
  intros HA Hw Hm. unfold caml_register_generational_global_root.
  rewrite bind_run, (load_run A w), Hw by done.
  by rewrite caml_insert_global_root_run.
Qed.

Lemma register_untracked_run (A : Z) (w : value) (st : state) :
  mem st !! A = Some w →
  classify_gc_root w = UNTRACKED →
  caml_register_generational_global_root A st = Done tt st.
Proof.
  intros HA Hw. unfold caml_register_generational_global_root.
  by rewrite bind_run, (load_run A w), Hw.
Qed.

(** C2, as the code has it. A root registered while its value is [YOUNG]
    and then set to an [OLD] value is not moved: it is still in the young
    list, as a present entry, the old list is what it was before the
    registration, and the root holds the new value. *)
Theorem young_root_set_to_old_stays_young (A : Z) (w v : value) (st : state) :
  mem st !! A = Some w →
  classify_gc_root w = YOUNG →
  classify_gc_root v = OLD →
  roots_mutex st = false →
  ∃ st',
    (caml_register_generational_global_root A;;
     caml_modify_generational_global_root A v) st = Done tt st' ∧
    caml_global_roots_young st' !! A = Some ROOT_PRESENT ∧
    caml_global_roots_old st' = caml_global_roots_old st ∧
    mem st' !! A = Some v.
Proof.
  intros HA Hw Hv Hm.
  rewrite bind_run, (register_young_run A w) by done.
  erewrite (caml_modify_generational_global_root_old_run A v w); [|done..|by rewrite Hw].
  eexists. split; [done|]. cbn. by rewrite !lookup_insert_eq.
Qed.

(** C8. Round trip: for a root [A] that is not in the young list, whose
    value is [YOUNG], with no scan under way and the mutex free, registering
    and then un-registering [A] leaves the young and the old list at the
    sizes they had; the state is in fact the one before the registration. *)
Theorem register_unregister_round_trip (A : Z) (w : value) (st : state) :
  quiescent st →
  mem st !! A = Some w →
  classify_gc_root w = YOUNG →
  caml_global_roots_young st !! A = None →
  ∃ st',
    (caml_register_generational_global_root A;;
     caml_remove_generational_global_root A) st = Done tt st' ∧
    size (caml_global_roots_young st') = size (caml_global_roots_young st) ∧
    size (caml_global_roots_old st') = size (caml_global_roots_old st) ∧
    st' = st.
Proof.
  intros [Hm Hi] HA Hw Hfresh.
  rewrite bind_run, (register_young_run A w) by done.
  unfold caml_remove_generational_global_root.
  rewrite bind_run, (load_run A w), Hw by done.
  rewrite caml_delete_global_root_unlocked by (cbn; first [lia | done]).
  cbn. rewrite delete_insert_id by done.
  exists st. by destruct st.
Qed.

(** C9. Untracking: a root [A] that is not in the old list is registered
    while it holds a block (young or old) and is then set to an integer
    [i]. With no scan under way and the mutex free, [A] is afterwards in
    neither the young nor the old list, it holds [i], and un-registering it
    later changes nothing at all. *)
Theorem set_to_integer_untracks (A : Z) (w i : value) (st : state) :
  quiescent st →
  mem st !! A = Some w →
  Is_block w = true →
  Is_block i = false →
  caml_global_roots_old st !! A = None →
  ∃ st',
    (caml_register_generational_global_root A;;
     caml_modify_generational_global_root A i) st = Done tt st' ∧
    caml_global_roots_young st' !! A = None ∧
    caml_global_roots_old st' !! A = None ∧
    mem st' !! A = Some i ∧
    caml_remove_generational_global_root A st' = Done tt st'.
Proof.
  intros [Hm Hi] HA Hw Hint Hfresh.
  assert (classify_gc_root i = UNTRACKED) as Hci
    by (unfold classify_gc_root; by rewrite Hint).
  assert (∀ st1 : state, mem st1 !! A = Some i →
            caml_remove_generational_global_root A st1 = Done tt st1) as Hnop.
  { intros st1 H1. unfold caml_remove_generational_global_root.
    by rewrite bind_run, (load_run A i), Hci. }
  destruct (classify_gc_root w) eqn:Hcw.
  - rewrite bind_run, (register_young_run A w) by done.
    unfold caml_modify_generational_global_root.
    rewrite Hci, bind_run. unfold caml_remove_generational_global_root.
    rewrite bind_run, (load_run A w), Hcw by done.
    rewrite caml_delete_global_root_unlocked by (cbn; first [lia | done]).
    erewrite store_run by done. eexists. split; [done|]. cbn.
    rewrite !lookup_delete_eq, lookup_insert_eq. split_and!; try done.
    apply Hnop. cbn. by rewrite lookup_insert_eq.
  - rewrite bind_run, (register_old_run A w) by done.
    unfold caml_modify_generational_global_root.
    rewrite Hci, bind_run. unfold caml_remove_generational_global_root.
    rewrite bind_run, (load_run A w), Hcw by done.
    rewrite bind_run, caml_delete_global_root_unlocked by (cbn; first [lia | done]).
    rewrite caml_delete_global_root_unlocked by (cbn; first [lia | done]).
    erewrite store_run by done. eexists. split; [done|]. cbn.
    rewrite !lookup_delete_eq, lookup_insert_eq. split_and!; try done.
    apply Hnop. cbn. by rewrite lookup_insert_eq.
  - unfold classify_gc_root in Hcw. rewrite Hw in Hcw. cbn in Hcw.
    by destruct (Is_young w).
Qed.

End modification.

(** ** Walking a root list *)

Lemma skiplist_cells_NoDup (sk : gmap Z Z) : NoDup (skiplist_cells sk).
Proof.
  unfold skiplist_cells. rewrite merge_sort_Permutation. apply NoDup_elements.
Qed.

Lemma skiplist_cells_elem_of (sk : gmap Z Z) k :
  k ∈ skiplist_cells sk ↔ is_Some (sk !! k).
Proof.
  unfold skiplist_cells.
  by rewrite merge_sort_Permutation, elem_of_elements, elem_of_dom.
Qed.

Lemma foreach_app action cells1 cells2 st :
  foreach action (cells1 ++ cells2) st =
    (foreach action cells1;; foreach action cells2) st.
Proof.
  revert st. induction cells1 as [|e cells1 IH]; intros st; cbn.
  - done.
  - rewrite !bind_run. destruct (action e st) as [[] st1|]; [|done].
    rewrite IH. by rewrite bind_run.
Qed.

Lemma foreach_ext action1 action2 cells st :
  (∀ e st, e ∈ cells → action1 e st = action2 e st) →
  foreach action1 cells st = foreach action2 cells st.
Proof.
  revert st. induction cells as [|e cells IH]; intros st Hext; cbn.
  - done.
  - rewrite !bind_run, Hext by (by left).
    destruct (action2 e st) as [[] st1|]; [|done].
    apply IH. intros e' st' He'. apply Hext. by right.
Qed.

(** A property kept by every step of a walk is kept by the walk. *)
Lemma foreach_preserves (P : state → Prop) action cells st st' :
  (∀ e st st', P st → action e st = Done tt st' → P st') →
  P st → foreach action cells st = Done tt st' → P st'.
Proof.
  intros Hstep. revert st. induction cells as [|e cells IH]; intros st HP; cbn.
  - by intros [= <-].
  - rewrite bind_run. destruct (action e st) as [[] st1|] eqn:He; [|done].
    eauto.
Qed.

Lemma times_scanned_app r log1 log2 :
  times_scanned r (log1 ++ log2) =
    (times_scanned r log1 + times_scanned r log2)%nat.
Proof.
  unfold times_scanned. by rewrite fmap_app, filter_app, length_app.
Qed.

Lemma filter_eq_NoDup_length (r : Z) (l : list Z) :
  NoDup l →
  length (filter (λ k, k = r) l) = if decide (r ∈ l) then 1%nat else 0%nat.
Proof.
  induction 1 as [|k l Hk Hl IH]; [done|].
  rewrite filter_cons. destruct (decide (k = r)) as [->|Hne]; cbn.
  - rewrite IH, decide_False by done.
    rewrite decide_True by (by left). done.
  - rewrite IH. destruct (decide (r ∈ l)) as [Hr|Hr].
    + rewrite decide_True by (by right). done.
    + rewrite decide_False; [done|].
      intros [->|?]%elem_of_cons; [by apply Hne | by apply Hr].
Qed.

Lemma filter_ext_elem_of (P Q : Z → Prop) `{!∀ x, Decision (P x)}
    `{!∀ x, Decision (Q x)} (l : list Z) :
  (∀ x, x ∈ l → P x ↔ Q x) → filter P l = filter Q l.
Proof.
  induction l as [|x l IH]; intros Hext; [done|].
  rewrite !filter_cons. rewrite IH.
  - destruct (decide (P x)) as [HP|HP].
    + rewrite decide_True; [done|]. apply Hext; [left|done].
    + rewrite decide_False; [done|]. rewrite <- Hext; [done|left].
  - intros y Hy. apply Hext. by right.
Qed.

Section walks.
Context {AC : AddressClass}.

Lemma same_blocks_refl m : same_blocks m m.
Proof. intros a w Ha. eauto. Qed.

Lemma same_blocks_trans m1 m2 m3 :
  same_blocks m1 m2 → same_blocks m2 m3 → same_blocks m1 m3.
Proof.
  intros H12 H23 a w Ha. destruct (H12 a w Ha) as (w2 & Ha2 & Hb2).
  destruct (H23 a w2 Ha2) as (w3 & Ha3 & Hb3). exists w3. split; [done|].
  congruence.
Qed.

Lemma same_blocks_is_Some m m' a :
  same_blocks m m' → is_Some (m !! a) → is_Some (m' !! a).
Proof. intros Hs [w Ha]. destruct (Hs a w Ha) as (w' & -> & _). eauto. Qed.

(** One step of the walk with a relocating action. *)
Lemma iterate_action_relocating f rootlist fdata e d st :
  relocating f →
  deref rootlist st !! e = Some d →
  is_Some (mem st !! e) →
  ∃ st', iterate_action f rootlist fdata e st = Done tt st' ∧
    roots_mutex st' = roots_mutex st ∧
    iterating_roots st' = iterating_roots st ∧
    (∀ l, l ≠ rootlist → deref l st' = deref l st) ∧
    deref rootlist st' =
      (if decide (d = ROOT_DELETED) then delete e (deref rootlist st)
       else deref rootlist st) ∧
    same_blocks (mem st) (mem st') ∧
    ∃ new, scanned st' = scanned st ++ new ∧
           new.*1 = if decide (d = ROOT_DELETED) then [] else [e].
Proof.
  intros Hf Hd [w Hw]. unfold iterate_action, cell_data.
  rewrite bind_run, Hd. destruct (Z.eqb_spec d ROOT_DELETED) as [->|Hne].
  - rewrite decide_True by done. eexists. split; [done|].
    rewrite assign_deref_same, assign_mem, assign_roots_mutex,
      assign_iterating_roots, assign_scanned.
    split_and!; try done.
    + intros l Hl. by apply assign_deref_other.
    + apply same_blocks_refl.
    + exists []. by rewrite app_nil_r.
  - rewrite decide_False by done.
    rewrite bind_run, (load_run e w) by done. rewrite bind_run. cbn.
    destruct (Hf fdata w e (set_scanned (scanned st ++ [(e, w)]) st) Hw)
      as (m' & -> & Hm').
    eexists. split; [done|]. split_and!; try done.
    exists [(e, w)]. by rewrite decide_False.
Qed.

(** The walk of any duplicate-free list of linked cells with a relocating
    action: it finishes, it unlinks the deleted cells it meets, it calls
    the action on the others, and it leaves the rest of the state alone. *)
Lemma foreach_relocating f rootlist fdata cells :
  relocating f → ∀ st,
  NoDup cells →
  (∀ k, k ∈ cells →
        is_Some (deref rootlist st !! k) ∧ is_Some (mem st !! k)) →
  ∃ st', foreach (iterate_action f rootlist fdata) cells st = Done tt st' ∧
    roots_mutex st' = roots_mutex st ∧
    iterating_roots st' = iterating_roots st ∧
    (∀ l, l ≠ rootlist → deref l st' = deref l st) ∧
    (∀ k, deref rootlist st' !! k =
          if decide (k ∈ cells ∧ deref rootlist st !! k = Some ROOT_DELETED)
          then None else deref rootlist st !! k) ∧
    same_blocks (mem st) (mem st') ∧
    ∃ new, scanned st' = scanned st ++ new ∧
           new.*1 = filter (λ k, present (deref rootlist st) k) cells.
Proof.
  intros Hf. induction cells as [|e cells IH]; intros st Hnd Hin.
  - exists st. split_and!; try done.
    + apply same_blocks_refl.
    + exists []. by rewrite app_nil_r.
  - apply NoDup_cons in Hnd as [He Hnd].
    destruct (Hin e) as [[d Hd] Hm]; [by left|].
    destruct (iterate_action_relocating f rootlist fdata e d st Hf Hd Hm)
      as (st1 & Hrun1 & Hmx1 & Hit1 & Hoth1 & Hl1 & Hmem1 & new1 & Hsc1 & Hnew1).
    assert (∀ k, k ≠ e → deref rootlist st1 !! k = deref rootlist st !! k)
      as Hl1'.
    { intros k Hk. rewrite Hl1. case_decide; [|done].
      by rewrite lookup_delete_ne. }
    destruct (IH st1 Hnd) as
      (st' & Hrun & Hmx & Hit & Hoth & Hl & Hmem & new & Hsc & Hnew).
    { intros k Hk. destruct (Hin k) as [Hk1 Hk2]; [by right|].
      rewrite Hl1' by (by intros ->). split; [done|].
      by eapply same_blocks_is_Some. }
    exists st'. simpl foreach. rewrite bind_run, Hrun1. split; [done|].
    split_and!; try congruence.
    + intros l Hne. rewrite Hoth, Hoth1 by done. done.
    + intros k. rewrite Hl. destruct (decide (k = e)) as [->|Hke].
      * rewrite decide_False by (by intros [? _]). rewrite Hl1, Hd.
        destruct (decide (d = ROOT_DELETED)) as [->|Hne].
        -- rewrite lookup_delete_eq. rewrite decide_True; [done|].
           split; [by left|done].
        -- rewrite Hd. rewrite decide_False; [done|]. intros [_ [=]]. done.
      * rewrite Hl1' by done.
        destruct (decide (k ∈ cells ∧ deref rootlist st !! k = Some ROOT_DELETED))
          as [[]|Hn].
        -- rewrite decide_True; [done|]. split; [by right|done].
        -- rewrite decide_False; [done|].
           intros [[->|?]%elem_of_cons ?]; [done|]. by apply Hn.
    + by eapply same_blocks_trans.
    + exists (new1 ++ new). rewrite Hsc, Hsc1, fmap_app, Hnew1, Hnew.
      split; [by rewrite app_assoc|]. rewrite filter_cons.
      assert (filter (λ k, present (deref rootlist st1) k) cells =
              filter (λ k, present (deref rootlist st) k) cells) as ->.
      { apply filter_ext_elem_of. intros k Hk.
        unfold present. rewrite Hl1' by (by intros ->). done. }
      destruct (decide (d = ROOT_DELETED)) as [->|Hne].
      * rewrite decide_False; [done|]. intros (d' & Hd' & Hne').
        rewrite Hd in Hd'. by simplify_eq.
      * rewrite decide_True; [done|]. by exists d.
Qed.

End walks.

Lemma purge_lookup (sk : gmap Z Z) k :
  purge sk !! k =
    if decide (sk !! k = Some ROOT_DELETED) then None else sk !! k.
Proof.
  unfold purge. destruct (sk !! k) as [d|] eqn:Hk.
  - destruct (decide (d = ROOT_DELETED)) as [->|Hd].
    + rewrite decide_True by done. apply map_lookup_filter_None.
      right. intros d Hd. rewrite Hk in Hd. simplify_eq. cbn. tauto.
    + rewrite decide_False by congruence. by apply map_lookup_filter_Some.
  - rewrite decide_False by done. apply map_lookup_filter_None. by left.
Qed.

Lemma purge_present (sk : gmap Z Z) k : present (purge sk) k ↔ present sk k.
Proof.
  unfold present. rewrite purge_lookup. case_decide as Hd.
  - rewrite Hd. split; intros (d & Hk & Hne); by simplify_eq.
  - done.
Qed.

Lemma purge_is_Some (sk : gmap Z Z) k :
  is_Some (purge sk !! k) → is_Some (sk !! k).
Proof. rewrite purge_lookup. case_decide; [by intros [? [=]]|done]. Qed.

Lemma promoted_lookup (sk : gmap Z Z) k d :
  sk !! k = Some d → promoted sk !! k = Some ROOT_PRESENT.
Proof. intros Hk. unfold promoted. by rewrite lookup_fmap, Hk. Qed.

Lemma times_scanned_filter_cells r (sk : gmap Z Z) new :
  new.*1 = filter (λ k, present sk k) (skiplist_cells sk) →
  times_scanned r new = live_count sk r.
Proof.
  intros Hnew. unfold times_scanned, live_count. rewrite Hnew.
  rewrite filter_eq_NoDup_length
    by (apply NoDup_filter, skiplist_cells_NoDup).
  apply decide_ext. rewrite list_elem_of_filter, skiplist_cells_elem_of.
  split; [tauto|]. intros Hp. split; [done|].
  destruct Hp as (d & -> & _). eauto.
Qed.

Section scans.
Context {AC : AddressClass}.

(** The walk of a whole root list with a relocating action. *)
Lemma caml_iterate_global_roots_relocating f rootlist fdata st :
  relocating f →
  (∀ k, is_Some (deref rootlist st !! k) → is_Some (mem st !! k)) →
  ∃ st', caml_iterate_global_roots f rootlist fdata st = Done tt st' ∧
    roots_mutex st' = roots_mutex st ∧
    iterating_roots st' = iterating_roots st ∧
    (∀ l, l ≠ rootlist → deref l st' = deref l st) ∧
    deref rootlist st' = purge (deref rootlist st) ∧
    same_blocks (mem st) (mem st') ∧
    ∃ new, scanned st' = scanned st ++ new ∧
           ∀ r, times_scanned r new = live_count (deref rootlist st) r.
Proof.
  intros Hf Hmapped.
  destruct (foreach_relocating f rootlist fdata
              (skiplist_cells (deref rootlist st)) Hf st)
    as (st' & Hrun & Hmx & Hit & Hoth & Hl & Hmem & new & Hsc & Hnew).
  { apply skiplist_cells_NoDup. }
  { intros k Hk. apply skiplist_cells_elem_of in Hk. auto. }
  exists st'. split_and!; try done.
  - apply map_eq. intros k. rewrite Hl, purge_lookup.
    destruct (decide (deref rootlist st !! k = Some ROOT_DELETED)) as [Hd|Hd].
    + rewrite decide_True; [done|]. split; [|done].
      apply skiplist_cells_elem_of. rewrite Hd. eauto.
    + rewrite decide_False; [done|]. tauto.
  - exists new. split; [done|]. intros r.
    by apply times_scanned_filter_cells.
Qed.

Lemma foreach_insert_old cells : ∀ st,
  ∃ sk, foreach (λ e, caml_skiplist_insert GLOBAL_ROOTS_OLD e 0) cells st =
          Done tt (assign GLOBAL_ROOTS_OLD sk st) ∧
        ∀ k, sk !! k = if decide (k ∈ cells) then Some ROOT_PRESENT
                       else caml_global_roots_old st !! k.
Proof.
  induction cells as [|e cells IH]; intros st.
  - exists (caml_global_roots_old st). split.
    + cbn. by destruct st.
    + intros k. rewrite decide_False; [done|]. apply not_elem_of_nil.
  - simpl foreach. rewrite bind_run. unfold caml_skiplist_insert at 1.
    destruct (IH (assign GLOBAL_ROOTS_OLD
                    (<[e := 0]> (deref GLOBAL_ROOTS_OLD st)) st))
      as (sk & -> & Hsk).
    exists sk. split; [done|]. intros k. rewrite Hsk. cbn.
    destruct (decide (k ∈ cells)) as [Hk|Hk].
    + rewrite decide_True; [done|]. by right.
    + destruct (decide (k = e)) as [->|Hne].
      * rewrite lookup_insert_eq. rewrite decide_True; [done|]. by left.
      * rewrite lookup_insert_ne by done. rewrite decide_False; [done|].
        rewrite elem_of_cons. tauto.
Qed.

(** The promotion loop of [caml_scan_global_young_roots] as one step. *)
Lemma move_young_roots_to_old_run st :
  move_young_roots_to_old st =
    Done tt (assign GLOBAL_ROOTS_YOUNG ∅
               (assign GLOBAL_ROOTS_OLD
                  (promoted (caml_global_roots_young st) ∪
                   caml_global_roots_old st) st)).
Proof.
  unfold move_young_roots_to_old, FOREACH_SKIPLIST_ELEMENT.
  rewrite bind_run.
  destruct (foreach_insert_old
              (skiplist_cells (deref GLOBAL_ROOTS_YOUNG st)) st)
    as (sk & -> & Hsk).
  unfold caml_skiplist_empty. do 3 f_equal. apply map_eq. intros k.
  rewrite Hsk. cbn. destruct (caml_global_roots_young st !! k) as [d|] eqn:Hk.
  - rewrite decide_True by (apply skiplist_cells_elem_of; cbn; eauto).
    symmetry. apply lookup_union_Some_l. by eapply promoted_lookup.
  - rewrite decide_False.
    + rewrite lookup_union_r; [done|]. unfold promoted.
      by rewrite lookup_fmap, Hk.
    + rewrite skiplist_cells_elem_of. cbn. rewrite Hk. by intros [? [=]].
Qed.

End scans.

Section scans_relocating.
Context {AC : AddressClass}.

Lemma roots_mapped_step st st' :
  roots_mapped st →
  (∀ l k, is_Some (deref l st' !! k) → ∃ l0, is_Some (deref l0 st !! k)) →
  same_blocks (mem st) (mem st') →
  roots_mapped st'.
Proof.
  intros Hmap Hsub Hmem l k Hk. destruct (Hsub l k Hk) as [l0 Hk0].
  eapply same_blocks_is_Some; [done|]. by eapply Hmap.
Qed.

(** [caml_scan_global_young_roots] with a relocating action, from a state
    where no scan is under way: the scan finishes, the mutable roots lose
    their tombstones, every entry left in the young list is written to the
    old list as a present entry, and the young list is emptied. *)
Lemma caml_scan_global_young_roots_relocating f fdata st :
  relocating f → quiescent st → roots_mapped st →
  ∃ st', caml_scan_global_young_roots f fdata st = Done tt st' ∧
    quiescent st' ∧
    caml_global_roots st' = purge (caml_global_roots st) ∧
    caml_global_roots_young st' = ∅ ∧
    caml_global_roots_old st' =
      promoted (purge (caml_global_roots_young st)) ∪
      caml_global_roots_old st ∧
    same_blocks (mem st) (mem st') ∧
    ∃ new, scanned st' = scanned st ++ new ∧
           ∀ r, times_scanned r new =
                (live_count (caml_global_roots st) r +
                 live_count (caml_global_roots_young st) r)%nat.
Proof.
  intros Hf [Hmx Hit] Hmap. unfold caml_scan_global_young_roots.
  rewrite bind_run. unfold caml_plat_lock_blocking at 1. rewrite Hmx.
  rewrite bind_run. unfold incr_iterating_roots at 1. cbn [iterating_roots set_mutex].
  rewrite Hit. change (0 <? INT_MAX) with true. cbv iota.
  set (sta := set_iterating (0 + 1) (set_mutex true st)).
  destruct (caml_iterate_global_roots_relocating f GLOBAL_ROOTS fdata sta Hf)
    as (stb & Hrunb & Hmxb & Hitb & Hothb & Hlb & Hmemb & newb & Hscb & Hnewb).
  { intros k Hk. by apply (Hmap GLOBAL_ROOTS). }
  rewrite bind_run, Hrunb.
  destruct (caml_iterate_global_roots_relocating f GLOBAL_ROOTS_YOUNG
              fdata stb Hf)
    as (stc & Hrunc & Hmxc & Hitc & Hothc & Hlc & Hmemc & newc & Hscc & Hnewc).
  { intros k Hk. rewrite (Hothb GLOBAL_ROOTS_YOUNG) in Hk by done.
    eapply same_blocks_is_Some; [done|]. by apply (Hmap GLOBAL_ROOTS_YOUNG). }
  rewrite bind_run, Hrunc.
  rewrite bind_run, move_young_roots_to_old_run.
  rewrite bind_run. unfold decr_iterating_roots at 1.
  cbn [iterating_roots assign]. rewrite Hitc, Hitb. cbn [iterating_roots sta set_iterating].
  change (INT_MIN <? 0 + 1) with true. cbv iota.
  eexists. split; [done|]. cbn.
  pose proof (Hothb GLOBAL_ROOTS_YOUNG ltac:(done)) as Hby.
  pose proof (Hothb GLOBAL_ROOTS_OLD ltac:(done)) as Hbo.
  pose proof (Hothc GLOBAL_ROOTS ltac:(done)) as Hcm.
  pose proof (Hothc GLOBAL_ROOTS_OLD ltac:(done)) as Hco.
  cbn in Hby, Hbo, Hcm, Hco, Hlb, Hlc.
  split_and!.
  - done.
  - by rewrite Hcm, Hlb.
  - done.
  - by rewrite Hlc, Hby, Hco, Hbo.
  - eapply same_blocks_trans; [|done]. done.
  - exists (newb ++ newc). rewrite Hscc, Hscb. split; [by rewrite app_assoc|].
    intros r. rewrite times_scanned_app, Hnewb, Hnewc. cbn. by rewrite Hby.
Qed.

(** [caml_scan_global_roots] with a relocating action, from a state where
    no scan is under way: the scan finishes, the three lists lose their
    tombstones, and the action is called once on every live entry of every
    list. *)
Lemma caml_scan_global_roots_relocating f fdata st :
  relocating f → quiescent st → roots_mapped st →
  ∃ st', caml_scan_global_roots f fdata st = Done tt st' ∧
    quiescent st' ∧
    caml_global_roots st' = purge (caml_global_roots st) ∧
    caml_global_roots_young st' = purge (caml_global_roots_young st) ∧
    caml_global_roots_old st' = purge (caml_global_roots_old st) ∧
    same_blocks (mem st) (mem st') ∧
    ∃ new, scanned st' = scanned st ++ new ∧
           ∀ r, times_scanned r new =
                (live_count (caml_global_roots st) r +
                 live_count (caml_global_roots_young st) r +
                 live_count (caml_global_roots_old st) r)%nat.
Proof.
  intros Hf [Hmx Hit] Hmap. unfold caml_scan_global_roots.
  rewrite bind_run. unfold caml_plat_lock_blocking at 1. rewrite Hmx.
  rewrite bind_run. unfold incr_iterating_roots at 1. cbn [iterating_roots set_mutex].
  rewrite Hit. change (0 <? INT_MAX) with true. cbv iota.
  set (sta := set_iterating (0 + 1) (set_mutex true st)).
  destruct (caml_iterate_global_roots_relocating f GLOBAL_ROOTS fdata sta Hf)
    as (stb & Hrunb & Hmxb & Hitb & Hothb & Hlb & Hmemb & newb & Hscb & Hnewb).
  { intros k Hk. by apply (Hmap GLOBAL_ROOTS). }
  rewrite bind_run, Hrunb.
  destruct (caml_iterate_global_roots_relocating f GLOBAL_ROOTS_YOUNG
              fdata stb Hf)
    as (stc & Hrunc & Hmxc & Hitc & Hothc & Hlc & Hmemc & newc & Hscc & Hnewc).
  { intros k Hk. rewrite (Hothb GLOBAL_ROOTS_YOUNG) in Hk by done.
    eapply same_blocks_is_Some; [done|]. by apply (Hmap GLOBAL_ROOTS_YOUNG). }
  rewrite bind_run, Hrunc.
  destruct (caml_iterate_global_roots_relocating f GLOBAL_ROOTS_OLD
              fdata stc Hf)
    as (std & Hrund & Hmxd & Hitd & Hothd & Hld & Hmemd & newd & Hscd & Hnewd).
  { intros k Hk. rewrite (Hothc GLOBAL_ROOTS_OLD) in Hk by done.
    rewrite (Hothb GLOBAL_ROOTS_OLD) in Hk by done.
    eapply same_blocks_is_Some; [done|].
    eapply same_blocks_is_Some; [done|]. by apply (Hmap GLOBAL_ROOTS_OLD). }
  rewrite bind_run, Hrund.
  rewrite bind_run. unfold decr_iterating_roots at 1.
  rewrite Hitd, Hitc, Hitb. cbn [iterating_roots sta set_iterating].
  change (INT_MIN <? 0 + 1) with true. cbv iota.
  eexists. split; [done|]. cbn.
  pose proof (Hothb GLOBAL_ROOTS_YOUNG ltac:(done)) as Hby.
  pose proof (Hothb GLOBAL_ROOTS_OLD ltac:(done)) as Hbo.
  pose proof (Hothc GLOBAL_ROOTS ltac:(done)) as Hcm.
  pose proof (Hothc GLOBAL_ROOTS_OLD ltac:(done)) as Hco.
  pose proof (Hothd GLOBAL_ROOTS ltac:(done)) as Hdm.
  pose proof (Hothd GLOBAL_ROOTS_YOUNG ltac:(done)) as Hdy.
  cbn in Hby, Hbo, Hcm, Hco, Hdm, Hdy, Hlb, Hlc, Hld.
  split_and!.
  - done.
  - by rewrite Hdm, Hcm, Hlb.
  - by rewrite Hdy, Hlc, Hby.
  - by rewrite Hld, Hco, Hbo.
  - eapply same_blocks_trans; [|done]. eapply same_blocks_trans; [|done]. done.
  - exists (newb ++ newc ++ newd). rewrite Hscd, Hscc, Hscb.
    split; [by rewrite !app_assoc|].
    intros r. rewrite !times_scanned_app, Hnewb, Hnewc, Hnewd. cbn.
    rewrite Hby, Hco, Hbo. lia.
Qed.

End scans_relocating.

Section promotion.
Context {AC : AddressClass}.

Lemma no_action_relocating : relocating no_action.
Proof.
  intros fdata v r st Hr. exists (mem st). split.
  - by destruct st.
  - apply same_blocks_refl.
Qed.

Lemma live_count_present (sk : gmap Z Z) r d :
  sk !! r = Some d → d ≠ ROOT_DELETED → live_count sk r = 1%nat.
Proof. intros Hr Hd. unfold live_count. rewrite decide_True; [done|]. by exists d. Qed.

Lemma live_count_absent (sk : gmap Z Z) r :
  sk !! r = None → live_count sk r = 0%nat.
Proof.
  intros Hr. unfold live_count. rewrite decide_False; [done|].
  intros (d & Hd & _). by rewrite Hr in Hd.
Qed.

Lemma live_count_purge (sk : gmap Z Z) r :
  live_count (purge sk) r = live_count sk r.
Proof. unfold live_count. apply decide_ext, purge_present. Qed.

Lemma promoted_union_is_Some (young old : gmap Z Z) k :
  is_Some ((promoted young ∪ old) !! k) →
  is_Some (young !! k) ∨ is_Some (old !! k).
Proof.
  rewrite lookup_union_is_Some. unfold promoted.
  rewrite lookup_fmap, fmap_is_Some. tauto.
Qed.

(** C5. Promotion. [A] is not a mutable root and holds a young value; no
    scan is under way, and every registered root is a word of the memory.
    After [A] is registered and [caml_scan_global_young_roots] has run with
    a relocating action, the young list is empty, so that [A] is not in it,
    and [A] is a present entry of the old list; a following
    [caml_scan_global_roots] with a relocating action calls the action on
    [A] exactly once. *)
Theorem promotion_of_young_root (A : Z) (w : value)
    (f g : scanning_action) (fdata gdata : Z) (st : state) :
  quiescent st →
  roots_mapped st →
  mem st !! A = Some w →
  classify_gc_root w = YOUNG →
  caml_global_roots st !! A = None →
  relocating f →
  relocating g →
  ∃ st1,
    (caml_register_generational_global_root A;;
     caml_scan_global_young_roots f fdata) st = Done tt st1 ∧
    caml_global_roots_young st1 = ∅ ∧
    caml_global_roots_young st1 !! A = None ∧
    caml_global_roots_old st1 !! A = Some ROOT_PRESENT ∧
    ∃ st2 new,
      caml_scan_global_roots g gdata st1 = Done tt st2 ∧
      scanned st2 = scanned st1 ++ new ∧
      times_scanned A new = 1%nat.
Proof.
  intros [Hmx Hit] Hmap HA Hw Hmut Hf Hg.
  rewrite bind_run, (register_young_run A w) by done.
  set (str := assign GLOBAL_ROOTS_YOUNG
                (<[A := ROOT_PRESENT]> (caml_global_roots_young st)) st).
  assert (roots_mapped str) as Hmapr.
  { intros l k Hk. destruct l; cbn in Hk |- *.
    - by apply (Hmap GLOBAL_ROOTS).
    - apply lookup_insert_is_Some in Hk as [<-|[_ Hk]]; [by eauto|].
      by apply (Hmap GLOBAL_ROOTS_YOUNG).
    - by apply (Hmap GLOBAL_ROOTS_OLD). }
  destruct (caml_scan_global_young_roots_relocating f fdata str Hf)
    as (st1 & Hrun1 & Hq1 & Hm1 & Hy1 & Ho1 & Hmem1 & _); [done..|].
  exists st1. split; [done|].
  assert (caml_global_roots_old st1 !! A = Some ROOT_PRESENT) as HoA.
  { rewrite Ho1. apply lookup_union_Some_l.
    apply (promoted_lookup _ _ ROOT_PRESENT). cbn.
    rewrite purge_lookup, lookup_insert_eq. by rewrite decide_False. }
  split_and!; [done|by rewrite Hy1|done|].
  assert (roots_mapped st1) as Hmap1.
  { apply (roots_mapped_step str); [done| |done].
    intros l k Hk. destruct l; cbn in Hk.
    - exists GLOBAL_ROOTS. rewrite Hm1 in Hk. by apply purge_is_Some.
    - rewrite Hy1, lookup_empty in Hk. by destruct Hk.
    - rewrite Ho1 in Hk. apply promoted_union_is_Some in Hk as [Hk|Hk].
      + exists GLOBAL_ROOTS_YOUNG. by apply purge_is_Some.
      + by exists GLOBAL_ROOTS_OLD. }
  destruct (caml_scan_global_roots_relocating g gdata st1 Hg Hq1 Hmap1)
    as (st2 & Hrun2 & _ & _ & _ & _ & _ & new & Hsc & Hnew).
  exists st2, new. split_and!; [done..|].
  rewrite Hnew, Hm1, Hy1, live_count_purge.
  rewrite (live_count_absent (caml_global_roots str)) by done.
  rewrite (live_count_absent ∅) by apply lookup_empty.
  by rewrite (live_count_present _ _ ROOT_PRESENT).
Qed.

End promotion.

Section unregistering_action.
Context {AC : AddressClass}.

Lemma iterate_action_unregister_other A rootlist fdata e st :
  e ≠ A →
  iterate_action (unregister_when_visited A) rootlist fdata e st =
    iterate_action no_action rootlist fdata e st.
Proof.
  intros He. unfold iterate_action. rewrite !bind_run.
  destruct (cell_data rootlist e st) as [d st1|]; [|done].
  destruct (d =? ROOT_DELETED); [done|]. rewrite !bind_run.
  destruct (load e st1) as [v st2|]; [|done]. rewrite !bind_run.
  destruct (note_call e v st2) as [[] st3|]; [|done].
  unfold unregister_when_visited, no_action. by rewrite decide_False.
Qed.

Lemma foreach_unregister_other A rootlist fdata cells st :
  A ∉ cells →
  foreach (iterate_action (unregister_when_visited A) rootlist fdata)
    cells st =
  foreach (iterate_action no_action rootlist fdata) cells st.
Proof.
  intros HA. apply foreach_ext. intros e st' He.
  apply iterate_action_unregister_other. by intros ->.
Qed.

(** The step of the walk of the young list on the live entry of [A], whose
    value is a block: the action is called, and leaves a tombstone. *)
Lemma iterate_action_unregister_visited A fdata d w st :
  0 < iterating_roots st →
  caml_global_roots_young st !! A = Some d →
  d ≠ ROOT_DELETED →
  mem st !! A = Some w →
  Is_block w = true →
  ∃ st',
    iterate_action (unregister_when_visited A) GLOBAL_ROOTS_YOUNG fdata A st =
      Done tt st' ∧
    roots_mutex st' = roots_mutex st ∧
    iterating_roots st' = iterating_roots st ∧
    caml_global_roots st' = caml_global_roots st ∧
    caml_global_roots_young st' = tombstone A (caml_global_roots_young st) ∧
    dom (caml_global_roots_old st') = dom (caml_global_roots_old st) ∧
    mem st' = mem st.
Proof.
  intros Hit Hd Hne Hw Hb. unfold iterate_action, cell_data.
  rewrite bind_run. cbn [deref]. rewrite Hd.
  destruct (Z.eqb_spec d ROOT_DELETED) as [|_]; [done|].
  rewrite bind_run, (load_run A w) by done. rewrite bind_run.
  unfold note_call at 1. unfold unregister_when_visited.
  rewrite decide_True by done.
  set (stn := set_scanned (scanned st ++ [(A, w)]) st).
  destruct (caml_remove_generational_global_root_run A w stn)
    as (st' & Hrun & Hmut & Hmem & Hmx & Hiter & Hcls); [done|by left|].
  exists st'. split; [done|]. split_and!; try done.
  - unfold classify_gc_root in Hcls. rewrite Hb in Hcls. cbn in Hcls.
    unfold removal in Hcls.
    destruct (Z.ltb_spec 0 (iterating_roots stn)) as [_|Hle]; [|cbn in Hle; lia].
    destruct (Is_young w); by destruct Hcls.
  - unfold classify_gc_root in Hcls. rewrite Hb in Hcls. cbn in Hcls.
    unfold removal in Hcls.
    destruct (Z.ltb_spec 0 (iterating_roots stn)) as [_|Hle]; [|cbn in Hle; lia].
    destruct (Is_young w); destruct Hcls as [Hc1 Hc2].
    + by rewrite Hc2.
    + rewrite Hc1. apply tombstone_dom.
Qed.

End unregistering_action.

Section tombstone_promotion.
Context {AC : AddressClass}.

Lemma caml_iterate_global_roots_unregister_other A rootlist fdata st :
  deref rootlist st !! A = None →
  caml_iterate_global_roots (unregister_when_visited A) rootlist fdata st =
    caml_iterate_global_roots no_action rootlist fdata st.
Proof.
  intros HA. unfold caml_iterate_global_roots, FOREACH_SKIPLIST_ELEMENT.
  apply foreach_unregister_other.
  rewrite skiplist_cells_elem_of, HA. by intros [? [=]].
Qed.

Lemma foreach_relocating_lookup_ne (f : scanning_action)
    (rootlist : skiplist_ptr) (cells : list Z) (sk sk' : gmap Z Z) k :
  (∀ k, sk' !! k = if decide (k ∈ cells ∧ sk !! k = Some ROOT_DELETED)
                   then None else sk !! k) →
  k ∉ cells → sk' !! k = sk !! k.
Proof. intros Hl Hk. rewrite Hl. rewrite decide_False; [done|]. tauto. Qed.

(** The two walks of [caml_scan_global_young_roots] with the action that
    un-registers [A] when it visits it: [A], a live entry of the young list
    holding a block, is a deleted entry of the young list when the walks
    are over. *)
Lemma young_walks_leave_tombstone (A : Z) (w : value) (fdata : Z) (st : state) :
  quiescent st →
  roots_mapped st →
  caml_global_roots st !! A = None →
  caml_global_roots_young st !! A = Some ROOT_PRESENT →
  mem st !! A = Some w →
  Is_block w = true →
  ∃ stm,
    (caml_plat_lock_blocking;;
     incr_iterating_roots;;
     caml_iterate_global_roots (unregister_when_visited A) GLOBAL_ROOTS fdata;;
     caml_iterate_global_roots (unregister_when_visited A)
       GLOBAL_ROOTS_YOUNG fdata) st = Done tt stm ∧
    roots_mutex stm = true ∧
    iterating_roots stm = 1 ∧
    caml_global_roots_young stm !! A = Some ROOT_DELETED ∧
    caml_global_roots stm !! A = None ∧
    (∀ l k, is_Some (deref l stm !! k) → is_Some (deref l st !! k)) ∧
    same_blocks (mem st) (mem stm).
Proof.
  intros [Hmx Hit] Hmap Hmut Hy HA Hb.
  rewrite bind_run. unfold caml_plat_lock_blocking at 1. rewrite Hmx.
  rewrite bind_run. unfold incr_iterating_roots at 1.
  cbn [iterating_roots set_mutex].
  rewrite Hit. change (0 <? INT_MAX) with true. cbv iota.
  set (sta := set_iterating (0 + 1) (set_mutex true st)).
  (* the mutable roots: [A] is not among them *)
  rewrite bind_run, caml_iterate_global_roots_unregister_other by done.
  destruct (caml_iterate_global_roots_relocating no_action GLOBAL_ROOTS
              fdata sta no_action_relocating)
    as (stb & -> & Hmxb & Hitb & Hothb & Hlb & Hmemb & _).
  { intros k Hk. by apply (Hmap GLOBAL_ROOTS). }
  pose proof (Hothb GLOBAL_ROOTS_YOUNG ltac:(done)) as Hby.
  pose proof (Hothb GLOBAL_ROOTS_OLD ltac:(done)) as Hbo.
  cbn in Hby, Hbo, Hlb, Hmxb, Hitb, Hmemb.
  (* the young roots: the cells before [A], then [A], then the others *)
  unfold caml_iterate_global_roots, FOREACH_SKIPLIST_ELEMENT. cbn [deref].
  pose proof (skiplist_cells_NoDup (caml_global_roots_young stb)) as Hnd.
  assert (∀ k, k ∈ skiplist_cells (caml_global_roots_young stb) →
               is_Some (caml_global_roots_young st !! k) ∧
               is_Some (mem stb !! k)) as Hcells.
  { intros k Hk. apply skiplist_cells_elem_of in Hk. rewrite Hby in Hk.
    split; [done|]. eapply same_blocks_is_Some; [done|].
    by apply (Hmap GLOBAL_ROOTS_YOUNG). }
  assert (A ∈ skiplist_cells (caml_global_roots_young stb)) as HAin.
  { apply skiplist_cells_elem_of. rewrite Hby, Hy. eauto. }
  apply list_elem_of_split in HAin as (pre & post & Hsplit).
  rewrite Hsplit in Hnd, Hcells |- *.
  apply NoDup_app in Hnd as (Hndpre & Hdisj & Hndpost).
  apply NoDup_cons in Hndpost as [HApost Hndpost].
  assert (A ∉ pre) as HApre.
  { intros Hin. apply (Hdisj A Hin). by left. }
  rewrite foreach_app, bind_run, foreach_unregister_other by done.
  destruct (foreach_relocating no_action GLOBAL_ROOTS_YOUNG fdata pre
              no_action_relocating stb Hndpre)
    as (stp & -> & Hmxp & Hitp & Hothp & Hlp & Hmemp & _).
  { intros k Hk. destruct (Hcells k) as [Hk1 Hk2].
    - apply elem_of_app. by left.
    - cbn. by rewrite Hby. }
  pose proof (Hothp GLOBAL_ROOTS ltac:(done)) as Hpm.
  pose proof (Hothp GLOBAL_ROOTS_OLD ltac:(done)) as Hpo.
  cbn in Hpm, Hpo, Hlp.
  destruct (Hmemb A w HA) as (wb & HAb & Hbb).
  destruct (Hmemp A wb HAb) as (wp & HAp & Hbp).
  simpl foreach. rewrite bind_run.
  destruct (iterate_action_unregister_visited A fdata ROOT_PRESENT wp stp)
    as (stq & -> & Hmxq & Hitq & Hqm & Hqy & Hqo & Hqmem); try done.
  { rewrite Hitp, Hitb. done. }
  { rewrite (foreach_relocating_lookup_ne no_action GLOBAL_ROOTS_YOUNG pre
               (caml_global_roots_young stb)) by done.
    by rewrite Hby. }
  { congruence. }
  rewrite foreach_unregister_other by done.
  destruct (foreach_relocating no_action GLOBAL_ROOTS_YOUNG fdata post
              no_action_relocating stq Hndpost)
    as (stc & -> & Hmxc & Hitc & Hothc & Hlc & Hmemc & _).
  { intros k Hk. destruct (Hcells k) as [Hk1 Hk2].
    - apply elem_of_app. right. by right.
    - cbn. rewrite Hqy, Hqmem. split.
      + apply tombstone_is_Some.
        rewrite (foreach_relocating_lookup_ne no_action GLOBAL_ROOTS_YOUNG
                   pre (caml_global_roots_young stb)); [by rewrite Hby|done|].
        intros Hin. apply (Hdisj k Hin). by right.
      + by eapply same_blocks_is_Some. }
  pose proof (Hothc GLOBAL_ROOTS ltac:(done)) as Hcm.
  pose proof (Hothc GLOBAL_ROOTS_OLD ltac:(done)) as Hco.
  cbn in Hcm, Hco, Hlc.
  exists stc. split; [done|]. split_and!.
  - by rewrite Hmxc, Hmxq, Hmxp, Hmxb.
  - by rewrite Hitc, Hitq, Hitp, Hitb.
  - rewrite (foreach_relocating_lookup_ne no_action GLOBAL_ROOTS_YOUNG post
               (caml_global_roots_young stq)) by done.
    rewrite Hqy, tombstone_lookup, decide_True by done.
    rewrite (foreach_relocating_lookup_ne no_action GLOBAL_ROOTS_YOUNG pre
               (caml_global_roots_young stb)) by done.
    by rewrite Hby, Hy.
  - rewrite Hcm, Hqm, Hpm, Hlb, purge_lookup. cbn. rewrite Hmut.
    by rewrite decide_False.
  - intros l k Hk. destruct l; cbn in Hk |- *.
    + rewrite Hcm, Hqm, Hpm, Hlb in Hk. by apply purge_is_Some in Hk.
    + rewrite Hlc in Hk. case_decide; [by destruct Hk|].
      rewrite Hqy in Hk. apply tombstone_is_Some in Hk.
      rewrite Hlp in Hk. case_decide; [by destruct Hk|].
      by rewrite Hby in Hk.
    + rewrite Hco in Hk. apply elem_of_dom in Hk. rewrite Hqo in Hk.
      apply elem_of_dom in Hk. by rewrite Hpo, Hbo in Hk.
  - eapply same_blocks_trans; [exact Hmemb|].
    eapply same_blocks_trans; [exact Hmemp|]. by rewrite <- Hqmem.
Qed.

End tombstone_promotion.

Lemma bind_assoc_run {A B C} (c : M A) (k : A → M B) (k' : B → M C) st :
  ((c ≫= k) ≫= k') st = (c ≫= λ a, k a ≫= k') st.
Proof. rewrite !bind_run. by destruct (c st). Qed.

Section tombstone_promotion_claim.
Context {AC : AddressClass}.

Lemma caml_scan_global_young_roots_split f fdata st :
  caml_scan_global_young_roots f fdata st =
    ((caml_plat_lock_blocking;;
      incr_iterating_roots;;
      caml_iterate_global_roots f GLOBAL_ROOTS fdata;;
      caml_iterate_global_roots f GLOBAL_ROOTS_YOUNG fdata);;
     move_young_roots_to_old;;
     decr_iterating_roots;;
     caml_plat_unlock) st.
Proof.
  unfold caml_scan_global_young_roots.
  rewrite bind_assoc_run, !bind_run.
  destruct (caml_plat_lock_blocking st) as [[] st1|]; [|done].
  rewrite bind_assoc_run, !bind_run.
  destruct (incr_iterating_roots st1) as [[] st2|]; [|done].
  by rewrite bind_assoc_run.
Qed.

(** C10. The promotion loop of [caml_scan_global_young_roots] writes every
    entry that is left in the young list to the old list with data 0, that
    is [ROOT_PRESENT], whatever the data of the entry, [ROOT_DELETED]
    included, and empties the young list. Hence a root [A] that the
    scanning action un-registers when it visits it is a deleted entry of
    the young list when the promotion starts, and a present entry of the
    old list when the scan is over: a later [caml_scan_global_roots] calls
    its action on [A]. *)
Theorem tombstoned_young_entry_is_promoted (A : Z) (w : value)
    (g : scanning_action) (fdata gdata : Z) (st : state) :
  quiescent st →
  roots_mapped st →
  caml_global_roots st !! A = None →
  caml_global_roots_young st !! A = Some ROOT_PRESENT →
  mem st !! A = Some w →
  Is_block w = true →
  relocating g →
  (∀ st0 k d,
     caml_global_roots_young st0 !! k = Some d →
     ∃ st0', move_young_roots_to_old st0 = Done tt st0' ∧
             caml_global_roots_old st0' !! k = Some ROOT_PRESENT ∧
             caml_global_roots_young st0' = ∅) ∧
  ∃ stm st1,
    (caml_plat_lock_blocking;;
     incr_iterating_roots;;
     caml_iterate_global_roots (unregister_when_visited A) GLOBAL_ROOTS fdata;;
     caml_iterate_global_roots (unregister_when_visited A)
       GLOBAL_ROOTS_YOUNG fdata) st = Done tt stm ∧
    caml_global_roots_young stm !! A = Some ROOT_DELETED ∧
    caml_scan_global_young_roots (unregister_when_visited A) fdata st =
      Done tt st1 ∧
    caml_global_roots_young st1 = ∅ ∧
    caml_global_roots_old st1 !! A = Some ROOT_PRESENT ∧
    ∃ st2 new,
      caml_scan_global_roots g gdata st1 = Done tt st2 ∧
      scanned st2 = scanned st1 ++ new ∧
      times_scanned A new = 1%nat.
Proof.
  intros Hq Hmap Hmut Hy HA Hb Hg. split.
  { intros st0 k d Hk. rewrite move_young_roots_to_old_run.
    eexists. split; [done|]. cbn. split; [|done].
    apply lookup_union_Some_l. by eapply promoted_lookup. }
  destruct (young_walks_leave_tombstone A w fdata st)
    as (stm & Hwalks & Hmxm & Hitm & Hym & Hmm & Hsub & Hmemm); try done.
  set (st1 := set_mutex false (set_iterating (1 - 1)
                (assign GLOBAL_ROOTS_YOUNG ∅
                   (assign GLOBAL_ROOTS_OLD
                      (promoted (caml_global_roots_young stm) ∪
                       caml_global_roots_old stm) stm)))).
  assert (caml_scan_global_young_roots (unregister_when_visited A) fdata st =
            Done tt st1) as Hscan.
  { rewrite caml_scan_global_young_roots_split.
    rewrite bind_run, Hwalks.
    rewrite bind_run, move_young_roots_to_old_run.
    rewrite bind_run. unfold decr_iterating_roots at 1.
    cbn [iterating_roots assign]. rewrite Hitm.
    by change (INT_MIN <? 1) with true. }
  assert (caml_global_roots_old st1 !! A = Some ROOT_PRESENT) as HoA.
  { cbn. apply lookup_union_Some_l. by eapply promoted_lookup. }
  exists stm, st1. split_and!; [done..|].
  destruct (caml_scan_global_roots_relocating g gdata st1 Hg)
    as (st2 & Hrun2 & _ & _ & _ & _ & _ & new & Hsc & Hnew).
  { done. }
  { apply (roots_mapped_step st); [done| |done].
    intros l k Hk. destruct l; cbn in Hk.
    - exists GLOBAL_ROOTS. by apply (Hsub GLOBAL_ROOTS).
    - rewrite lookup_empty in Hk. by destruct Hk.
    - apply promoted_union_is_Some in Hk as [Hk|Hk].
      + exists GLOBAL_ROOTS_YOUNG. by apply (Hsub GLOBAL_ROOTS_YOUNG).
      + exists GLOBAL_ROOTS_OLD. by apply (Hsub GLOBAL_ROOTS_OLD). }
  exists st2, new. split_and!; [done..|].
  rewrite Hnew.
  rewrite (live_count_present (caml_global_roots_old st1) A ROOT_PRESENT)
    by done.
  rewrite (live_count_absent (caml_global_roots st1)) by done.
  by rewrite (live_count_absent (caml_global_roots_young st1)).
Qed.

End tombstone_promotion_claim.

(** ** The invariant of the young list *)

Section young_invariant.
Context {AC : AddressClass}.

Lemma classify_gc_root_YOUNG v :
  classify_gc_root v = YOUNG → Is_block v = true.
Proof. unfold classify_gc_root. by destruct (Is_block v). Qed.

Lemma classify_gc_root_OLD v :
  classify_gc_root v = OLD → Is_block v = true.
Proof. unfold classify_gc_root. by destruct (Is_block v). Qed.

Lemma classify_gc_root_UNTRACKED v :
  classify_gc_root v = UNTRACKED ↔ Is_block v = false.
Proof.
  unfold classify_gc_root. destruct (Is_block v); cbn; [|done].
  by destruct (Is_young v).
Qed.

Lemma walked_refl st : walked st st.
Proof. split_and!; [done|done|apply same_blocks_refl]. Qed.

Lemma walked_trans st1 st2 st3 :
  walked st1 st2 → walked st2 st3 → walked st1 st3.
Proof.
  intros (Hi1 & Hs1 & Hm1) (Hi2 & Hs2 & Hm2). split_and!.
  - congruence.
  - eauto.
  - by eapply same_blocks_trans.
Qed.

Lemma walked_young_roots_hold_blocks st st' :
  walked st st' → young_roots_hold_blocks st → young_roots_hold_blocks st'.
Proof.
  intros (_ & Hsub & Hmem) HY r d Hr.
  destruct (Hsub GLOBAL_ROOTS_YOUNG r) as [d0 Hd0]; [by eexists|].
  destruct (HY r d0 Hd0) as (v & Hv & Hb).
  destruct (Hmem r v Hv) as (v' & Hv' & Hb'). exists v'. split; [done|].
  congruence.
Qed.

Lemma iterate_action_walked f rootlist fdata e st st' :
  relocating f →
  iterate_action f rootlist fdata e st = Done tt st' → walked st st'.
Proof.
  intros Hf. unfold iterate_action, cell_data. rewrite bind_run.
  destruct (deref rootlist st !! e) as [d|] eqn:Hd; [|done].
  destruct (d =? ROOT_DELETED).
  - intros [= <-]. split_and!.
    + apply assign_iterating_roots.
    + intros l k. destruct (decide (l = rootlist)) as [->|Hne].
      * rewrite assign_deref_same, lookup_delete_is_Some. tauto.
      * by rewrite assign_deref_other.
    + rewrite assign_mem. apply same_blocks_refl.
  - rewrite bind_run. unfold load.
    destruct (mem st !! e) as [w|] eqn:Hw; [|done].
    rewrite bind_run. unfold note_call at 1.
    destruct (Hf fdata w e (set_scanned (scanned st ++ [(e, w)]) st) Hw)
      as (m' & -> & Hm').
    intros [= <-]. by split_and!.
Qed.

Lemma caml_iterate_global_roots_walked f rootlist fdata st st' :
  relocating f →
  caml_iterate_global_roots f rootlist fdata st = Done tt st' → walked st st'.
Proof.
  intros Hf. unfold caml_iterate_global_roots, FOREACH_SKIPLIST_ELEMENT.
  apply (foreach_preserves (walked st)); [|apply walked_refl].
  intros e st1 st2 Hw Hrun. eapply walked_trans; [done|].
  by eapply iterate_action_walked.
Qed.

End young_invariant.

Section young_invariant_calls.
Context {AC : AddressClass}.

Lemma caml_scan_global_roots_walked f fdata st st' :
  relocating f → quiescent st →
  caml_scan_global_roots f fdata st = Done tt st' →
  quiescent st' ∧
  (∀ l k, is_Some (deref l st' !! k) → is_Some (deref l st !! k)) ∧
  same_blocks (mem st) (mem st').
Proof.
  intros Hf [Hmx Hit]. unfold caml_scan_global_roots.
  rewrite bind_run. unfold caml_plat_lock_blocking at 1. rewrite Hmx.
  rewrite bind_run. unfold incr_iterating_roots at 1.
  cbn [iterating_roots set_mutex].
  rewrite Hit. change (0 <? INT_MAX) with true. cbv iota.
  set (sta := set_iterating (0 + 1) (set_mutex true st)).
  rewrite bind_run.
  destruct (caml_iterate_global_roots f GLOBAL_ROOTS fdata sta)
    as [[] stb|] eqn:Hb; [|done].
  apply caml_iterate_global_roots_walked in Hb; [|done].
  rewrite bind_run.
  destruct (caml_iterate_global_roots f GLOBAL_ROOTS_YOUNG fdata stb)
    as [[] stc|] eqn:Hc; [|done].
  apply caml_iterate_global_roots_walked in Hc; [|done].
  rewrite bind_run.
  destruct (caml_iterate_global_roots f GLOBAL_ROOTS_OLD fdata stc)
    as [[] std|] eqn:Hd; [|done].
  apply caml_iterate_global_roots_walked in Hd; [|done].
  destruct (walked_trans _ _ _ Hb (walked_trans _ _ _ Hc Hd))
    as (Hi & Hsub & Hmem).
  rewrite bind_run. unfold decr_iterating_roots at 1. rewrite Hi.
  cbn [iterating_roots sta set_iterating].
  change (INT_MIN <? 0 + 1) with true. cbv iota.
  intros [= <-]. by split_and!.
Qed.

Lemma caml_scan_global_young_roots_walked f fdata st st' :
  relocating f → quiescent st →
  caml_scan_global_young_roots f fdata st = Done tt st' →
  quiescent st' ∧
  caml_global_roots_young st' = ∅ ∧
  same_blocks (mem st) (mem st').
Proof.
  intros Hf [Hmx Hit]. unfold caml_scan_global_young_roots.
  rewrite bind_run. unfold caml_plat_lock_blocking at 1. rewrite Hmx.
  rewrite bind_run. unfold incr_iterating_roots at 1.
  cbn [iterating_roots set_mutex].
  rewrite Hit. change (0 <? INT_MAX) with true. cbv iota.
  set (sta := set_iterating (0 + 1) (set_mutex true st)).
  rewrite bind_run.
  destruct (caml_iterate_global_roots f GLOBAL_ROOTS fdata sta)
    as [[] stb|] eqn:Hb; [|done].
  apply caml_iterate_global_roots_walked in Hb; [|done].
  rewrite bind_run.
  destruct (caml_iterate_global_roots f GLOBAL_ROOTS_YOUNG fdata stb)
    as [[] stc|] eqn:Hc; [|done].
  apply caml_iterate_global_roots_walked in Hc; [|done].
  destruct (walked_trans _ _ _ Hb Hc) as (Hi & Hsub & Hmem).
  rewrite bind_run, move_young_roots_to_old_run.
  rewrite bind_run. unfold decr_iterating_roots at 1.
  cbn [iterating_roots assign]. rewrite Hi.
  cbn [iterating_roots sta set_iterating].
  change (INT_MIN <? 0 + 1) with true. cbv iota.
  by intros [= <-].
Qed.

Lemma young_roots_hold_blocks_store st r v :
  (∀ k d, caml_global_roots_young st !! k = Some d → k ≠ r →
          ∃ w, mem st !! k = Some w ∧ Is_block w = true) →
  (is_Some (caml_global_roots_young st !! r) → Is_block v = true) →
  young_roots_hold_blocks (set_mem (<[r := v]> (mem st)) st).
Proof.
  intros Hother Hr k d Hk. cbn in Hk |- *.
  destruct (decide (k = r)) as [->|Hne].
  - exists v. rewrite lookup_insert_eq. split; [done|]. apply Hr. by eexists.
  - rewrite lookup_insert_ne by done. by eapply Hother.
Qed.

Lemma caml_modify_generational_global_root_invariant r newval st st' :
  quiescent st → young_roots_hold_blocks st →
  caml_modify_generational_global_root r newval st = Done tt st' →
  quiescent st' ∧ young_roots_hold_blocks st'.
Proof.
  intros [Hmx Hit] HY. unfold caml_modify_generational_global_root.
  rewrite bind_run.
  destruct (mem st !! r) as [w|] eqn:Hw; cycle 1.
  { unfold caml_remove_generational_global_root.
    destruct (classify_gc_root newval);
      rewrite bind_run; unfold load; by rewrite Hw. }
  destruct (classify_gc_root newval) eqn:Hnew.
  - (* the new value is young *)
    rewrite bind_run, (load_run r w) by done. rewrite bind_run.
    assert (Is_block newval = true) as Hb by by apply classify_gc_root_YOUNG.
    destruct (classify_gc_root w) eqn:Hcw.
    + rewrite decide_False by done.
      rewrite decide_False by (intros Hn; by apply Hn). cbn.
      erewrite store_run by done. intros [= <-]. split; [done|].
      apply young_roots_hold_blocks_store; [|done]. intros k d Hk _. eauto.
    + rewrite decide_True by done. rewrite decide_True by done.
      rewrite caml_delete_global_root_unlocked by (first [lia | done]).
      rewrite caml_insert_global_root_run by done.
      erewrite store_run by done. intros [= <-]. split; [done|].
      apply (young_roots_hold_blocks_store
               (assign GLOBAL_ROOTS_YOUNG _ (assign GLOBAL_ROOTS_OLD _ st)));
        [|done]. cbn.
      intros k d Hk Hne. rewrite lookup_insert_ne in Hk by done. eauto.
    + rewrite decide_False by done. rewrite decide_True by done. cbn.
      rewrite caml_insert_global_root_run by done.
      erewrite store_run by done. intros [= <-]. split; [done|].
      apply (young_roots_hold_blocks_store (assign GLOBAL_ROOTS_YOUNG _ st));
        [|done]. cbn.
      intros k d Hk Hne. rewrite lookup_insert_ne in Hk by done. eauto.
  - (* the new value is old *)
    rewrite bind_run, (load_run r w) by done.
    assert (Is_block newval = true) as Hb by by apply classify_gc_root_OLD.
    destruct (decide (classify_gc_root w = UNTRACKED)).
    + rewrite caml_insert_global_root_run by done.
      erewrite store_run by done. intros [= <-]. split; [done|].
      apply (young_roots_hold_blocks_store (assign GLOBAL_ROOTS_OLD _ st));
        [|done]. cbn. eauto.
    + cbn. erewrite store_run by done. intros [= <-]. split; [done|].
      apply young_roots_hold_blocks_store; [|done]. eauto.
  - (* the new value is not tracked *)
    destruct (caml_remove_generational_global_root_run r w st)
      as (st1 & -> & Hm1 & Hmem1 & Hmx1 & Hit1 & Hcls); [done|by right|].
    erewrite store_run by (by rewrite Hmem1).
    intros [= <-]. split; [split; cbn; congruence|].
    apply (young_roots_hold_blocks_store st1).
    + intros k d Hk Hne. rewrite Hmem1. unfold removal in Hcls.
      destruct (Z.ltb_spec 0 (iterating_roots st)); [lia|].
      destruct (classify_gc_root w).
      * destruct Hcls as [Hy _]. rewrite Hy, lookup_delete_ne in Hk by done.
        eauto.
      * destruct Hcls as [_ Hy]. rewrite Hy, lookup_delete_ne in Hk by done.
        eauto.
      * subst st1. eauto.
    + intros [d Hk]. exfalso. unfold removal in Hcls.
      destruct (Z.ltb_spec 0 (iterating_roots st)); [lia|].
      destruct (classify_gc_root w) eqn:Hcw.
      * destruct Hcls as [Hy _]. by rewrite Hy, lookup_delete_eq in Hk.
      * destruct Hcls as [_ Hy]. by rewrite Hy, lookup_delete_eq in Hk.
      * subst st1. destruct (HY r d Hk) as (w' & Hw' & Hb').
        apply classify_gc_root_UNTRACKED in Hcw. congruence.
Qed.

End young_invariant_calls.

Section young_invariant_claim.
Context {AC : AddressClass}.

Lemma run_call_invariant c st st' :
  call_relocating c →
  quiescent st → young_roots_hold_blocks st →
  run_call c st = Done tt st' →
  quiescent st' ∧ young_roots_hold_blocks st'.
Proof.
  intros Hc Hq HY. pose proof Hq as [Hmx Hit].
  destruct c as [r|r|r|r|r newval|f fdata|f fdata]; cbn [run_call].
  - unfold caml_register_global_root.
    rewrite caml_insert_global_root_run by done. by intros [= <-].
  - unfold caml_remove_global_root.
    rewrite caml_delete_global_root_unlocked by (first [lia | done]).
    by intros [= <-].
  - unfold caml_register_generational_global_root. rewrite bind_run.
    unfold load. destruct (mem st !! r) as [w|] eqn:Hw; [|done].
    destruct (classify_gc_root w) eqn:Hcw.
    + rewrite caml_insert_global_root_run by done. intros [= <-].
      split; [done|]. intros k d Hk. cbn in Hk |- *.
      apply lookup_insert_Some in Hk as [[<- _]|[_ Hk]]; [|by eauto].
      exists w. split; [done|]. by apply classify_gc_root_YOUNG.
    + rewrite caml_insert_global_root_run by done. by intros [= <-].
    + by intros [= <-].
  - destruct (mem st !! r) as [w|] eqn:Hw; cycle 1.
    { unfold caml_remove_generational_global_root. rewrite bind_run.
      unfold load. by rewrite Hw. }
    destruct (caml_remove_generational_global_root_run r w st)
      as (st1 & -> & Hm1 & Hmem1 & Hmx1 & Hit1 & Hcls); [done|by right|].
    intros [= <-]. split; [split; congruence|].
    intros k d Hk. rewrite Hmem1. unfold removal in Hcls.
    destruct (Z.ltb_spec 0 (iterating_roots st)); [lia|].
    destruct (classify_gc_root w).
    + destruct Hcls as [Hy _]. rewrite Hy in Hk.
      apply lookup_delete_Some in Hk as [_ Hk]. eauto.
    + destruct Hcls as [_ Hy]. rewrite Hy in Hk.
      apply lookup_delete_Some in Hk as [_ Hk]. eauto.
    + subst st1. eauto.
  - by apply caml_modify_generational_global_root_invariant.
  - intros Hrun.
    destruct (caml_scan_global_roots_walked f fdata st st' Hc Hq Hrun)
      as (Hq' & Hsub & Hmem).
    split; [done|].
    apply (walked_young_roots_hold_blocks st); [|done].
    destruct Hq as [_ Hi]. destruct Hq' as [_ Hi'].
    split_and!; [congruence|done..].
  - intros Hrun.
    destruct (caml_scan_global_young_roots_walked f fdata st st' Hc Hq Hrun)
      as (Hq' & Hy & Hmem).
    split; [done|]. intros k d Hk. by rewrite Hy, lookup_empty in Hk.
Qed.

(** C1, as the code has it: an invariant of the states between calls. The
    calls are registrations, removals, modifications, and scans whose action
    only relocates; they start from a state where no scan is under way, the
    mutex is free and every root of the young list holds a block, and each
    of them returns. Then, when the last call has returned, the mutex is
    free and every root of the young list is allocated and holds a block: a
    pointer, never an integer. The pointer need not lead into the young
    generation, nor into the heap. *)
Theorem young_roots_always_hold_blocks (cs : list call) (st st' : state) :
  quiescent st →
  young_roots_hold_blocks st →
  Forall call_relocating cs →
  run_calls cs st = Done tt st' →
  roots_mutex st' = false ∧ young_roots_hold_blocks st'.
Proof.
  intros Hq HY Hcs Hrun.
  cut (quiescent st' ∧ young_roots_hold_blocks st').
  { by intros [[? _] ?]. }
  revert st Hq HY Hrun.
  induction Hcs as [|c cs Hc Hcs IH]; intros st Hq HY; cbn [run_calls].
  - by intros [= <-].
  - rewrite bind_run.
    destruct (run_call c st) as [[] st1|] eqn:Hc1; [|done].
    destruct (run_call_invariant c st st1 Hc Hq HY Hc1) as [Hq1 HY1].
    by apply IH.
Qed.

End young_invariant_claim.

(** ** What the code does where the spec says otherwise *)

(** [caml_modify_generational_global_root] is its [switch] statement
    followed by the store. *)
Lemma caml_modify_generational_global_root_split {AC : AddressClass}
    (r : Z) (newval : value) (st : state) :
  caml_modify_generational_global_root r newval st =
    (caml_modify_generational_global_root_switch r newval;;
     store r newval) st.
Proof. reflexivity. Qed.

(** C1 fails on the code, in three ways.

    After a young root is set to a pointer into the major heap the mutex is
    free, and the root is still in the young list although it does not hold
    a pointer into the young generation.

    The mutex is also free inside a call: when the root 32, which holds the
    integer 3 and is not registered, is set to a young pointer, the [switch]
    statement of [caml_modify_generational_global_root] inserts it into the
    young list and releases the mutex, and the store of the new value is
    still to come; at that point a root of the young list holds an integer.

    And the pointer that a root of the young list holds need not lead into
    the heap: the young root 16 is set to the address 1048576 of a block of
    static data, which is a block and is not young, and stays in the young
    list. *)
Lemma young_root_holding_old_pointer :
  (∃ st',
     run_calls (AC := sample_class)
       [Register_generational_global_root 16;
        Modify_generational_global_root 16 12288] sample_state = Done tt st' ∧
     roots_mutex st' = false ∧
     ¬ young_roots_hold_young (AC := sample_class) st') ∧
  (∃ st1,
     caml_modify_generational_global_root_switch (AC := sample_class)
       32 4104 sample_state = Done tt st1 ∧
     caml_modify_generational_global_root (AC := sample_class)
       32 4104 sample_state = store 32 4104 st1 ∧
     roots_mutex st1 = false ∧
     caml_global_roots_young st1 !! 32 = Some ROOT_PRESENT ∧
     mem st1 !! 32 = Some 7 ∧
     Is_block (AddressClass := sample_class) 7 = false ∧
     ¬ young_roots_hold_young (AC := sample_class) st1 ∧
     ¬ young_roots_hold_blocks (AC := sample_class) st1) ∧
  (∃ st2,
     run_calls (AC := sample_class)
       [Register_generational_global_root 16;
        Modify_generational_global_root 16 1048576] sample_state
       = Done tt st2 ∧
     roots_mutex st2 = false ∧
     caml_global_roots_young st2 !! 16 = Some ROOT_PRESENT ∧
     mem st2 !! 16 = Some 1048576 ∧
     Is_block (AddressClass := sample_class) 1048576 = true ∧
     Is_young (AddressClass := sample_class) 1048576 = false ∧
     ¬ young_roots_hold_young (AC := sample_class) st2).
Proof.
  split_and!.
  - eexists. split; [vm_compute; reflexivity|]. split; [done|].
    intros HY. destruct (HY 16 ROOT_PRESENT) as (v & Hv & Hc).
    + vm_compute. reflexivity.
    + vm_compute in Hv. injection Hv as <-. vm_compute in Hc. discriminate.
  - eexists. split; [vm_compute; reflexivity|].
    split; [rewrite caml_modify_generational_global_root_split;
            vm_compute; reflexivity|].
    split; [reflexivity|]. split; [vm_compute; reflexivity|].
    split; [vm_compute; reflexivity|]. split; [reflexivity|]. split.
    + intros HY. destruct (HY 32 ROOT_PRESENT) as (v & Hv & Hc).
      * vm_compute. reflexivity.
      * vm_compute in Hv. injection Hv as <-. vm_compute in Hc. discriminate.
    + intros HY. destruct (HY 32 ROOT_PRESENT) as (v & Hv & Hc).
      * vm_compute. reflexivity.
      * vm_compute in Hv. injection Hv as <-. vm_compute in Hc. discriminate.
  - eexists. split; [vm_compute; reflexivity|]. split; [reflexivity|].
    split; [vm_compute; reflexivity|]. split; [vm_compute; reflexivity|].
    split; [reflexivity|]. split; [reflexivity|].
    intros HY. destruct (HY 16 ROOT_PRESENT) as (v & Hv & Hc).
    + vm_compute. reflexivity.
    + vm_compute in Hv. injection Hv as <-. vm_compute in Hc. discriminate.
Qed.

(** C2 fails on the code: the root 16 is registered while it holds a pointer
    into the young generation and is set to a pointer into the major heap;
    it is not absent from the young list, and it is not in the old list. *)
Lemma young_root_set_to_old_not_moved :
  classify_gc_root (AC := sample_class) 4104 = YOUNG ∧
  classify_gc_root (AC := sample_class) 12288 = OLD ∧
  ∃ st',
    (caml_register_generational_global_root (AC := sample_class) 16;;
     caml_modify_generational_global_root (AC := sample_class) 16 12288)
      sample_state = Done tt st' ∧
    ¬ (caml_global_roots_young st' !! 16 = None ∧
       is_Some (caml_global_roots_old st' !! 16)).
Proof.
  split; [done|]. split; [done|].
  eexists. split; [vm_compute; reflexivity|].
  intros [Hy _]. vm_compute in Hy. discriminate.
Qed.

(** C4, at the failing input. The root 48 holds 1048576, the address of a
    block outside the heap: it is a block ([Is_block]) and it is not young,
    and there is no other test in [classify_gc_root], so that its class is
    [OLD] and its registration inserts it into the old list. *)
Theorem out_of_heap_pointer_enters_old_list :
  sample_mem !! 48 = Some 1048576 ∧
  classify_gc_root (AC := sample_class) 1048576 = OLD ∧
  ∃ st',
    caml_register_generational_global_root (AC := sample_class) 48
      sample_state = Done tt st' ∧
    caml_global_roots_old st' !! 48 = Some ROOT_PRESENT.
Proof.
  split; [done|]. split; [done|].
  eexists. split; vm_compute; reflexivity.
Qed.

(** ** The theorems at sample states *)

Lemma tagged_block_shift (v k : Z) : Z.land (v + 2 * k) 1 = Z.land v 1.
Proof.
  change 1 with (Z.ones 1). rewrite !Z.land_ones by lia.
  rewrite (Z.mul_comm 2 k). apply Z_mod_plus_full.
Qed.

(** With tagged integers, moving a young block by an even number of bytes
    is a relocating action. *)
Lemma oldify_action_relocating (lo hi k : Z) :
  relocating (AC := tagged_address_class lo hi)
    (oldify_action (AC := tagged_address_class lo hi) (2 * k)).
Proof.
  intros fdata v r st Hr. unfold oldify_action.
  destruct (Is_young v).
  - exists (<[r := v + 2 * k]> (mem st)). split; [by erewrite store_run|].
    intros a w Ha. destruct (decide (a = r)) as [->|Hne].
    + exists (v + 2 * k). rewrite lookup_insert_eq. split; [done|].
      assert (w = v) as -> by congruence. cbn. by rewrite tagged_block_shift.
    + exists w. by rewrite lookup_insert_ne.
  - exists (mem st). split; [by destruct st|]. intros a w Ha. eauto.
Qed.

Lemma registered_state_mapped : roots_mapped registered_state.
Proof.
  intros list k [d Hk].
  destruct list; cbn in Hk; apply lookup_singleton_Some in Hk as [<- _];
    vm_compute; eauto.
Qed.

Lemma removal_protocol_witness :
  caml_delete_global_root GLOBAL_ROOTS_YOUNG 16 scanning_state =
    Done tt (assign GLOBAL_ROOTS_YOUNG {[ 16 := ROOT_DELETED ]} scanning_state) ∧
  caml_delete_global_root GLOBAL_ROOTS_YOUNG 16 registered_state =
    Done tt (assign GLOBAL_ROOTS_YOUNG ∅ registered_state) ∧
  caml_delete_global_root GLOBAL_ROOTS_OLD 16 scanning_state =
    Done tt scanning_state ∧
  caml_delete_global_root GLOBAL_ROOTS_OLD 16 registered_state =
    Done tt registered_state.
Proof.
  split_and!.
  - destruct (removal_protocol GLOBAL_ROOTS_YOUNG 16 scanning_state)
      as (Hscan & _ & _).
    destruct Hscan as (-> & _); [cbn; lia|]. vm_compute. reflexivity.
  - destruct (removal_protocol GLOBAL_ROOTS_YOUNG 16 registered_state)
      as (_ & Hfree & _).
    destruct Hfree as (_ & _ & Hrun); [cbn; lia|].
    destruct Hrun as (-> & _); [reflexivity|]. vm_compute. reflexivity.
  - destruct (removal_protocol GLOBAL_ROOTS_OLD 16 scanning_state)
      as (_ & _ & Habsent).
    apply Habsent; [vm_compute; reflexivity|left; cbn; lia].
  - destruct (removal_protocol GLOBAL_ROOTS_OLD 16 registered_state)
      as (_ & _ & Habsent).
    apply Habsent; [vm_compute; reflexivity|right; reflexivity].
Defined.

Lemma remove_generational_by_class_witness :
  mem registered_state !! 24 = Some 12288 ∧
  ∃ st',
    caml_remove_generational_global_root (AC := sample_class) 24
      registered_state = Done tt st' ∧
    caml_global_roots st' = caml_global_roots registered_state ∧
    mem st' = mem registered_state ∧
    roots_mutex st' = roots_mutex registered_state ∧
    iterating_roots st' = iterating_roots registered_state ∧
    caml_global_roots_old st' =
      removal registered_state 24 (caml_global_roots_old registered_state) ∧
    caml_global_roots_young st' =
      removal registered_state 24 (caml_global_roots_young registered_state).
Proof.
  split; [vm_compute; reflexivity|].
  apply (remove_generational_by_class (AC := sample_class) 24 12288
           registered_state).
  - vm_compute. reflexivity.
  - right. reflexivity.
Defined.

Lemma modify_to_old_is_assignment_witness :
  mem registered_state !! 16 = Some 4104 ∧
  caml_modify_generational_global_root (AC := sample_class) 16 12288
    registered_state =
    Done tt (set_mem (<[16 := 12288]> (mem registered_state)) registered_state).
Proof.
  split; [vm_compute; reflexivity|].
  apply (modify_to_old_is_assignment (AC := sample_class) 16 12288 4104).
  - vm_compute. reflexivity.
  - vm_compute. reflexivity.
  - vm_compute. discriminate.
Defined.

Lemma young_root_set_to_old_stays_young_witness :
  ∃ st',
    (caml_register_generational_global_root (AC := sample_class) 16;;
     caml_modify_generational_global_root (AC := sample_class) 16 12288)
      sample_state = Done tt st' ∧
    caml_global_roots_young st' !! 16 = Some ROOT_PRESENT ∧
    caml_global_roots_old st' = caml_global_roots_old sample_state ∧
    mem st' !! 16 = Some 12288.
Proof.
  apply (young_root_set_to_old_stays_young (AC := sample_class) 16 4104 12288).
  - vm_compute. reflexivity.
  - vm_compute. reflexivity.
  - vm_compute. reflexivity.
  - reflexivity.
Defined.

Lemma register_unregister_round_trip_witness :
  ∃ st',
    (caml_register_generational_global_root (AC := sample_class) 16;;
     caml_remove_generational_global_root (AC := sample_class) 16)
      sample_state = Done tt st' ∧
    size (caml_global_roots_young st') =
      size (caml_global_roots_young sample_state) ∧
    size (caml_global_roots_old st') =
      size (caml_global_roots_old sample_state) ∧
    st' = sample_state.
Proof.
  apply (register_unregister_round_trip (AC := sample_class) 16 4104).
  - split; reflexivity.
  - vm_compute. reflexivity.
  - vm_compute. reflexivity.
  - vm_compute. reflexivity.
Defined.

Lemma set_to_integer_untracks_witness :
  ∃ st',
    (caml_register_generational_global_root (AC := sample_class) 16;;
     caml_modify_generational_global_root (AC := sample_class) 16 7)
      sample_state = Done tt st' ∧
    caml_global_roots_young st' !! 16 = None ∧
    caml_global_roots_old st' !! 16 = None ∧
    mem st' !! 16 = Some 7 ∧
    caml_remove_generational_global_root (AC := sample_class) 16 st' =
      Done tt st'.
Proof.
  apply (set_to_integer_untracks (AC := sample_class) 16 4104 7).
  - split; reflexivity.
  - vm_compute. reflexivity.
  - vm_compute. reflexivity.
  - vm_compute. reflexivity.
  - vm_compute. reflexivity.
Defined.

Lemma other_roots_state_mapped : roots_mapped other_roots_state.
Proof.
  intros list k [d Hk]. destruct list; cbn in Hk.
  - apply lookup_singleton_Some in Hk as [<- _]. vm_compute. eauto.
  - by rewrite lookup_empty in Hk.
  - apply lookup_singleton_Some in Hk as [<- _]. vm_compute. eauto.
Qed.

Lemma promotion_of_young_root_witness :
  ∃ st1,
    (caml_register_generational_global_root (AC := sample_class) 16;;
     caml_scan_global_young_roots
       (oldify_action (AC := sample_class) 8192) 0)
      other_roots_state = Done tt st1 ∧
    caml_global_roots_young st1 = ∅ ∧
    caml_global_roots_young st1 !! 16 = None ∧
    caml_global_roots_old st1 !! 16 = Some ROOT_PRESENT ∧
    ∃ st2 new,
      caml_scan_global_roots no_action 0 st1 = Done tt st2 ∧
      scanned st2 = scanned st1 ++ new ∧
      times_scanned 16 new = 1%nat.
Proof.
  apply (promotion_of_young_root (AC := sample_class) 16 4104).
  - split; reflexivity.
  - exact other_roots_state_mapped.
  - vm_compute. reflexivity.
  - vm_compute. reflexivity.
  - vm_compute. reflexivity.
  - exact (oldify_action_relocating 4096 8192 4096).
  - exact (no_action_relocating (AC := sample_class)).
Defined.

Lemma tombstoned_young_entry_is_promoted_witness :
  ∃ stm st1,
    (caml_plat_lock_blocking;;
     incr_iterating_roots;;
     caml_iterate_global_roots
       (unregister_when_visited (AC := sample_class) 16) GLOBAL_ROOTS 0;;
     caml_iterate_global_roots
       (unregister_when_visited (AC := sample_class) 16)
       GLOBAL_ROOTS_YOUNG 0) registered_state = Done tt stm ∧
    caml_global_roots_young stm !! 16 = Some ROOT_DELETED ∧
    caml_scan_global_young_roots
      (unregister_when_visited (AC := sample_class) 16) 0 registered_state =
      Done tt st1 ∧
    caml_global_roots_young st1 = ∅ ∧
    caml_global_roots_old st1 !! 16 = Some ROOT_PRESENT ∧
    ∃ st2 new,
      caml_scan_global_roots no_action 0 st1 = Done tt st2 ∧
      scanned st2 = scanned st1 ++ new ∧
      times_scanned 16 new = 1%nat.
Proof.
  refine (proj2 (tombstoned_young_entry_is_promoted (AC := sample_class)
                   16 4104 no_action 0 0 registered_state _ _ _ _ _ _ _)).
  - split; reflexivity.
  - exact registered_state_mapped.
  - vm_compute. reflexivity.
  - vm_compute. reflexivity.
  - vm_compute. reflexivity.
  - vm_compute. reflexivity.
  - exact (no_action_relocating (AC := sample_class)).
Defined.

Lemma young_roots_always_hold_blocks_witness :
  ∃ st',
    run_calls (AC := sample_class) sample_calls sample_state = Done tt st' ∧
    roots_mutex st' = false ∧
    young_roots_hold_blocks (AC := sample_class) st'.
Proof.
  eexists. split; [vm_compute; reflexivity|].
  apply (young_roots_always_hold_blocks (AC := sample_class)
           sample_calls sample_state).
  - split; reflexivity.
  - intros r d Hr. cbn in Hr. by rewrite lookup_empty in Hr.
  - unfold sample_calls.
    repeat first [apply Forall_nil_2 | apply Forall_cons_2];
      cbn [call_relocating]; try exact I.
    + exact (no_action_relocating (AC := sample_class)).
    + exact (oldify_action_relocating 4096 8192 4096).
  - vm_compute. reflexivity.
Defined.

(** ** Further properties of the registration functions *)

(** X1. Mutable roots, round trip. With no scan under way, registering a
    root that is not in the list of mutable roots makes it a present entry
    of that list and changes nothing else, whether or not the root is
    allocated (its value is not read); removing it again gives back the
    state before the registration. *)
Theorem mutable_root_round_trip (r : Z) (st : state) :
  quiescent st →
  caml_global_roots st !! r = None →
  ∃ st1,
    caml_register_global_root r st = Done tt st1 ∧
    caml_global_roots st1 !! r = Some ROOT_PRESENT ∧
    caml_global_roots_young st1 = caml_global_roots_young st ∧
    caml_global_roots_old st1 = caml_global_roots_old st ∧
    mem st1 = mem st ∧
    quiescent st1 ∧
    caml_remove_global_root r st1 = Done tt st.
Proof.
  intros [Hmx Hit] Hr. unfold caml_register_global_root.
  rewrite caml_insert_global_root_run by done.
  eexists. split; [done|]. cbn. rewrite lookup_insert_eq.
  split_and!; try done.
  unfold caml_remove_global_root.
  rewrite caml_delete_global_root_unlocked by (cbn; first [lia | done]).
  cbn. rewrite delete_insert_id by done. by destruct st.
Qed.

Section more_modifications.
Context {AC : AddressClass}.

(** X2. A root that holds a young value and is set to a young value: the
    lists are not touched and no mutex is taken, so that the call is an
    assignment, also in the course of a scan. *)
Theorem modify_young_to_young_is_assignment (r : Z) (newval w : value)
    (st : state) :
  mem st !! r = Some w →
  classify_gc_root newval = YOUNG →
  classify_gc_root w = YOUNG →
  caml_modify_generational_global_root r newval st =
    Done tt (set_mem (<[r := newval]> (mem st)) st).
Proof.
  intros Hr Hnew Hold. unfold caml_modify_generational_global_root.
  rewrite Hnew, !bind_run, (load_run r w) by done. rewrite Hold.
  rewrite (decide_False (P := YOUNG = OLD)) by done.
  rewrite (decide_False (P := YOUNG ≠ YOUNG)) by (intros Hn; by apply Hn).
  unfold mbind, M_bind, mret, M_ret. by erewrite store_run.
Qed.

(** X3. A root that does not hold a young value and is set to a young
    value, with no scan under way: it becomes a present entry of the young
    list, it leaves the old list if its value was old, it holds the new
    value, and no other entry and no other word changes. *)
Theorem modify_to_young_moves_root (r : Z) (newval w : value) (st : state) :
  quiescent st →
  mem st !! r = Some w →
  classify_gc_root newval = YOUNG →
  classify_gc_root w ≠ YOUNG →
  ∃ st',
    caml_modify_generational_global_root r newval st = Done tt st' ∧
    caml_global_roots_young st' =
      <[r := ROOT_PRESENT]> (caml_global_roots_young st) ∧
    caml_global_roots_old st' =
      (if decide (classify_gc_root w = OLD)
       then delete r (caml_global_roots_old st)
       else caml_global_roots_old st) ∧
    mem st' = <[r := newval]> (mem st) ∧
    caml_global_roots st' = caml_global_roots st ∧
    quiescent st'.
Proof.
  intros [Hmx Hit] Hr Hnew Hold. unfold caml_modify_generational_global_root.
  rewrite Hnew, !bind_run, (load_run r w) by done.
  rewrite (decide_True (P := classify_gc_root w ≠ YOUNG)) by done.
  destruct (decide (classify_gc_root w = OLD)) as [Ho|Ho].
  - rewrite bind_run.
    rewrite caml_delete_global_root_unlocked by (first [lia | done]).
    rewrite caml_insert_global_root_run by done.
    erewrite store_run by done. eexists. by split_and!.
  - rewrite bind_run. unfold mret, M_ret at 1.
    rewrite caml_insert_global_root_run by done.
    erewrite store_run by done. eexists. by split_and!.
Qed.

(** X4. A root that holds an integer and is set to a pointer into the major
    heap, with the mutex free: it becomes a present entry of the old list
    and holds the new value; the young list is unchanged. *)
Theorem modify_untracked_to_old_registers (r : Z) (newval w : value)
    (st : state) :
  roots_mutex st = false →
  mem st !! r = Some w →
  classify_gc_root newval = OLD →
  classify_gc_root w = UNTRACKED →
  caml_modify_generational_global_root r newval st =
    Done tt (set_mem (<[r := newval]> (mem st))
               (assign GLOBAL_ROOTS_OLD
                  (<[r := ROOT_PRESENT]> (caml_global_roots_old st)) st)).
Proof.
  intros Hmx Hr Hnew Hold. unfold caml_modify_generational_global_root.
  rewrite Hnew, !bind_run, (load_run r w) by done.
  rewrite decide_True by done.
  rewrite caml_insert_global_root_run by done.
  by erewrite store_run.
Qed.

(** X5. Insertions wait for the mutex. While the mutex is held, as it is
    for the whole of a scan, the calls that insert into a list never
    return: the registration of a mutable root, the registration of a
    generational root that holds a block, and the modifications that move a
    root to the young list or insert it into the old list. *)
Theorem insertions_wait_for_mutex (r : Z) (newval w : value) (st : state) :
  roots_mutex st = true →
  mem st !! r = Some w →
  caml_register_global_root r st = Stuck Blocked ∧
  (Is_block w = true →
     caml_register_generational_global_root r st = Stuck Blocked) ∧
  (classify_gc_root newval = YOUNG → classify_gc_root w ≠ YOUNG →
     caml_modify_generational_global_root r newval st = Stuck Blocked) ∧
  (classify_gc_root newval = OLD → classify_gc_root w = UNTRACKED →
     caml_modify_generational_global_root r newval st = Stuck Blocked).
Proof.
  intros Hmx Hr. split_and!.
  - by apply caml_insert_global_root_blocked.
  - intros Hb. unfold caml_register_generational_global_root.
    rewrite bind_run, (load_run r w) by done.
    unfold classify_gc_root. rewrite Hb. cbn.
    destruct (Is_young w); by apply caml_insert_global_root_blocked.
  - intros Hnew Hold. unfold caml_modify_generational_global_root.
    rewrite Hnew, !bind_run, (load_run r w) by done.
    rewrite (decide_True (P := classify_gc_root w ≠ YOUNG)) by done.
    destruct (decide (classify_gc_root w = OLD)) as [Ho|Ho].
    + rewrite bind_run.
      destruct (Z.ltb_spec 0 (iterating_roots st)) as [Hi|Hi].
      * rewrite caml_delete_global_root_iterating by done.
        rewrite caml_insert_global_root_blocked; [done|].
        by rewrite assign_roots_mutex.
      * by rewrite caml_delete_global_root_blocked.
    + rewrite bind_run. unfold mret, M_ret at 1.
      by rewrite caml_insert_global_root_blocked.
  - intros Hnew Hold. unfold caml_modify_generational_global_root.
    rewrite Hnew, !bind_run, (load_run r w) by done.
    rewrite decide_True by done.
    by rewrite caml_insert_global_root_blocked.
Qed.

End more_modifications.

Lemma caml_insert_global_root_done list r st st' :
  caml_insert_global_root list r st = Done tt st' →
  roots_mutex st = false ∧
  st' = assign list (<[r := ROOT_PRESENT]> (deref list st)) st.
Proof.
  destruct (roots_mutex st) eqn:Hmx.
  - by rewrite caml_insert_global_root_blocked.
  - rewrite caml_insert_global_root_run by done. by intros [= <-].
Qed.

Lemma caml_delete_global_root_done list r st st' :
  caml_delete_global_root list r st = Done tt st' →
  st' = assign list (removal st r (deref list st)) st.
Proof.
  destruct (Z.ltb_spec 0 (iterating_roots st)) as [Hi|Hi].
  - unfold removal. destruct (Z.ltb_spec 0 (iterating_roots st)); [|lia].
    rewrite caml_delete_global_root_iterating by done. by intros [= <-].
  - destruct (roots_mutex st) eqn:Hmx.
    + by rewrite caml_delete_global_root_blocked.
    + unfold removal. destruct (Z.ltb_spec 0 (iterating_roots st)); [lia|].
      rewrite caml_delete_global_root_unlocked by done. by intros [= <-].
Qed.

Lemma purge_not_deleted (sk : gmap Z Z) k : purge sk !! k ≠ Some ROOT_DELETED.
Proof. rewrite purge_lookup. by case_decide. Qed.

Section more_registrations.
Context {AC : AddressClass}.

(** X6. The mutable and the generational roots are kept apart, whatever
    the state of the mutex and of the scan. A call on a mutable root that
    returns has changed neither the young list, nor the old list, nor the
    memory. A registration or a removal of a generational root that returns
    has changed neither the list of mutable roots nor the memory, and a
    modification has changed the list of mutable roots not at all, and the
    memory at the root alone, which holds the new value. *)
Theorem mutable_and_generational_roots_apart (c : call) (st st' : state) :
  run_call c st = Done tt st' →
  match c with
  | Register_global_root _ | Remove_global_root _ =>
      caml_global_roots_young st' = caml_global_roots_young st ∧
      caml_global_roots_old st' = caml_global_roots_old st ∧
      mem st' = mem st
  | Register_generational_global_root _
  | Remove_generational_global_root _ =>
      caml_global_roots st' = caml_global_roots st ∧
      mem st' = mem st
  | Modify_generational_global_root r newval =>
      caml_global_roots st' = caml_global_roots st ∧
      mem st' = <[r := newval]> (mem st)
  | Scan_global_roots _ _ | Scan_global_young_roots _ _ => True
  end.
Proof.
  assert (∀ r st1 st2,
            caml_remove_generational_global_root r st1 = Done tt st2 →
            caml_global_roots st2 = caml_global_roots st1 ∧
            mem st2 = mem st1) as Hremove.
  { intros r st1 st2. unfold caml_remove_generational_global_root.
    rewrite bind_run. unfold load.
    destruct (mem st1 !! r) as [w|]; [|done].
    destruct (classify_gc_root w).
    - intros ->%caml_delete_global_root_done. done.
    - rewrite bind_run.
      destruct (caml_delete_global_root GLOBAL_ROOTS_OLD r st1)
        as [[] st3|] eqn:H3; [|done].
      apply caml_delete_global_root_done in H3 as ->.
      intros ->%caml_delete_global_root_done. done.
    - by intros [= <-]. }
  assert (∀ r v st1 st2,
            store r v st1 = Done tt st2 →
            caml_global_roots st2 = caml_global_roots st1 ∧
            mem st2 = <[r := v]> (mem st1)) as Hstore.
  { intros r v st1 st2. unfold store.
    destruct (mem st1 !! r); [|done]. by intros [= <-]. }
  destruct c as [r|r|r|r|r newval|f fdata|f fdata]; cbn [run_call];
    [| | | | |done..].
  - unfold caml_register_global_root.
    intros [_ ->]%caml_insert_global_root_done. done.
  - unfold caml_remove_global_root.
    intros ->%caml_delete_global_root_done. done.
  - unfold caml_register_generational_global_root. rewrite bind_run.
    unfold load. destruct (mem st !! r) as [w|]; [|done].
    destruct (classify_gc_root w).
    + intros [_ ->]%caml_insert_global_root_done. done.
    + intros [_ ->]%caml_insert_global_root_done. done.
    + by intros [= <-].
  - apply Hremove.
  - unfold caml_modify_generational_global_root. rewrite bind_run.
    destruct (classify_gc_root newval).
    + rewrite bind_run. unfold load.
      destruct (mem st !! r) as [w|]; [|done]. rewrite bind_run.
      destruct (decide (classify_gc_root w = OLD)).
      * destruct (caml_delete_global_root GLOBAL_ROOTS_OLD r st)
          as [[] st1|] eqn:H1; [|done].
        apply caml_delete_global_root_done in H1 as ->.
        destruct (decide (classify_gc_root w ≠ YOUNG)).
        -- destruct (caml_insert_global_root GLOBAL_ROOTS_YOUNG r _)
             as [[] st2|] eqn:H2; [|done].
           apply caml_insert_global_root_done in H2 as [_ ->].
           intros [H3 H4]%Hstore. by rewrite H3, H4.
        -- cbn. intros [H3 H4]%Hstore. by rewrite H3, H4.
      * cbn. destruct (decide (classify_gc_root w ≠ YOUNG)).
        -- destruct (caml_insert_global_root GLOBAL_ROOTS_YOUNG r st)
             as [[] st2|] eqn:H2; [|done].
           apply caml_insert_global_root_done in H2 as [_ ->].
           intros [H3 H4]%Hstore. by rewrite H3, H4.
        -- cbn. intros [H3 H4]%Hstore. by rewrite H3, H4.
    + rewrite bind_run. unfold load.
      destruct (mem st !! r) as [w|]; [|done].
      destruct (decide (classify_gc_root w = UNTRACKED)).
      * destruct (caml_insert_global_root GLOBAL_ROOTS_OLD r st)
          as [[] st2|] eqn:H2; [|done].
        apply caml_insert_global_root_done in H2 as [_ ->].
        intros [H3 H4]%Hstore. by rewrite H3, H4.
      * cbn. intros [H3 H4]%Hstore. by rewrite H3, H4.
    + destruct (caml_remove_generational_global_root r st)
        as [[] st1|] eqn:H1; [|done].
      apply Hremove in H1 as [H1 H2].
      intros [H3 H4]%Hstore. by rewrite H3, H4, H1, H2.
Qed.

(** X7. Removal of a generational root, when the lists agree with the
    values of the roots and no scan is under way: whatever its value, the
    root is afterwards in neither the young nor the old list, the entries
    of the other roots are unchanged, and the lists still agree with the
    values. *)
Theorem removal_leaves_no_entry (r : Z) (w : value) (st : state) :
  quiescent st →
  lists_agree st →
  mem st !! r = Some w →
  ∃ st',
    caml_remove_generational_global_root r st = Done tt st' ∧
    caml_global_roots_young st' !! r = None ∧
    caml_global_roots_old st' !! r = None ∧
    (∀ k, k ≠ r →
          caml_global_roots_young st' !! k = caml_global_roots_young st !! k ∧
          caml_global_roots_old st' !! k = caml_global_roots_old st !! k) ∧
    lists_agree st'.
Proof.
  intros [Hmx Hit] [HY HO] Hr.
  destruct (caml_remove_generational_global_root_run r w st)
    as (st' & Hrun & Hm & Hmem & Hmx' & Hit' & Hcls); [done|by right|].
  exists st'. split; [done|]. unfold removal in Hcls.
  destruct (Z.ltb_spec 0 (iterating_roots st)); [lia|].
  assert (caml_global_roots_young st' !! r = None ∧
          caml_global_roots_old st' !! r = None ∧
          ∀ k, k ≠ r →
            caml_global_roots_young st' !! k =
              caml_global_roots_young st !! k ∧
            caml_global_roots_old st' !! k = caml_global_roots_old st !! k)
    as (Hy & Ho & Hother).
  { destruct (classify_gc_root w) eqn:Hcw.
    - destruct Hcls as [-> ->]. rewrite lookup_delete_eq. split_and!; [done| |].
      + destruct (caml_global_roots_old st !! r) as [d|] eqn:Hd; [|done].
        destruct (HO r d Hd) as (_ & v & Hv & Hc). congruence.
      + intros k Hk. by rewrite lookup_delete_ne.
    - destruct Hcls as [-> ->]. rewrite !lookup_delete_eq.
      split_and!; [done..|]. intros k Hk. by rewrite !lookup_delete_ne.
    - subst st'. split_and!; [| |done].
      + destruct (caml_global_roots_young st !! r) as [d|] eqn:Hd; [|done].
        destruct (HY r d Hd) as (_ & v & Hv & Hb).
        apply classify_gc_root_UNTRACKED in Hcw. congruence.
      + destruct (caml_global_roots_old st !! r) as [d|] eqn:Hd; [|done].
        destruct (HO r d Hd) as (_ & v & Hv & Hc). congruence. }
  split_and!; [done..|]. split.
  - intros k d Hk. rewrite Hmem. destruct (decide (k = r)) as [->|Hne].
    + by rewrite Hy in Hk.
    + destruct (Hother k Hne) as [Hk' _]. rewrite Hk' in Hk. by eapply HY.
  - intros k d Hk. rewrite Hmem. destruct (decide (k = r)) as [->|Hne].
    + by rewrite Ho in Hk.
    + destruct (Hother k Hne) as [_ Hk']. rewrite Hk' in Hk. by eapply HO.
Qed.

(** X8. A full scan. With no scan under way, every registered root
    allocated and an action that only relocates, [caml_scan_global_roots]
    returns with the mutex free and the counter at zero; it has called the
    action exactly once for every live entry of each of the three lists and
    never for a deleted entry, and it has unlinked the deleted entries and
    no other. *)
Theorem full_scan_visits_live_roots_once (f : scanning_action) (fdata : Z)
    (st : state) :
  relocating f →
  quiescent st →
  roots_mapped st →
  ∃ st' new,
    caml_scan_global_roots f fdata st = Done tt st' ∧
    quiescent st' ∧
    scanned st' = scanned st ++ new ∧
    (∀ r, times_scanned r new =
          (live_count (caml_global_roots st) r +
           live_count (caml_global_roots_young st) r +
           live_count (caml_global_roots_old st) r)%nat) ∧
    (∀ list, deref list st' = purge (deref list st)) ∧
    (∀ list k, deref list st' !! k ≠ Some ROOT_DELETED).
Proof.
  intros Hf Hq Hmap.
  destruct (caml_scan_global_roots_relocating f fdata st Hf Hq Hmap)
    as (st' & Hrun & Hq' & Hm & Hy & Ho & _ & new & Hsc & Hnew).
  exists st', new. split_and!; try done.
  - by intros [].
  - intros [] k; cbn; rewrite ?Hm, ?Hy, ?Ho; apply purge_not_deleted.
Qed.

(** X9. A scan for a minor collection. With no scan under way, every
    registered root allocated and an action that only relocates,
    [caml_scan_global_young_roots] returns with the mutex free and the
    counter at zero; it has called the action exactly once for every live
    entry of the list of mutable roots and of the young list, and never for
    an entry of the old list; the young list is empty, its live entries are
    present entries of the old list, and the old list has lost no entry. *)
Theorem minor_scan_visits_mutable_and_young_roots (f : scanning_action)
    (fdata : Z) (st : state) :
  relocating f →
  quiescent st →
  roots_mapped st →
  ∃ st' new,
    caml_scan_global_young_roots f fdata st = Done tt st' ∧
    quiescent st' ∧
    scanned st' = scanned st ++ new ∧
    (∀ r, times_scanned r new =
          (live_count (caml_global_roots st) r +
           live_count (caml_global_roots_young st) r)%nat) ∧
    caml_global_roots st' = purge (caml_global_roots st) ∧
    caml_global_roots_young st' = ∅ ∧
    (∀ r, present (caml_global_roots_young st) r →
          caml_global_roots_old st' !! r = Some ROOT_PRESENT) ∧
    (∀ r, is_Some (caml_global_roots_old st !! r) →
          is_Some (caml_global_roots_old st' !! r)).
Proof.
  intros Hf Hq Hmap.
  destruct (caml_scan_global_young_roots_relocating f fdata st Hf Hq Hmap)
    as (st' & Hrun & Hq' & Hm & Hy & Ho & _ & new & Hsc & Hnew).
  exists st', new. split_and!; try done.
  - intros r Hr%purge_present. destruct Hr as (d & Hd & _).
    rewrite Ho. apply lookup_union_Some_l. by eapply promoted_lookup.
  - intros r Hr. rewrite Ho, lookup_union_is_Some. by right.
Qed.

End more_registrations.

(** ** The invariant of the generational roots *)

Section aging.
Context {AC : AddressClass}.

Lemma aged_refl w : aged w w.
Proof. by left. Qed.

Lemma aged_trans w1 w2 w3 : aged w1 w2 → aged w2 w3 → aged w1 w3.
Proof.
  unfold aged. intros [H12|[H1 H2]] [H23|[H2' H3]].
  - left. congruence.
  - right. split; congruence.
  - right. split; congruence.
  - congruence.
Qed.

Lemma aged_Is_block w w' : aged w w' → Is_block w' = Is_block w.
Proof.
  unfold aged, classify_gc_root.
  destruct (Is_block w), (Is_block w'); cbn; try done.
  - destruct (Is_young w); intros [?|[? ?]]; done.
  - destruct (Is_young w'); intros [?|[? ?]]; done.
Qed.

Lemma aged_YOUNG w w' :
  aged w w' → classify_gc_root w' = YOUNG → classify_gc_root w = YOUNG.
Proof. intros [H1|[H1 H2]] Hc; congruence. Qed.

Lemma aged_not_YOUNG w w' :
  aged w w' → classify_gc_root w ≠ YOUNG → classify_gc_root w' ≠ YOUNG.
Proof. intros Ha Hc Hc'. by apply Hc, (aged_YOUNG w w'). Qed.

Lemma aged_OLD w w' :
  aged w w' → classify_gc_root w = OLD → classify_gc_root w' = OLD.
Proof. intros [H1|[H1 H2]] Hc; congruence. Qed.

Lemma aged_OLD_inv w w' :
  aged w w' → classify_gc_root w' = OLD →
  classify_gc_root w = OLD ∨ classify_gc_root w = YOUNG.
Proof. intros [H1|[H1 H2]] Hc; [left; congruence|by right]. Qed.

Lemma aged_UNTRACKED_inv w w' :
  aged w w' → classify_gc_root w' = UNTRACKED →
  classify_gc_root w = UNTRACKED.
Proof. intros [H1|[H1 H2]] Hc; congruence. Qed.

Lemma aged_mem_refl m : aged_mem m m.
Proof.
  split.
  - intros a w Ha. exists w. split; [done|apply aged_refl].
  - intros a w Ha. by eexists.
Qed.

Lemma aged_mem_trans m1 m2 m3 :
  aged_mem m1 m2 → aged_mem m2 m3 → aged_mem m1 m3.
Proof.
  intros [H12 H21] [H23 H32]. split.
  - intros a w Ha. destruct (H12 a w Ha) as (w2 & Ha2 & Hg2).
    destruct (H23 a w2 Ha2) as (w3 & Ha3 & Hg3). exists w3.
    split; [done|]. by eapply aged_trans.
  - intros a w3 Ha. destruct (H32 a w3 Ha) as [w2 Ha2]. by eapply H21.
Qed.

Lemma aged_mem_inv m m' a w' :
  aged_mem m m' → m' !! a = Some w' → ∃ w, m !! a = Some w ∧ aged w w'.
Proof.
  intros [Hf Hb] Ha. destruct (Hb a w' Ha) as [w Hw].
  destruct (Hf a w Hw) as (w'' & Hw'' & Hg). exists w. split; [done|].
  congruence.
Qed.

Lemma aged_mem_same_blocks m m' : aged_mem m m' → same_blocks m m'.
Proof.
  intros [Hf _] a w Ha. destruct (Hf a w Ha) as (w' & Hw' & Hg).
  exists w'. split; [done|]. by apply aged_Is_block.
Qed.

Lemma aging_relocating f : aging f → relocating f.
Proof.
  intros Hf fdata v r st Hr. destruct (Hf fdata v r st Hr) as (m' & Hrun & Hm).
  exists m'. split; [done|]. by apply aged_mem_same_blocks.
Qed.

Lemma promoting_aging f : promoting f → aging f.
Proof.
  intros Hf fdata v r st Hr.
  destruct (Hf fdata v r st Hr) as (m' & Hrun & Hm & _). by exists m'.
Qed.

Lemma collected_refl st : collected st st.
Proof. split_and!; [done|done|by left|apply aged_mem_refl]. Qed.

Lemma collected_trans st1 st2 st3 :
  collected st1 st2 → collected st2 st3 → collected st1 st3.
Proof.
  intros (Hi1 & Hx1 & Hl1 & Hm1) (Hi2 & Hx2 & Hl2 & Hm2). split_and!.
  - congruence.
  - congruence.
  - intros l k. destruct (Hl2 l k) as [H2|[H2 H2']].
    + rewrite H2. apply Hl1.
    + destruct (Hl1 l k) as [H1|[H1 H1']].
      * right. split; congruence.
      * congruence.
  - by eapply aged_mem_trans.
Qed.

Lemma iterate_action_collected f rootlist fdata e st st' :
  aging f →
  iterate_action f rootlist fdata e st = Done tt st' → collected st st'.
Proof.
  intros Hf. unfold iterate_action, cell_data. rewrite bind_run.
  destruct (deref rootlist st !! e) as [d|] eqn:Hd; [|done].
  destruct (Z.eqb_spec d ROOT_DELETED) as [->|Hne].
  - intros [= <-]. split_and!.
    + apply assign_iterating_roots.
    + apply assign_roots_mutex.
    + intros l k. destruct (decide (l = rootlist)) as [->|Hl].
      * rewrite assign_deref_same. destruct (decide (k = e)) as [->|Hk].
        -- right. by rewrite lookup_delete_eq.
        -- left. by rewrite lookup_delete_ne.
      * left. by rewrite assign_deref_other.
    + rewrite assign_mem. apply aged_mem_refl.
  - rewrite bind_run. unfold load.
    destruct (mem st !! e) as [w|] eqn:Hw; [|done].
    rewrite bind_run. unfold note_call at 1.
    destruct (Hf fdata w e (set_scanned (scanned st ++ [(e, w)]) st) Hw)
      as (m' & -> & Hm').
    intros [= <-]. split_and!; [done|done| |done]. intros l k. left.
    by destruct l.
Qed.

Lemma caml_iterate_global_roots_collected f rootlist fdata st st' :
  aging f →
  caml_iterate_global_roots f rootlist fdata st = Done tt st' →
  collected st st'.
Proof.
  intros Hf. unfold caml_iterate_global_roots, FOREACH_SKIPLIST_ELEMENT.
  apply (foreach_preserves (collected st)); [|apply collected_refl].
  intros e st1 st2 Hw Hrun. eapply collected_trans; [done|].
  by eapply iterate_action_collected.
Qed.

(** A list without deleted entries is not changed by a walk. *)
Lemma collected_no_deleted l st st' :
  collected st st' →
  (∀ k, deref l st !! k ≠ Some ROOT_DELETED) →
  deref l st' = deref l st.
Proof.
  intros (_ & _ & Hl & _) Hnd. apply map_eq. intros k.
  destruct (Hl l k) as [Hk|[Hk _]]; [done|]. by destruct (Hnd k).
Qed.

(** The walk of the young list with a promoting action, when no entry of
    the young list is deleted: every root of the cells walked holds a value
    that is not young. *)
Lemma foreach_promoting f fdata cells : promoting f → ∀ st st',
  (∀ k, caml_global_roots_young st !! k ≠ Some ROOT_DELETED) →
  foreach (iterate_action f GLOBAL_ROOTS_YOUNG fdata) cells st = Done tt st' →
  collected st st' ∧
  ∀ k, k ∈ cells →
       ∃ w', mem st' !! k = Some w' ∧ classify_gc_root w' ≠ YOUNG.
Proof.
  intros Hf. induction cells as [|e cells IH]; intros st st' Hnd.
  - intros [= <-]. split; [apply collected_refl|]. by intros k ?%elem_of_nil.
  - simpl foreach. rewrite bind_run.
    destruct (iterate_action f GLOBAL_ROOTS_YOUNG fdata e st)
      as [[] st1|] eqn:Hstep; [|done].
    intros Hrest.
    pose proof (iterate_action_collected _ _ _ _ _ _
                  (promoting_aging f Hf) Hstep) as Hc1.
    assert (caml_global_roots_young st1 = caml_global_roots_young st) as Hy1.
    { by apply (collected_no_deleted GLOBAL_ROOTS_YOUNG). }
    destruct (IH st1 st') as [Hc2 Hcells]; [by rewrite Hy1|done|].
    split; [by eapply collected_trans|].
    intros k [->|Hk]%elem_of_cons; [|by apply Hcells].
    (* the step on [e] has promoted it, and it has not been young since *)
    revert Hstep. unfold iterate_action, cell_data. rewrite bind_run.
    cbn [deref]. destruct (caml_global_roots_young st !! e) as [d|] eqn:Hd;
      [|done].
    destruct (Z.eqb_spec d ROOT_DELETED) as [->|Hne]; [by destruct (Hnd e)|].
    rewrite bind_run. unfold load.
    destruct (mem st !! e) as [w|] eqn:Hw; [|done].
    rewrite bind_run. unfold note_call at 1.
    destruct (Hf fdata w e (set_scanned (scanned st ++ [(e, w)]) st) Hw)
      as (m' & -> & Hm' & w1 & Hw1 & Hc).
    intros [= <-]. destruct Hc2 as (_ & _ & _ & [Hfwd _]).
    destruct (Hfwd e w1 Hw1) as (w' & Hw' & Hg). exists w'.
    split; [done|]. by eapply aged_not_YOUNG.
Qed.

End aging.

Section collecting_scans.
Context {AC : AddressClass}.

Lemma caml_scan_global_roots_collected f fdata st st' :
  aging f → quiescent st →
  caml_scan_global_roots f fdata st = Done tt st' →
  quiescent st' ∧
  (∀ l k, deref l st' !! k = deref l st !! k ∨
          (deref l st !! k = Some ROOT_DELETED ∧ deref l st' !! k = None)) ∧
  aged_mem (mem st) (mem st').
Proof.
  intros Hf [Hmx Hit]. unfold caml_scan_global_roots.
  rewrite bind_run. unfold caml_plat_lock_blocking at 1. rewrite Hmx.
  rewrite bind_run. unfold incr_iterating_roots at 1.
  cbn [iterating_roots set_mutex].
  rewrite Hit. change (0 <? INT_MAX) with true. cbv iota.
  set (sta := set_iterating (0 + 1) (set_mutex true st)).
  rewrite bind_run.
  destruct (caml_iterate_global_roots f GLOBAL_ROOTS fdata sta)
    as [[] stb|] eqn:Hb; [|done].
  apply caml_iterate_global_roots_collected in Hb; [|done].
  rewrite bind_run.
  destruct (caml_iterate_global_roots f GLOBAL_ROOTS_YOUNG fdata stb)
    as [[] stc|] eqn:Hc; [|done].
  apply caml_iterate_global_roots_collected in Hc; [|done].
  rewrite bind_run.
  destruct (caml_iterate_global_roots f GLOBAL_ROOTS_OLD fdata stc)
    as [[] std|] eqn:Hd; [|done].
  apply caml_iterate_global_roots_collected in Hd; [|done].
  destruct (collected_trans _ _ _ Hb (collected_trans _ _ _ Hc Hd))
    as (Hi & _ & Hl & Hmem).
  rewrite bind_run. unfold decr_iterating_roots at 1. rewrite Hi.
  cbn [iterating_roots sta set_iterating].
  change (INT_MIN <? 0 + 1) with true. cbv iota.
  intros [= <-]. split_and!; [done| |done].
  intros l k. destruct (Hl l k) as [Hk|Hk]; [left|right]; by destruct l.
Qed.

Lemma caml_scan_global_young_roots_collected f fdata st st' :
  promoting f → quiescent st →
  (∀ k, caml_global_roots_young st !! k ≠ Some ROOT_DELETED) →
  (∀ k, caml_global_roots_old st !! k ≠ Some ROOT_DELETED) →
  caml_scan_global_young_roots f fdata st = Done tt st' →
  quiescent st' ∧
  caml_global_roots_young st' = ∅ ∧
  caml_global_roots_old st' =
    promoted (caml_global_roots_young st) ∪ caml_global_roots_old st ∧
  aged_mem (mem st) (mem st') ∧
  ∀ k, is_Some (caml_global_roots_young st !! k) →
       ∃ w', mem st' !! k = Some w' ∧ classify_gc_root w' ≠ YOUNG.
Proof.
  intros Hf [Hmx Hit] Hny Hno. unfold caml_scan_global_young_roots.
  rewrite bind_run. unfold caml_plat_lock_blocking at 1. rewrite Hmx.
  rewrite bind_run. unfold incr_iterating_roots at 1.
  cbn [iterating_roots set_mutex].
  rewrite Hit. change (0 <? INT_MAX) with true. cbv iota.
  set (sta := set_iterating (0 + 1) (set_mutex true st)).
  rewrite bind_run.
  destruct (caml_iterate_global_roots f GLOBAL_ROOTS fdata sta)
    as [[] stb|] eqn:Hb; [|done].
  apply caml_iterate_global_roots_collected in Hb;
    [|by apply promoting_aging].
  pose proof (collected_no_deleted GLOBAL_ROOTS_YOUNG sta stb Hb Hny) as Hyb.
  pose proof (collected_no_deleted GLOBAL_ROOTS_OLD sta stb Hb Hno) as Hob.
  cbn in Hyb, Hob.
  rewrite bind_run.
  destruct (caml_iterate_global_roots f GLOBAL_ROOTS_YOUNG fdata stb)
    as [[] stc|] eqn:Hc; [|done].
  unfold caml_iterate_global_roots, FOREACH_SKIPLIST_ELEMENT in Hc.
  apply foreach_promoting in Hc as [Hc Hcells];
    [|done|by rewrite Hyb].
  assert (caml_global_roots_young stc = caml_global_roots_young st) as Hyc.
  { rewrite <- Hyb. apply (collected_no_deleted GLOBAL_ROOTS_YOUNG); [done|].
    cbn. by rewrite Hyb. }
  assert (caml_global_roots_old stc = caml_global_roots_old st) as Hoc.
  { rewrite <- Hob. apply (collected_no_deleted GLOBAL_ROOTS_OLD); [done|].
    cbn. by rewrite Hob. }
  destruct (collected_trans _ _ _ Hb Hc) as (Hi & _ & _ & Hmem).
  rewrite bind_run, move_young_roots_to_old_run.
  rewrite bind_run. unfold decr_iterating_roots at 1.
  cbn [iterating_roots assign]. rewrite Hi.
  cbn [iterating_roots sta set_iterating].
  change (INT_MIN <? 0 + 1) with true. cbv iota.
  intros [= <-]. cbn. split_and!; [done|done|by rewrite Hyc, Hoc|done|].
  intros k Hk. apply Hcells. cbn. rewrite Hyb.
  by apply skiplist_cells_elem_of.
Qed.

End collecting_scans.

Section generational_invariant_steps.
Context {AC : AddressClass}.

Lemma classify_gc_root_block_not_YOUNG v :
  Is_block v = true → classify_gc_root v ≠ YOUNG → classify_gc_root v = OLD.
Proof.
  unfold classify_gc_root. intros ->. cbn. by destruct (Is_young v).
Qed.

Lemma lists_agree_untracked st r v :
  lists_agree st →
  mem st !! r = Some v →
  classify_gc_root v = UNTRACKED →
  caml_global_roots_young st !! r = None ∧
  caml_global_roots_old st !! r = None.
Proof.
  intros [HY HO] Hr Hc. split.
  - destruct (caml_global_roots_young st !! r) as [d|] eqn:Hd; [|done].
    destruct (HY r d Hd) as (_ & v' & Hv' & Hb).
    apply classify_gc_root_UNTRACKED in Hc. congruence.
  - destruct (caml_global_roots_old st !! r) as [d|] eqn:Hd; [|done].
    destruct (HO r d Hd) as (_ & v' & Hv' & Hc'). congruence.
Qed.

(** The invariant after a change that is confined to the root [r]. *)
Lemma invariant_local_update regs regs' r st st' :
  lists_agree st →
  generational_invariant regs st →
  (∀ k, k ≠ r →
        (k ∈ regs' → k ∈ regs) ∧
        caml_global_roots_young st' !! k = caml_global_roots_young st !! k ∧
        caml_global_roots_old st' !! k = caml_global_roots_old st !! k ∧
        mem st' !! k = mem st !! k) →
  (∀ d, caml_global_roots_young st' !! r = Some d →
        d ≠ ROOT_DELETED ∧ ∃ v, mem st' !! r = Some v ∧ Is_block v = true) →
  (∀ d, caml_global_roots_old st' !! r = Some d →
        d ≠ ROOT_DELETED ∧
        ∃ v, mem st' !! r = Some v ∧ classify_gc_root v = OLD) →
  (∀ v, r ∈ regs' → mem st' !! r = Some v →
        (classify_gc_root v = YOUNG →
           is_Some (caml_global_roots_young st' !! r)) ∧
        (classify_gc_root v = OLD →
           is_Some (caml_global_roots_old st' !! r) ∨
           is_Some (caml_global_roots_young st' !! r))) →
  lists_agree st' ∧ generational_invariant regs' st'.
Proof.
  intros [HY HO] (H1 & H2 & _) Hother Hyr Hor Hreg.
  assert (lists_agree st') as Hagree.
  { split.
    - intros k d Hk. destruct (decide (k = r)) as [->|Hne]; [by apply Hyr|].
      destruct (Hother k Hne) as (_ & Hy & _ & Hm). rewrite Hy in Hk.
      rewrite Hm. by eapply HY.
    - intros k d Hk. destruct (decide (k = r)) as [->|Hne]; [by apply Hor|].
      destruct (Hother k Hne) as (_ & _ & Ho & Hm). rewrite Ho in Hk.
      rewrite Hm. by eapply HO. }
  split; [done|]. split_and!.
  - intros k v Hk Hv Hc. destruct (decide (k = r)) as [->|Hne].
    + by apply (Hreg v).
    + destruct (Hother k Hne) as (Hregs & Hy & _ & Hm). rewrite Hy.
      rewrite Hm in Hv. eapply H1; eauto.
  - intros k v Hk Hv Hc. destruct (decide (k = r)) as [->|Hne].
    + by apply (Hreg v).
    + destruct (Hother k Hne) as (Hregs & Hy & Ho & Hm). rewrite Hy, Ho.
      rewrite Hm in Hv. eapply H2; eauto.
  - intros k v. by apply lists_agree_untracked.
Qed.

Lemma caml_register_generational_global_root_invariant regs r st st' :
  quiescent st →
  lists_agree st → generational_invariant regs st →
  caml_register_generational_global_root r st = Done tt st' →
  quiescent st' ∧
  lists_agree st' ∧ generational_invariant ({[ r ]} ∪ regs) st'.
Proof.
  intros [Hmx Hit] Hag Hinv.
  unfold caml_register_generational_global_root. rewrite bind_run.
  unfold load. destruct (mem st !! r) as [w|] eqn:Hw; [|done].
  pose proof Hag as [HY HO].
  assert (∀ k, k ≠ r → k ∈ ({[ r ]} ∪ regs : gset Z) → k ∈ regs) as Hregs.
  { intros k Hne [Hk%elem_of_singleton|Hk]%elem_of_union; done. }
  destruct (classify_gc_root w) eqn:Hcw.
  - rewrite caml_insert_global_root_run by done. intros [= <-].
    split; [done|]. apply (invariant_local_update regs _ r st); try done.
    + intros k Hne. cbn. rewrite lookup_insert_ne by done. auto.
    + cbn. rewrite lookup_insert_eq. intros d [= <-]. split; [done|].
      exists w. split; [done|]. by apply classify_gc_root_YOUNG.
    + cbn. intros d Hd. by eapply HO.
    + cbn. rewrite lookup_insert_eq. intros v _ Hv. split; [by eauto|].
      congruence.
  - rewrite caml_insert_global_root_run by done. intros [= <-].
    split; [done|]. apply (invariant_local_update regs _ r st); try done.
    + intros k Hne. cbn. rewrite lookup_insert_ne by done. auto.
    + cbn. intros d Hd. by eapply HY.
    + cbn. rewrite lookup_insert_eq. intros d [= <-]. split; [done|]. eauto.
    + cbn. rewrite lookup_insert_eq. intros v _ Hv. split; [congruence|].
      left. eauto.
  - intros [= <-]. split; [done|].
    apply (invariant_local_update regs _ r st); try done.
    + intros k Hne. auto.
    + intros d Hd. by eapply HY.
    + intros d Hd. by eapply HO.
    + intros v _ Hv. split; congruence.
Qed.

Lemma caml_remove_generational_global_root_invariant regs r st st' :
  quiescent st →
  lists_agree st → generational_invariant regs st →
  caml_remove_generational_global_root r st = Done tt st' →
  quiescent st' ∧
  lists_agree st' ∧ generational_invariant (regs ∖ {[ r ]}) st'.
Proof.
  intros [Hmx Hit] Hag Hinv Hrun. pose proof Hag as [HY HO].
  destruct (mem st !! r) as [w|] eqn:Hw; cycle 1.
  { revert Hrun. unfold caml_remove_generational_global_root.
    rewrite bind_run. unfold load. by rewrite Hw. }
  destruct (caml_remove_generational_global_root_run r w st)
    as (st1 & Hrun1 & Hm1 & Hmem1 & Hmx1 & Hit1 & Hcls); [done|by right|].
  rewrite Hrun1 in Hrun. injection Hrun as <-.
  split; [split; congruence|].
  unfold removal in Hcls.
  destruct (Z.ltb_spec 0 (iterating_roots st)); [lia|].
  assert (∀ k,
            (caml_global_roots_young st1 !! k = None ∨
             caml_global_roots_young st1 !! k =
               caml_global_roots_young st !! k) ∧
            (caml_global_roots_old st1 !! k = None ∨
             caml_global_roots_old st1 !! k = caml_global_roots_old st !! k) ∧
            (k ≠ r →
             caml_global_roots_young st1 !! k =
               caml_global_roots_young st !! k ∧
             caml_global_roots_old st1 !! k = caml_global_roots_old st !! k))
    as Hlists.
  { intros k. destruct (classify_gc_root w).
    - destruct Hcls as [-> ->]. rewrite lookup_delete.
      case_decide; split_and!; auto; by intros [].
    - destruct Hcls as [-> ->]. rewrite !lookup_delete.
      case_decide; split_and!; auto; by intros [].
    - subst st1. auto. }
  apply (invariant_local_update regs _ r st); try done.
  - intros k Hne. destruct (Hlists k) as (_ & _ & [Hy Ho]); [done|].
    rewrite Hmem1. split_and!; try done.
    by intros [? _]%elem_of_difference.
  - intros d Hd. rewrite Hmem1.
    destruct (Hlists r) as ([Hy|Hy] & _ & _); [congruence|].
    rewrite Hy in Hd. by eapply HY.
  - intros d Hd. rewrite Hmem1.
    destruct (Hlists r) as (_ & [Ho|Ho] & _); [congruence|].
    rewrite Ho in Hd. by eapply HO.
  - intros v [_ Hr]%elem_of_difference. destruct Hr. by apply elem_of_singleton.
Qed.

End generational_invariant_steps.

Section generational_invariant_calls.
Context {AC : AddressClass}.

Lemma caml_modify_generational_global_root_generational regs r newval st st' :
  quiescent st →
  lists_agree st → generational_invariant regs st →
  caml_modify_generational_global_root r newval st = Done tt st' →
  quiescent st' ∧ lists_agree st' ∧ generational_invariant regs st'.
Proof.
  intros [Hmx Hit] Hag Hinv. pose proof Hag as [HY HO].
  pose proof Hinv as (H1 & H2 & _).
  unfold caml_modify_generational_global_root. rewrite bind_run.
  destruct (mem st !! r) as [w|] eqn:Hw; cycle 1.
  { unfold caml_remove_generational_global_root.
    destruct (classify_gc_root newval);
      rewrite bind_run; unfold load; by rewrite Hw. }
  assert (∀ d, caml_global_roots_old st !! r = Some d →
               d ≠ ROOT_DELETED ∧ classify_gc_root w = OLD) as HOr.
  { intros d Hd. destruct (HO r d Hd) as (Hne & v & Hv & Hc).
    split; [done|]. congruence. }
  assert (∀ d, caml_global_roots_young st !! r = Some d →
               d ≠ ROOT_DELETED ∧ Is_block w = true) as HYr.
  { intros d Hd. destruct (HY r d Hd) as (Hne & v & Hv & Hc).
    split; [done|]. congruence. }
  destruct (classify_gc_root newval) eqn:Hnew.
  - (* the new value is young *)
    rewrite bind_run, (load_run r w) by done. rewrite bind_run.
    assert (Is_block newval = true) as Hb by by apply classify_gc_root_YOUNG.
    destruct (classify_gc_root w) eqn:Hcw.
    + rewrite (decide_False (P := YOUNG = OLD)) by done.
      rewrite (decide_False (P := YOUNG ≠ YOUNG)) by (intros Hn; by apply Hn).
      cbn. erewrite store_run by done. intros [= <-]. split; [done|].
      apply (invariant_local_update regs regs r st); try done; cbn.
      * intros k Hne. by rewrite lookup_insert_ne.
      * rewrite lookup_insert_eq. intros d Hd.
        destruct (HYr d Hd) as [Hne _]. eauto.
      * intros d Hd. destruct (HOr d Hd) as [_ Hc]. congruence.
      * rewrite lookup_insert_eq. intros v Hr [= <-].
        split; [|congruence]. intros _. by eapply H1.
    + rewrite (decide_True (P := OLD = OLD)) by done.
      rewrite (decide_True (P := OLD ≠ YOUNG)) by done.
      rewrite caml_delete_global_root_unlocked by (first [lia | done]).
      rewrite caml_insert_global_root_run by done.
      erewrite store_run by done. intros [= <-]. split; [done|].
      apply (invariant_local_update regs regs r st); try done; cbn.
      * intros k Hne. by rewrite !lookup_insert_ne, lookup_delete_ne.
      * rewrite !lookup_insert_eq. intros d [= <-]. eauto.
      * by rewrite lookup_delete_eq.
      * rewrite !lookup_insert_eq. intros v Hr [= <-].
        split; [by eauto|congruence].
    + rewrite (decide_False (P := UNTRACKED = OLD)) by done.
      rewrite (decide_True (P := UNTRACKED ≠ YOUNG)) by done. cbn.
      rewrite caml_insert_global_root_run by done.
      erewrite store_run by done. intros [= <-]. split; [done|].
      apply (invariant_local_update regs regs r st); try done; cbn.
      * intros k Hne. by rewrite !lookup_insert_ne.
      * rewrite !lookup_insert_eq. intros d [= <-]. eauto.
      * intros d Hd. destruct (HOr d Hd) as [_ Hc]. congruence.
      * rewrite !lookup_insert_eq. intros v Hr [= <-].
        split; [by eauto|congruence].
  - (* the new value is old *)
    rewrite bind_run, (load_run r w) by done.
    assert (Is_block newval = true) as Hb by by apply classify_gc_root_OLD.
    destruct (decide (classify_gc_root w = UNTRACKED)) as [Hcw|Hcw].
    + rewrite caml_insert_global_root_run by done.
      erewrite store_run by done. intros [= <-]. split; [done|].
      apply (invariant_local_update regs regs r st); try done; cbn.
      * intros k Hne. by rewrite !lookup_insert_ne.
      * rewrite lookup_insert_eq. intros d Hd.
        destruct (HYr d Hd) as [Hne _]. eauto.
      * rewrite !lookup_insert_eq. intros d [= <-]. eauto.
      * rewrite !lookup_insert_eq. intros v Hr [= <-].
        split; [congruence|]. intros _. left. eauto.
    + cbn. erewrite store_run by done. intros [= <-]. split; [done|].
      apply (invariant_local_update regs regs r st); try done; cbn.
      * intros k Hne. by rewrite !lookup_insert_ne.
      * rewrite lookup_insert_eq. intros d Hd.
        destruct (HYr d Hd) as [Hne _]. eauto.
      * rewrite lookup_insert_eq. intros d Hd.
        destruct (HOr d Hd) as [Hne _]. eauto.
      * rewrite !lookup_insert_eq. intros v Hr [= <-].
        split; [congruence|]. intros _.
        destruct (classify_gc_root w) eqn:Hc; [|by eapply H2|done].
        right. by eapply H1.
  - (* the new value is not tracked *)
    destruct (caml_remove_generational_global_root_run r w st)
      as (st1 & -> & Hm1 & Hmem1 & Hmx1 & Hit1 & Hcls); [done|by right|].
    erewrite store_run by (by rewrite Hmem1).
    intros [= <-]. split; [split; cbn; congruence|].
    unfold removal in Hcls.
    destruct (Z.ltb_spec 0 (iterating_roots st)); [lia|].
    assert (caml_global_roots_young st1 !! r = None ∧
            caml_global_roots_old st1 !! r = None ∧
            ∀ k, k ≠ r →
              caml_global_roots_young st1 !! k =
                caml_global_roots_young st !! k ∧
              caml_global_roots_old st1 !! k =
                caml_global_roots_old st !! k) as (Hy & Ho & Hother).
    { destruct (classify_gc_root w) eqn:Hcw.
      - destruct Hcls as [-> ->]. rewrite lookup_delete_eq.
        split_and!; [done| |].
        + destruct (caml_global_roots_old st !! r) as [d|] eqn:Hd; [|done].
          destruct (HOr d eq_refl) as [_ Hc]. congruence.
        + intros k Hk. by rewrite lookup_delete_ne.
      - destruct Hcls as [-> ->]. rewrite !lookup_delete_eq.
        split_and!; [done..|]. intros k Hk. by rewrite !lookup_delete_ne.
      - subst st1. split_and!; [| |done].
        + destruct (caml_global_roots_young st !! r) as [d|] eqn:Hd; [|done].
          destruct (HYr d eq_refl) as [_ Hb].
          apply classify_gc_root_UNTRACKED in Hcw. congruence.
        + destruct (caml_global_roots_old st !! r) as [d|] eqn:Hd; [|done].
          destruct (HOr d eq_refl) as [_ Hc]. congruence. }
    apply (invariant_local_update regs regs r st); try done; cbn.
    + intros k Hne. destruct (Hother k Hne) as [Hy' Ho'].
      by rewrite lookup_insert_ne, Hmem1.
    + by rewrite Hy.
    + by rewrite Ho.
    + rewrite lookup_insert_eq. intros v Hr [= <-]. split; congruence.
Qed.

Lemma caml_scan_global_roots_generational regs f fdata st st' :
  aging f → quiescent st →
  lists_agree st → generational_invariant regs st →
  caml_scan_global_roots f fdata st = Done tt st' →
  quiescent st' ∧ lists_agree st' ∧ generational_invariant regs st'.
Proof.
  intros Hf Hq Hag Hinv Hrun. pose proof Hag as [HY HO].
  pose proof Hinv as (H1 & H2 & _).
  destruct (caml_scan_global_roots_collected f fdata st st' Hf Hq Hrun)
    as (Hq' & Hl & Hmem).
  split; [done|].
  assert (caml_global_roots_young st' = caml_global_roots_young st) as Hy.
  { apply map_eq. intros k.
    destruct (Hl GLOBAL_ROOTS_YOUNG k) as [Hk|[Hk _]]; [done|].
    by destruct (HY k _ Hk) as [? _]. }
  assert (caml_global_roots_old st' = caml_global_roots_old st) as Ho.
  { apply map_eq. intros k.
    destruct (Hl GLOBAL_ROOTS_OLD k) as [Hk|[Hk _]]; [done|].
    by destruct (HO k _ Hk) as [? _]. }
  assert (lists_agree st') as Hag'.
  { destruct Hmem as [Hfwd _]. split.
    - intros k d Hk. rewrite Hy in Hk.
      destruct (HY k d Hk) as (Hne & v & Hv & Hb). split; [done|].
      destruct (Hfwd k v Hv) as (v' & Hv' & Hg). exists v'. split; [done|].
      by rewrite (aged_Is_block v v').
    - intros k d Hk. rewrite Ho in Hk.
      destruct (HO k d Hk) as (Hne & v & Hv & Hc). split; [done|].
      destruct (Hfwd k v Hv) as (v' & Hv' & Hg). exists v'. split; [done|].
      by apply (aged_OLD v v'). }
  split; [done|]. split_and!.
  - intros k v' Hk Hv' Hc. rewrite Hy.
    destruct (aged_mem_inv _ _ _ _ Hmem Hv') as (v & Hv & Hg).
    eapply H1; [done..|]. by eapply aged_YOUNG.
  - intros k v' Hk Hv' Hc. rewrite Hy, Ho.
    destruct (aged_mem_inv _ _ _ _ Hmem Hv') as (v & Hv & Hg).
    destruct (aged_OLD_inv v v' Hg Hc) as [Hc'|Hc'].
    + by eapply H2.
    + right. by eapply H1.
  - intros k v. by apply lists_agree_untracked.
Qed.

Lemma caml_scan_global_young_roots_generational regs f fdata st st' :
  promoting f → quiescent st →
  lists_agree st → generational_invariant regs st →
  caml_scan_global_young_roots f fdata st = Done tt st' →
  quiescent st' ∧ lists_agree st' ∧ generational_invariant regs st'.
Proof.
  intros Hf Hq Hag Hinv Hrun. pose proof Hag as [HY HO].
  pose proof Hinv as (H1 & H2 & _).
  destruct (caml_scan_global_young_roots_collected f fdata st st' Hf Hq)
    as (Hq' & Hy & Ho & Hmem & Hprom); [| |done|].
  { intros k Hk. by destruct (HY k _ Hk) as [? _]. }
  { intros k Hk. by destruct (HO k _ Hk) as [? _]. }
  split; [done|].
  assert (lists_agree st') as Hag'.
  { split.
    - intros k d Hk. by rewrite Hy, lookup_empty in Hk.
    - intros k d Hk. rewrite Ho in Hk.
      apply lookup_union_Some_raw in Hk as [Hk|[_ Hk]].
      + unfold promoted in Hk. rewrite lookup_fmap in Hk.
        destruct (caml_global_roots_young st !! k) as [d0|] eqn:Hd0;
          [|done].
        injection Hk as <-. split; [done|].
        destruct (Hprom k) as (w' & Hw' & Hc); [by eexists|].
        exists w'. split; [done|].
        apply classify_gc_root_block_not_YOUNG; [|done].
        destruct (HY k d0 Hd0) as (_ & v & Hv & Hb).
        destruct Hmem as [Hfwd _].
        destruct (Hfwd k v Hv) as (v' & Hv' & Hg).
        assert (v' = w') as -> by congruence.
        by rewrite (aged_Is_block v w').
      + destruct (HO k d Hk) as (Hne & v & Hv & Hc). split; [done|].
        destruct Hmem as [Hfwd _].
        destruct (Hfwd k v Hv) as (v' & Hv' & Hg). exists v'.
        split; [done|]. by apply (aged_OLD v v'). }
  split; [done|]. split_and!.
  - intros k v' Hk Hv' Hc. exfalso.
    destruct (aged_mem_inv _ _ _ _ Hmem Hv') as (v & Hv & Hg).
    destruct (Hprom k) as (w' & Hw' & Hc').
    + eapply H1; [done..|]. by eapply aged_YOUNG.
    + congruence.
  - intros k v' Hk Hv' Hc. left. rewrite Ho, lookup_union_is_Some.
    unfold promoted. rewrite lookup_fmap, fmap_is_Some.
    destruct (aged_mem_inv _ _ _ _ Hmem Hv') as (v & Hv & Hg).
    destruct (aged_OLD_inv v v' Hg Hc) as [Hc'|Hc'].
    + destruct (H2 k v Hk Hv Hc'); auto.
    + left. by eapply H1.
  - intros k v. by apply lists_agree_untracked.
Qed.

End generational_invariant_calls.

Section generational_invariant_sequences.
Context {AC : AddressClass}.

Lemma run_call_generational c regs st st' :
  call_collecting c →
  quiescent st →
  lists_agree st → generational_invariant regs st →
  run_call c st = Done tt st' →
  quiescent st' ∧
  lists_agree st' ∧ generational_invariant (registered_after [c] regs) st'.
Proof.
  intros Hc Hq Hag Hinv. pose proof Hq as [Hmx Hit].
  destruct c as [r|r|r|r|r newval|f fdata|f fdata];
    cbn [run_call registered_after].
  - unfold caml_register_global_root.
    rewrite caml_insert_global_root_run by done. by intros [= <-].
  - unfold caml_remove_global_root.
    rewrite caml_delete_global_root_unlocked by (first [lia | done]).
    by intros [= <-].
  - by apply caml_register_generational_global_root_invariant.
  - by apply caml_remove_generational_global_root_invariant.
  - by apply caml_modify_generational_global_root_generational.
  - by apply caml_scan_global_roots_generational.
  - by apply caml_scan_global_young_roots_generational.
Qed.

Lemma registered_after_cons c cs regs :
  registered_after (c :: cs) regs =
    registered_after cs (registered_after [c] regs).
Proof. by destruct c. Qed.

(** X10. The invariant of the generational roots that the code keeps: the
    comment before [caml_insert_global_root] with the classes of
    [classify_gc_root] in the place of its three cases, which is the
    comment's invariant but for the pointers outside the heap. The calls
    start with no scan under way, from lists that agree with the values of
    the roots; the action of a full scan ages the memory and the action of
    a scan for a minor collection moreover leaves no young value in the
    root it is called on. Then, when the calls have returned, the mutex is
    free and, for the roots that are registered at that point: a root that
    holds a young block is in the young list; a root that holds a block
    that is not young, be it in the major heap or outside the heap, is in
    the old list or in the young list; and a root, registered or not, that
    holds an integer is in neither list. That a root which holds a pointer
    outside the heap is in neither list, as the comment has it, is not
    stated, and is not so. *)
Theorem generational_invariant_kept (cs : list call) (regs : gset Z)
    (st st' : state) :
  quiescent st →
  lists_agree st →
  generational_invariant regs st →
  Forall call_collecting cs →
  run_calls cs st = Done tt st' →
  roots_mutex st' = false ∧
  lists_agree st' ∧
  generational_invariant (registered_after cs regs) st'.
Proof.
  intros Hq Hag Hinv Hcs Hrun.
  cut (quiescent st' ∧ lists_agree st' ∧
       generational_invariant (registered_after cs regs) st').
  { by intros [[? _] ?]. }
  revert regs st Hq Hag Hinv Hrun.
  induction Hcs as [|c cs Hc Hcs IH]; intros regs st Hq Hag Hinv.
  - by intros [= <-].
  - cbn [run_calls]. rewrite bind_run.
    destruct (run_call c st) as [[] st1|] eqn:Hc1; [|done].
    destruct (run_call_generational c regs st st1 Hc Hq Hag Hinv Hc1)
      as (Hq1 & Hag1 & Hinv1).
    rewrite registered_after_cons. by apply IH.
Qed.

Lemma no_action_aging : aging no_action.
Proof.
  intros fdata v r st Hr. exists (mem st). split.
  - by destruct st.
  - apply aged_mem_refl.
Qed.

End generational_invariant_sequences.

(** With tagged integers and the young generation in [(lo, hi)], moving the
    young blocks by an even number of bytes that is not less than [hi - lo]
    is a promoting action. *)
Lemma oldify_action_promoting (lo hi k : Z) :
  hi - lo ≤ 2 * k →
  promoting (AC := tagged_address_class lo hi)
    (oldify_action (AC := tagged_address_class lo hi) (2 * k)).
Proof.
  intros Hk fdata v r st Hr. unfold oldify_action.
  destruct (Is_young v) eqn:Hy.
  - exists (<[r := v + 2 * k]> (mem st)). split; [by erewrite store_run|].
    assert (Is_young (AddressClass := tagged_address_class lo hi)
              (v + 2 * k) = false) as Hy'.
    { cbn in Hy |- *. apply andb_true_iff in Hy as [Hlo Hhi].
      apply Z.ltb_lt in Hlo. apply andb_false_iff. right.
      apply Z.ltb_ge. lia. }
    assert (aged (AC := tagged_address_class lo hi) v (v + 2 * k)) as Hag.
    { unfold aged, classify_gc_root. rewrite Hy, Hy'.
      assert (Is_block (AddressClass := tagged_address_class lo hi)
                (v + 2 * k) =
              Is_block (AddressClass := tagged_address_class lo hi) v)
        as -> by (cbn; by rewrite tagged_block_shift).
      destruct (Is_block v); cbn; auto. }
    split_and!.
    + split.
      * intros a w Ha. destruct (decide (a = r)) as [->|Hne].
        -- exists (v + 2 * k). rewrite lookup_insert_eq. split; [done|].
           by assert (w = v) as -> by congruence.
        -- exists w. rewrite lookup_insert_ne by done.
           split; [done|apply aged_refl].
      * intros a w' Ha. destruct (decide (a = r)) as [->|Hne].
        -- by eexists.
        -- rewrite lookup_insert_ne in Ha by done. by eexists.
    + exists (v + 2 * k). rewrite lookup_insert_eq. split; [done|].
      unfold classify_gc_root. rewrite Hy'.
      by destruct (Is_block (v + 2 * k)).
  - exists (mem st). split_and!.
    + by destruct st.
    + apply aged_mem_refl.
    + exists v. split; [done|]. unfold classify_gc_root. rewrite Hy.
      by destruct (Is_block v).
Qed.

Lemma generational_invariant_kept_witness :
  ∃ st',
    run_calls (AC := sample_class) sample_calls sample_state = Done tt st' ∧
    roots_mutex st' = false ∧
    lists_agree (AC := sample_class) st' ∧
    generational_invariant (AC := sample_class)
      (registered_after sample_calls ∅) st'.
Proof.
  eexists. split; [vm_compute; reflexivity|].
  apply (generational_invariant_kept (AC := sample_class)
           sample_calls ∅ sample_state).
  - split; reflexivity.
  - split; intros r d Hr; cbn in Hr; by rewrite lookup_empty in Hr.
  - split_and!.
    + intros r v Hr. by apply not_elem_of_empty in Hr.
    + intros r v Hr. by apply not_elem_of_empty in Hr.
    + intros r v _ _. cbn. by rewrite !lookup_empty.
  - unfold sample_calls.
    repeat first [apply Forall_nil_2 | apply Forall_cons_2];
      cbn [call_collecting]; try exact I.
    + exact (no_action_aging (AC := sample_class)).
    + apply (oldify_action_promoting 4096 8192 4096). lia.
  - vm_compute. reflexivity.
Defined.

(** ** Removing a root in the course of a scan *)

Lemma skiplist_cells_sorted (sk : gmap Z Z) :
  StronglySorted Z.le (skiplist_cells sk).
Proof. apply StronglySorted_merge_sort; apply _. Qed.

(** The cells before a cell of the walk have smaller keys, the cells after
    it greater keys. *)
Lemma skiplist_cells_split (sk : gmap Z Z) pre B post :
  skiplist_cells sk = pre ++ B :: post →
  NoDup pre ∧ NoDup post ∧
  (B ∉ pre) ∧ (B ∉ post) ∧
  (∀ k, k ∈ pre → k < B ∧ k ∉ post) ∧
  (∀ k, k ∈ post → B < k ∧ k ∉ pre) ∧
  (∀ k, is_Some (sk !! k) ↔ k ∈ pre ∨ k = B ∨ k ∈ post).
Proof.
  intros Hsplit.
  pose proof (skiplist_cells_NoDup sk) as Hnd.
  pose proof (skiplist_cells_sorted sk) as Hsorted.
  rewrite Hsplit in Hnd, Hsorted.
  apply NoDup_app in Hnd as (Hndpre & Hdisj & Hndpost).
  apply NoDup_cons in Hndpost as [HBpost Hndpost].
  apply StronglySorted_app in Hsorted as (Hle & _ & Hsorted).
  apply StronglySorted_cons in Hsorted as [Hlepost _].
  rewrite Forall_forall in Hlepost.
  assert (B ∉ pre) as HBpre.
  { intros Hin. apply (Hdisj B Hin). by left. }
  assert (∀ k, k ∈ pre → k ∉ post) as Hpp.
  { intros k Hk Hk'. apply (Hdisj k Hk). by right. }
  split_and!; try done.
  - intros k Hk. split; [|by apply Hpp].
    assert (k ≤ B) by (apply Hle; [done|by left]).
    assert (k ≠ B) by (by intros ->). lia.
  - intros k Hk. split.
    + assert (B ≤ k) by by apply Hlepost.
      assert (k ≠ B) by (by intros ->). lia.
    + intros Hk'. by apply (Hpp k).
  - intros k. rewrite <- skiplist_cells_elem_of, Hsplit.
    rewrite elem_of_app, elem_of_cons. tauto.
Qed.

Lemma times_scanned_filter_NoDup r (P : Z → Prop) `{!∀ x, Decision (P x)}
    (cells : list Z) (new : list (Z * Z)) :
  NoDup cells →
  new.*1 = filter P cells →
  times_scanned r new =
    if decide (r ∈ cells ∧ P r) then 1%nat else 0%nat.
Proof.
  intros Hnd Hnew. unfold times_scanned. rewrite Hnew.
  rewrite filter_eq_NoDup_length by by apply NoDup_filter.
  apply decide_ext. rewrite list_elem_of_filter. tauto.
Qed.

Lemma live_count_ext (sk sk' : gmap Z Z) r :
  sk' !! r = sk !! r → live_count sk' r = live_count sk r.
Proof.
  intros Hr. unfold live_count, present. apply decide_ext. by rewrite Hr.
Qed.

Lemma live_count_absent_or_deleted (sk : gmap Z Z) r :
  sk !! r = Some ROOT_DELETED ∨ sk !! r = None → live_count sk r = 0%nat.
Proof.
  intros Hr. unfold live_count. rewrite decide_False; [done|].
  intros (d & Hd & Hne). destruct Hr as [Hr|Hr]; congruence.
Qed.

Lemma iterate_action_remove_other B C rootlist fdata e st :
  e ≠ B →
  iterate_action (remove_when_visiting B C) rootlist fdata e st =
    iterate_action no_action rootlist fdata e st.
Proof.
  intros He. unfold iterate_action. rewrite !bind_run.
  destruct (cell_data rootlist e st) as [d st1|]; [|done].
  destruct (d =? ROOT_DELETED); [done|]. rewrite !bind_run.
  destruct (load e st1) as [v st2|]; [|done]. rewrite !bind_run.
  destruct (note_call e v st2) as [[] st3|]; [|done].
  unfold remove_when_visiting, no_action. by rewrite decide_False.
Qed.

Lemma foreach_remove_other B C rootlist fdata cells st :
  B ∉ cells →
  foreach (iterate_action (remove_when_visiting B C) rootlist fdata)
    cells st =
  foreach (iterate_action no_action rootlist fdata) cells st.
Proof.
  intros HB. apply foreach_ext. intros e st' He.
  apply iterate_action_remove_other. by intros ->.
Qed.

Lemma caml_iterate_global_roots_remove_other B C rootlist fdata st :
  deref rootlist st !! B = None →
  caml_iterate_global_roots (remove_when_visiting B C) rootlist fdata st =
    caml_iterate_global_roots no_action rootlist fdata st.
Proof.
  intros HB. unfold caml_iterate_global_roots, FOREACH_SKIPLIST_ELEMENT.
  apply foreach_remove_other.
  rewrite skiplist_cells_elem_of, HB. by intros [? [=]].
Qed.

Lemma times_scanned_singleton r k v :
  times_scanned r [(k, v)] = if decide (k = r) then 1%nat else 0%nat.
Proof.
  unfold times_scanned. cbn [fmap list_fmap fst].
  rewrite filter_cons, filter_nil. by case_decide.
Qed.

Section removal_walk.
Context {AC : AddressClass}.

(** The walk of the mutable roots with the action that removes [C] when it
    visits [B]. *)
Lemma mutable_walk_with_removal (B C fdata : Z) (st : state) :
  0 < iterating_roots st →
  (∀ k, is_Some (caml_global_roots st !! k) → is_Some (mem st !! k)) →
  caml_global_roots st !! B = Some ROOT_PRESENT →
  caml_global_roots st !! C = Some ROOT_PRESENT →
  B ≠ C →
  ∃ st' new,
    caml_iterate_global_roots (remove_when_visiting B C) GLOBAL_ROOTS
      fdata st = Done tt st' ∧
    roots_mutex st' = roots_mutex st ∧
    iterating_roots st' = iterating_roots st ∧
    caml_global_roots_young st' = caml_global_roots_young st ∧
    caml_global_roots_old st' = caml_global_roots_old st ∧
    same_blocks (mem st) (mem st') ∧
    caml_global_roots st' !! C =
      (if decide (C < B) then Some ROOT_DELETED else None) ∧
    (∀ k, k ≠ C →
          caml_global_roots st' !! k = purge (caml_global_roots st) !! k) ∧
    scanned st' = scanned st ++ new ∧
    times_scanned C new = (if decide (C < B) then 1%nat else 0%nat) ∧
    (∀ r, r ≠ C → times_scanned r new = live_count (caml_global_roots st) r).
Proof.
  intros Hit Hmap HB HC Hne.
  unfold caml_iterate_global_roots, FOREACH_SKIPLIST_ELEMENT. cbn [deref].
  assert (B ∈ skiplist_cells (caml_global_roots st)) as HBin.
  { apply skiplist_cells_elem_of. rewrite HB. eauto. }
  apply list_elem_of_split in HBin as (pre & post & Hsplit).
  destruct (skiplist_cells_split _ _ _ _ Hsplit)
    as (Hndpre & Hndpost & HBpre & HBpost & Hpre & Hpost & Hcells).
  rewrite Hsplit, foreach_app, bind_run, foreach_remove_other by done.
  (* the cells before [B] *)
  destruct (foreach_relocating no_action GLOBAL_ROOTS fdata pre
              no_action_relocating st Hndpre)
    as (stp & -> & Hmxp & Hitp & Hothp & Hlp & Hmemp & newp & Hscp & Hnewp).
  { intros k Hk. assert (is_Some (caml_global_roots st !! k)) as Hs.
    { apply Hcells. by left. }
    split; [done|by apply Hmap]. }
  cbn [deref] in Hlp, Hnewp.
  pose proof (Hothp GLOBAL_ROOTS_YOUNG ltac:(done)) as Hpy.
  pose proof (Hothp GLOBAL_ROOTS_OLD ltac:(done)) as Hpo.
  cbn in Hpy, Hpo.
  (* the cell of [B] *)
  assert (caml_global_roots stp !! B = Some ROOT_PRESENT) as HBp.
  { rewrite Hlp, decide_False; [done|]. by intros [? _]. }
  destruct (Hmap B) as [w Hw]; [by rewrite HB; eauto|].
  destruct (Hmemp B w Hw) as (w' & Hw' & _).
  simpl foreach. rewrite bind_run.
  unfold iterate_action at 1, cell_data. rewrite bind_run. cbn [deref].
  rewrite HBp. change (ROOT_PRESENT =? ROOT_DELETED) with false. cbv iota.
  rewrite bind_run, (load_run B w') by done. rewrite bind_run.
  unfold note_call at 1. unfold remove_when_visiting at 1.
  rewrite decide_True by done. unfold caml_remove_global_root.
  rewrite caml_delete_global_root_iterating by (cbn; lia).
  set (stn := set_scanned (scanned stp ++ [(B, w')]) stp).
  set (stq := assign GLOBAL_ROOTS (tombstone C (deref GLOBAL_ROOTS stn)) stn).
  assert (∀ k, caml_global_roots stq !! k =
               if decide (C = k)
               then (λ _, ROOT_DELETED) <$> caml_global_roots stp !! k
               else caml_global_roots stp !! k) as Hlq.
  { intros k. cbn. apply tombstone_lookup. }
  (* the cells after [B] *)
  rewrite foreach_remove_other by done.
  destruct (foreach_relocating no_action GLOBAL_ROOTS fdata post
              no_action_relocating stq Hndpost)
    as (stc & -> & Hmxc & Hitc & Hothc & Hlc & Hmemc & newc & Hscc & Hnewc).
  { intros k Hk. destruct (Hpost k Hk) as [_ Hkpre].
    assert (is_Some (caml_global_roots st !! k)) as Hs.
    { apply Hcells. by right; right. }
    split.
    - cbn. apply tombstone_is_Some. rewrite Hlp, decide_False; [done|].
      by intros [? _].
    - cbn. eapply same_blocks_is_Some; [done|]. by apply Hmap. }
  cbn [deref] in Hlc, Hnewc.
  pose proof (Hothc GLOBAL_ROOTS_YOUNG ltac:(done)) as Hcy.
  pose proof (Hothc GLOBAL_ROOTS_OLD ltac:(done)) as Hco.
  cbn in Hcy, Hco.
  (* where [C] is *)
  assert (C ∈ pre ∧ C < B ∨ C ∈ post ∧ B < C) as HCwhere.
  { assert (is_Some (caml_global_roots st !! C)) as Hs
      by (rewrite HC; eauto).
    destruct (proj1 (Hcells C) Hs) as [Hin|[Heq|Hin]].
    - left. split; [done|]. by apply Hpre.
    - by destruct Hne.
    - right. split; [done|]. by apply Hpost. }
  assert (caml_global_roots stp !! C = Some ROOT_PRESENT) as HCp.
  { rewrite Hlp, decide_False; [done|]. rewrite HC. by intros [_ [=]]. }
  assert (caml_global_roots stq !! C = Some ROOT_DELETED) as HCq.
  { by rewrite Hlq, decide_True, HCp. }
  exists stc, (newp ++ [(B, w')] ++ newc). split; [done|]. split_and!.
  - by rewrite Hmxc, <- Hmxp.
  - by rewrite Hitc, <- Hitp.
  - by rewrite Hcy, <- Hpy.
  - by rewrite Hco, <- Hpo.
  - by eapply same_blocks_trans.
  - rewrite Hlc, HCq. destruct HCwhere as [[Hin Hlt]|[Hin Hlt]].
    + rewrite decide_False by (intros [Hpo' _]; by apply (Hpre C)).
      by rewrite decide_True.
    + rewrite decide_True by done. rewrite decide_False; [done|lia].
  - intros k Hk. rewrite Hlc, Hlq.
    rewrite (decide_False (P := C = k)) by (by intros ->).
    rewrite Hlp, purge_lookup.
    destruct (decide (caml_global_roots st !! k = Some ROOT_DELETED))
      as [Hd|Hd].
    + destruct (decide (k ∈ pre)) as [Hin|Hin].
      * rewrite (decide_True (P := k ∈ pre ∧ _)) by done.
        rewrite decide_False; [done|]. by intros [_ [=]].
      * rewrite (decide_False (P := k ∈ pre ∧ _)) by (by intros [? _]).
        rewrite decide_True; [done|]. split; [|done].
        assert (is_Some (caml_global_roots st !! k)) as Hs
          by (rewrite Hd; eauto).
        destruct (proj1 (Hcells k) Hs) as [?|[Heq|?]]; [done| |done].
        subst k. by rewrite HB in Hd.
    + rewrite (decide_False (P := k ∈ pre ∧ _)) by (by intros [_ ?]).
      rewrite decide_False; [done|]. by intros [_ ?].
  - rewrite Hscc. cbn. rewrite Hscp. by rewrite <- !app_assoc.
  - rewrite !times_scanned_app, times_scanned_singleton.
    rewrite (times_scanned_filter_NoDup C _ pre newp Hndpre Hnewp).
    rewrite (times_scanned_filter_NoDup C _ post newc Hndpost Hnewc).
    rewrite (decide_False (P := B = C)) by done.
    rewrite (decide_False (P := C ∈ post ∧ _)).
    2:{ intros [_ (d & Hd & Hdne)]. congruence. }
    destruct HCwhere as [[Hin Hlt]|[Hin Hlt]].
    + rewrite decide_True; [by rewrite decide_True|].
      split; [done|]. by exists ROOT_PRESENT.
    + rewrite decide_False.
      * rewrite decide_False; [done|lia].
      * intros [Hin' _]. by apply (Hpost C).
  - intros r Hr. rewrite !times_scanned_app, times_scanned_singleton.
    rewrite (times_scanned_filter_NoDup r _ pre newp Hndpre Hnewp).
    rewrite (times_scanned_filter_NoDup r _ post newc Hndpost Hnewc).
    assert (r ∈ post →
            (present (caml_global_roots stq) r ↔
             present (caml_global_roots st) r)) as Hpres.
    { intros Hin. unfold present. rewrite Hlq.
      rewrite (decide_False (P := C = r)) by (by intros ->).
      rewrite Hlp. destruct (Hpost r Hin) as [_ Hnin].
      rewrite decide_False; [done|]. by intros [? _]. }
    unfold live_count.
    destruct (decide (present (caml_global_roots st) r)) as [Hp|Hp].
    + assert (is_Some (caml_global_roots st !! r)) as Hs.
      { destruct Hp as (d & -> & _). eauto. }
      destruct (proj1 (Hcells r) Hs) as [Hin|[->|Hin]].
      * rewrite decide_True by done.
        rewrite decide_False by (intros ->; by apply HBpre).
        rewrite decide_False; [done|].
        intros [Hin' _]. by apply (Hpre r).
      * rewrite decide_False by (by intros [? _]).
        rewrite decide_True by done.
        rewrite decide_False; [done|]. by intros [? _].
      * rewrite decide_False by (intros [Hin' _]; by apply (Hpost r)).
        rewrite decide_False by (intros ->; by apply HBpost).
        rewrite decide_True; [done|]. split; [done|]. by apply Hpres.
    + rewrite decide_False by (by intros [_ ?]).
      rewrite decide_False.
      2:{ intros <-. apply Hp. by exists ROOT_PRESENT. }
      rewrite decide_False; [done|]. intros [Hin Hp']. by apply Hp, Hpres.
Qed.

End removal_walk.

Section removal_during_scan_claim.
Context {AC : AddressClass}.

(** X11. A mutable root removed in the course of a scan. [B] and [C] are
    two live mutable roots, [B] is not a generational root, every
    registered root is allocated and no scan is under way. A full scan
    whose action removes [C] when it is called on [B] returns; it has
    called its action exactly once for every live entry other than that of
    [C], and on the mutable root [C] once if [C] is before [B] in the
    order of the addresses, and not at all if it is after. The entry of
    [C] is then a deleted entry, respectively no entry, of the list of
    mutable roots. A later full scan finds no entry of [C] in that list
    when it returns, has not called its action on the mutable root [C],
    and has called it once for every other live entry. *)
Theorem removal_during_scan (B C fdata gdata : Z) (g : scanning_action)
    (st : state) :
  quiescent st →
  roots_mapped st →
  caml_global_roots st !! B = Some ROOT_PRESENT →
  caml_global_roots st !! C = Some ROOT_PRESENT →
  B ≠ C →
  caml_global_roots_young st !! B = None →
  caml_global_roots_old st !! B = None →
  relocating g →
  ∃ st1 log1,
    caml_scan_global_roots (remove_when_visiting B C) fdata st =
      Done tt st1 ∧
    quiescent st1 ∧
    scanned st1 = scanned st ++ log1 ∧
    (∀ r, r ≠ C →
          times_scanned r log1 =
            (live_count (caml_global_roots st) r +
             live_count (caml_global_roots_young st) r +
             live_count (caml_global_roots_old st) r)%nat) ∧
    times_scanned C log1 =
      ((if decide (C < B)%Z then 1 else 0) +
       live_count (caml_global_roots_young st) C +
       live_count (caml_global_roots_old st) C)%nat ∧
    caml_global_roots st1 !! C =
      (if decide (C < B) then Some ROOT_DELETED else None) ∧
    ∃ st2 log2,
      caml_scan_global_roots g gdata st1 = Done tt st2 ∧
      scanned st2 = scanned st1 ++ log2 ∧
      caml_global_roots st2 !! C = None ∧
      times_scanned C log2 =
        (live_count (caml_global_roots_young st) C +
         live_count (caml_global_roots_old st) C)%nat ∧
      (∀ r, r ≠ C →
            times_scanned r log2 =
              (live_count (caml_global_roots st) r +
               live_count (caml_global_roots_young st) r +
               live_count (caml_global_roots_old st) r)%nat).
Proof.
  intros [Hmx Hit] Hmap HB HC Hne HBy HBo Hg.
  unfold caml_scan_global_roots at 1.
  rewrite bind_run. unfold caml_plat_lock_blocking at 1. rewrite Hmx.
  rewrite bind_run. unfold incr_iterating_roots at 1.
  cbn [iterating_roots set_mutex].
  rewrite Hit. change (0 <? INT_MAX) with true. cbv iota.
  set (sta := set_iterating (0 + 1) (set_mutex true st)).
  (* the mutable roots *)
  destruct (mutable_walk_with_removal B C fdata sta)
    as (stb & newb & Hrunb & Hmxb & Hitb & Hby & Hbo & Hmemb & HCb & Hlb &
        Hscb & HnewC & Hnewb); try done.
  { intros k Hk. by apply (Hmap GLOBAL_ROOTS). }
  cbn in Hmxb, Hitb, Hby, Hbo, Hmemb, HCb, Hlb, Hscb, HnewC, Hnewb.
  rewrite bind_run, Hrunb.
  (* the young roots *)
  rewrite bind_run, caml_iterate_global_roots_remove_other
    by (cbn; by rewrite Hby).
  destruct (caml_iterate_global_roots_relocating no_action GLOBAL_ROOTS_YOUNG
              fdata stb no_action_relocating)
    as (stc & -> & Hmxc & Hitc & Hothc & Hlc & Hmemc & newc & Hscc & Hnewc).
  { intros k Hk. cbn in Hk. rewrite Hby in Hk.
    eapply same_blocks_is_Some; [done|]. by apply (Hmap GLOBAL_ROOTS_YOUNG). }
  pose proof (Hothc GLOBAL_ROOTS ltac:(done)) as Hcm.
  pose proof (Hothc GLOBAL_ROOTS_OLD ltac:(done)) as Hco.
  cbn in Hcm, Hco, Hlc, Hnewc.
  (* the old roots *)
  rewrite bind_run, caml_iterate_global_roots_remove_other
    by (cbn; by rewrite Hco, Hbo).
  destruct (caml_iterate_global_roots_relocating no_action GLOBAL_ROOTS_OLD
              fdata stc no_action_relocating)
    as (std & -> & Hmxd & Hitd & Hothd & Hld & Hmemd & newd & Hscd & Hnewd).
  { intros k Hk. cbn in Hk. rewrite Hco, Hbo in Hk.
    eapply same_blocks_is_Some; [done|].
    eapply same_blocks_is_Some; [done|]. by apply (Hmap GLOBAL_ROOTS_OLD). }
  pose proof (Hothd GLOBAL_ROOTS ltac:(done)) as Hdm.
  pose proof (Hothd GLOBAL_ROOTS_YOUNG ltac:(done)) as Hdy.
  cbn in Hdm, Hdy, Hld, Hnewd.
  rewrite bind_run. unfold decr_iterating_roots at 1.
  rewrite Hitd, Hitc, Hitb.
  change (INT_MIN <? 0 + 1) with true. cbv iota.
  set (st1 := set_iterating (0 + 1 - 1) std).
  unfold caml_plat_unlock at 1.
  assert (caml_global_roots (set_mutex false st1) = caml_global_roots stb)
    as Hm1 by (cbn; by rewrite Hdm, Hcm).
  assert (caml_global_roots_young (set_mutex false st1) =
            purge (caml_global_roots_young st)) as Hy1
    by (cbn; by rewrite Hdy, Hlc, Hby).
  assert (caml_global_roots_old (set_mutex false st1) =
            purge (caml_global_roots_old st)) as Ho1
    by (cbn; by rewrite Hld, Hco, Hbo).
  assert (same_blocks (mem st) (mem (set_mutex false st1))) as Hmem1.
  { cbn. eapply same_blocks_trans; [exact Hmemb|].
    eapply same_blocks_trans; [exact Hmemc|exact Hmemd]. }
  exists (set_mutex false st1), (newb ++ newc ++ newd).
  split; [done|]. split; [done|]. split.
  { cbn. rewrite Hscd, Hscc, Hscb. cbn. by rewrite !app_assoc. }
  split.
  { intros r Hr. rewrite !times_scanned_app, Hnewb, Hnewc, Hnewd by done.
    rewrite Hby, Hco, Hbo. lia. }
  split.
  { rewrite !times_scanned_app, HnewC, Hnewc, Hnewd.
    rewrite Hby, Hco, Hbo. lia. }
  split; [by rewrite Hm1|].
  (* the later scan *)
  destruct (caml_scan_global_roots_relocating g gdata (set_mutex false st1) Hg)
    as (st2 & Hrun2 & _ & Hm2 & _ & _ & _ & log2 & Hsc2 & Hlog2).
  { done. }
  { apply (roots_mapped_step st); [done| |done].
    intros l k Hk. destruct l.
    - exists GLOBAL_ROOTS. cbn [deref] in Hk |- *. rewrite Hm1 in Hk.
      destruct (decide (k = C)) as [->|HkC]; [by rewrite HC; eauto|].
      rewrite Hlb in Hk by done. by apply purge_is_Some.
    - exists GLOBAL_ROOTS_YOUNG. cbn [deref] in Hk |- *. rewrite Hy1 in Hk.
      by apply purge_is_Some.
    - exists GLOBAL_ROOTS_OLD. cbn [deref] in Hk |- *. rewrite Ho1 in Hk.
      by apply purge_is_Some. }
  exists st2, log2. split; [done|]. split; [done|]. split_and!.
  - rewrite Hm2, purge_lookup, Hm1, HCb. by repeat case_decide.
  - rewrite Hlog2, Hy1, Ho1, !live_count_purge.
    rewrite (live_count_absent_or_deleted (caml_global_roots _)); [done|].
    rewrite Hm1, HCb. case_decide; auto.
  - intros r Hr. rewrite Hlog2, Hy1, Ho1, !live_count_purge.
    rewrite (live_count_ext (purge (caml_global_roots st))
               (caml_global_roots (set_mutex false st1)))
      by (rewrite Hm1; by apply Hlb).
    by rewrite live_count_purge.
Qed.

End removal_during_scan_claim.

(** ** A scanning action that registers a root *)

Lemma foreach_registering_action X rootlist fdata cells : ∀ st,
  roots_mutex st = true →
  NoDup cells →
  (∀ k, k ∈ cells →
        is_Some (deref rootlist st !! k) ∧ is_Some (mem st !! k)) →
  ((∃ k, k ∈ cells ∧ present (deref rootlist st) k) →
     foreach (iterate_action (registering_action X) rootlist fdata)
       cells st = Stuck Blocked) ∧
  ((∀ k, k ∈ cells → ¬ present (deref rootlist st) k) →
     ∃ st',
       foreach (iterate_action (registering_action X) rootlist fdata)
         cells st = Done tt st' ∧
       roots_mutex st' = true ∧
       iterating_roots st' = iterating_roots st ∧
       mem st' = mem st ∧
       (∀ l, l ≠ rootlist → deref l st' = deref l st)).
Proof.
  induction cells as [|e cells IH]; intros st Hmx Hnd Hin.
  - split.
    + by intros (k & Hk%elem_of_nil & _).
    + intros _. by exists st.
  - apply NoDup_cons in Hnd as [He Hnd].
    destruct (Hin e) as [[d Hd] [w Hw]]; [by left|].
    simpl foreach.
    destruct (decide (d = ROOT_DELETED)) as [->|Hne].
    + (* a deleted entry: it is unlinked and the walk goes on *)
      assert (iterate_action (registering_action X) rootlist fdata e st =
              Done tt (assign rootlist (delete e (deref rootlist st)) st))
        as Hstep.
      { unfold iterate_action, cell_data. by rewrite bind_run, Hd. }
      set (st1 := assign rootlist (delete e (deref rootlist st)) st) in *.
      assert (∀ k, k ∈ cells →
                   deref rootlist st1 !! k = deref rootlist st !! k) as Hl1.
      { intros k Hk. unfold st1. rewrite assign_deref_same.
        apply lookup_delete_ne. by intros ->. }
      destruct (IH st1) as [IHb IHd];
        [by unfold st1; rewrite assign_roots_mutex|done| |].
      { intros k Hk. rewrite (Hl1 k Hk). unfold st1. rewrite assign_mem.
        apply Hin. by right. }
      rewrite bind_run, Hstep. split.
      * intros (k & [->|Hk]%elem_of_cons & Hp).
        -- destruct Hp as (d & Hd' & Hne). congruence.
        -- apply IHb. exists k. split; [done|]. unfold present.
           by rewrite (Hl1 k Hk).
      * intros Hall. destruct IHd as (st' & Hrun & Hmx' & Hit' & Hmem' & Hoth').
        { intros k Hk Hp. apply (Hall k); [by right|]. unfold present in *.
          by rewrite <- (Hl1 k Hk). }
        exists st'. split; [done|]. split_and!; try done.
        -- by rewrite Hit'; apply assign_iterating_roots.
        -- by rewrite Hmem'; apply assign_mem.
        -- intros l Hl. rewrite Hoth' by done. by apply assign_deref_other.
    + (* a live entry: the action is called and waits for the mutex *)
      assert (iterate_action (registering_action X) rootlist fdata e st =
              Stuck Blocked) as Hstep.
      { unfold iterate_action, cell_data. rewrite bind_run, Hd.
        destruct (Z.eqb_spec d ROOT_DELETED) as [|_]; [done|].
        rewrite bind_run, (load_run e w) by done. rewrite bind_run.
        unfold note_call at 1. unfold registering_action.
        by apply caml_insert_global_root_blocked. }
      rewrite bind_run, Hstep. split; [done|].
      intros Hall. destruct (Hall e); [by left|]. by exists d.
Qed.

(** The walk of a whole list with a registering action. *)
Lemma caml_iterate_global_roots_registering X rootlist fdata st :
  roots_mutex st = true →
  (∀ k, is_Some (deref rootlist st !! k) → is_Some (mem st !! k)) →
  ((∃ k, present (deref rootlist st) k) →
     caml_iterate_global_roots (registering_action X) rootlist fdata st =
       Stuck Blocked) ∧
  ((∀ k, ¬ present (deref rootlist st) k) →
     ∃ st',
       caml_iterate_global_roots (registering_action X) rootlist fdata st =
         Done tt st' ∧
       roots_mutex st' = true ∧
       iterating_roots st' = iterating_roots st ∧
       mem st' = mem st ∧
       (∀ l, l ≠ rootlist → deref l st' = deref l st)).
Proof.
  intros Hmx Hmap.
  destruct (foreach_registering_action X rootlist fdata
              (skiplist_cells (deref rootlist st)) st Hmx)
    as [Hb Hd].
  { apply skiplist_cells_NoDup. }
  { intros k Hk%skiplist_cells_elem_of. auto. }
  split.
  - intros (k & Hk). apply Hb. exists k. split; [|done].
    apply skiplist_cells_elem_of. destruct Hk as (d & -> & _). eauto.
  - intros Hall. apply Hd. intros k _. apply Hall.
Qed.

Lemma present_or_none (sk : gmap Z Z) :
  (∃ k, present sk k) ∨ (∀ k, ¬ present sk k).
Proof.
  destruct (decide (Exists (present sk) (skiplist_cells sk))) as [He|He].
  - left. apply Exists_exists in He as (k & _ & Hk). by exists k.
  - right. intros k Hk. apply He, Exists_exists. exists k. split; [|done].
    apply skiplist_cells_elem_of. destruct Hk as (d & -> & _). eauto.
Qed.

(** X12. A scanning action must not register roots. With no scan under
    way and every registered root allocated, a full scan whose action
    registers a mutable root never returns when one of the three lists has
    a live entry: the first call of the action waits for the mutex that the
    scan itself holds. *)
Theorem registering_action_blocks_scan (X fdata : Z) (list : skiplist_ptr)
    (k : Z) (st : state) :
  quiescent st →
  roots_mapped st →
  present (deref list st) k →
  caml_scan_global_roots (registering_action X) fdata st = Stuck Blocked.
Proof.
  intros [Hmx Hit] Hmap Hk. unfold caml_scan_global_roots.
  rewrite bind_run. unfold caml_plat_lock_blocking at 1. rewrite Hmx.
  rewrite bind_run. unfold incr_iterating_roots at 1.
  cbn [iterating_roots set_mutex].
  rewrite Hit. change (0 <? INT_MAX) with true. cbv iota.
  set (sta := set_iterating (0 + 1) (set_mutex true st)).
  rewrite bind_run.
  destruct (caml_iterate_global_roots_registering X GLOBAL_ROOTS fdata sta)
    as [Hb1 Hd1]; [done|by apply (Hmap GLOBAL_ROOTS)|].
  destruct (present_or_none (caml_global_roots st)) as [Hp1|Hn1].
  { by rewrite Hb1. }
  destruct (Hd1 Hn1) as (stb & -> & Hmxb & _ & Hmemb & Hothb).
  rewrite bind_run.
  destruct (caml_iterate_global_roots_registering X GLOBAL_ROOTS_YOUNG
              fdata stb) as [Hb2 Hd2]; [done| |].
  { intros r Hr. rewrite Hmemb. rewrite Hothb in Hr by done.
    by apply (Hmap GLOBAL_ROOTS_YOUNG). }
  rewrite (Hothb GLOBAL_ROOTS_YOUNG) in Hb2, Hd2 by done.
  destruct (present_or_none (caml_global_roots_young st)) as [Hp2|Hn2].
  { by rewrite Hb2. }
  destruct (Hd2 Hn2) as (stc & -> & Hmxc & _ & Hmemc & Hothc).
  rewrite bind_run.
  destruct (caml_iterate_global_roots_registering X GLOBAL_ROOTS_OLD
              fdata stc) as [Hb3 _]; [done| |].
  { intros r Hr. rewrite Hmemc, Hmemb.
    rewrite Hothc, Hothb in Hr by done. by apply (Hmap GLOBAL_ROOTS_OLD). }
  rewrite (Hothc GLOBAL_ROOTS_OLD), (Hothb GLOBAL_ROOTS_OLD) in Hb3 by done.
  destruct list.
  - destruct (Hn1 k Hk).
  - destruct (Hn2 k Hk).
  - rewrite Hb3; [done|]. by exists k.
Qed.

(** ** The dynamic globals *)

Lemma register_dyn_globals_loop_run sizeof_ptr globals gs : ∀ i dyn st,
  0 ≤ i →
  (∀ j g, gs !! j = Some g →
          mem st !! (globals + (i + Z.of_nat j) * sizeof_ptr) = Some g) →
  register_dyn_globals_loop sizeof_ptr globals i (length gs) dyn st =
    Done (reverse gs ++ dyn) st.
Proof.
  induction gs as [|g gs IH]; intros i dyn st Hi Hmem.
  - done.
  - cbn [length register_dyn_globals_loop]. rewrite bind_run.
    erewrite load_run; cycle 1.
    { specialize (Hmem 0%nat g eq_refl).
      by rewrite Z.add_0_r in Hmem. }
    rewrite IH; [|lia|].
    + by rewrite reverse_cons, <- app_assoc.
    + intros j g' Hj. specialize (Hmem (S j) g' Hj).
      by replace (i + 1 + Z.of_nat j) with (i + Z.of_nat (S j)) by lia.
Qed.

(** X13. Registration of dynamic globals. With the mutex free and the
    array [globals] of [nglobals] words allocated,
    [caml_register_dyn_globals] returns with the words of the array put in
    front of [caml_dyn_globals], the last word of the array first; the
    mutex is free again and nothing else has changed. With [nglobals] zero
    or negative the list is unchanged, and while the mutex is held the call
    does not return. *)
Theorem register_dyn_globals_prepends (sizeof_ptr globals : Z)
    (gs dyn : list Z) (st : state) :
  (∀ j g, gs !! j = Some g →
          mem st !! (globals + Z.of_nat j * sizeof_ptr) = Some g) →
  (roots_mutex st = false →
     caml_register_dyn_globals sizeof_ptr globals (Z.of_nat (length gs))
       dyn st = Done (reverse gs ++ dyn) st) ∧
  (∀ nglobals, nglobals ≤ 0 → roots_mutex st = false →
     caml_register_dyn_globals sizeof_ptr globals nglobals dyn st =
       Done dyn st) ∧
  (∀ nglobals, roots_mutex st = true →
     caml_register_dyn_globals sizeof_ptr globals nglobals dyn st =
       Stuck Blocked).
Proof.
  intros Hmem. split_and!.
  - intros Hmx. unfold caml_register_dyn_globals.
    rewrite bind_run. unfold caml_plat_lock_blocking at 1. rewrite Hmx.
    rewrite bind_run, Nat2Z.id.
    rewrite register_dyn_globals_loop_run; [|lia|done].
    cbn. by destruct st; cbn in *; subst.
  - intros nglobals Hn Hmx. unfold caml_register_dyn_globals.
    rewrite bind_run. unfold caml_plat_lock_blocking at 1. rewrite Hmx.
    rewrite bind_run. replace (Z.to_nat nglobals) with 0%nat by lia.
    cbn. by destruct st; cbn in *; subst.
  - intros nglobals Hmx. unfold caml_register_dyn_globals.
    rewrite bind_run. unfold caml_plat_lock_blocking at 1. by rewrite Hmx.
Qed.

(** ** The further properties at sample states *)

Lemma registered_state_agree : lists_agree (AC := sample_class) registered_state.
Proof.
  split; intros r d Hr; cbn in Hr;
    apply lookup_singleton_Some in Hr as [<- <-]; (split; [done|]).
  - exists 4104. split; vm_compute; reflexivity.
  - exists 12288. split; vm_compute; reflexivity.
Qed.

Lemma two_mutable_roots_state_mapped : roots_mapped two_mutable_roots_state.
Proof.
  intros list k [d Hk]. destruct list; cbn in Hk.
  - apply lookup_insert_Some in Hk as [[<- _]|[_ Hk]]; [vm_compute; eauto|].
    apply lookup_singleton_Some in Hk as [<- _]. vm_compute. eauto.
  - apply lookup_singleton_Some in Hk as [<- _]. vm_compute. eauto.
  - apply lookup_singleton_Some in Hk as [<- _]. vm_compute. eauto.
Qed.

Lemma mutable_root_round_trip_witness :
  mem registered_state !! 1000 = None ∧
  ∃ st1,
    caml_register_global_root 1000 registered_state = Done tt st1 ∧
    caml_global_roots st1 !! 1000 = Some ROOT_PRESENT ∧
    caml_global_roots_young st1 = caml_global_roots_young registered_state ∧
    caml_global_roots_old st1 = caml_global_roots_old registered_state ∧
    mem st1 = mem registered_state ∧
    quiescent st1 ∧
    caml_remove_global_root 1000 st1 = Done tt registered_state.
Proof.
  split; [vm_compute; reflexivity|].
  apply (mutable_root_round_trip 1000 registered_state).
  - split; reflexivity.
  - vm_compute. reflexivity.
Defined.

Lemma modify_young_to_young_is_assignment_witness :
  caml_modify_generational_global_root (AC := sample_class) 16 4112
    scanning_state =
    Done tt (set_mem (<[16 := 4112]> (mem scanning_state)) scanning_state).
Proof.
  apply (modify_young_to_young_is_assignment (AC := sample_class)
           16 4112 4104).
  - vm_compute. reflexivity.
  - vm_compute. reflexivity.
  - vm_compute. reflexivity.
Defined.

Lemma modify_to_young_moves_root_witness :
  ∃ st',
    caml_modify_generational_global_root (AC := sample_class) 24 4120
      registered_state = Done tt st' ∧
    caml_global_roots_young st' =
      <[24 := ROOT_PRESENT]> (caml_global_roots_young registered_state) ∧
    caml_global_roots_old st' = delete 24 (caml_global_roots_old registered_state) ∧
    mem st' = <[24 := 4120]> (mem registered_state) ∧
    caml_global_roots st' = caml_global_roots registered_state ∧
    quiescent st'.
Proof.
  apply (modify_to_young_moves_root (AC := sample_class) 24 4120 12288).
  - split; reflexivity.
  - vm_compute. reflexivity.
  - vm_compute. reflexivity.
  - vm_compute. discriminate.
Defined.

Lemma modify_untracked_to_old_registers_witness :
  caml_modify_generational_global_root (AC := sample_class) 32 12288
    sample_state =
    Done tt (set_mem (<[32 := 12288]> (mem sample_state))
               (assign GLOBAL_ROOTS_OLD
                  (<[32 := ROOT_PRESENT]> (caml_global_roots_old sample_state))
                  sample_state)).
Proof.
  apply (modify_untracked_to_old_registers (AC := sample_class) 32 12288 7).
  - reflexivity.
  - vm_compute. reflexivity.
  - vm_compute. reflexivity.
  - vm_compute. reflexivity.
Defined.

Lemma insertions_wait_for_mutex_witness :
  caml_register_global_root 24 scanning_state = Stuck Blocked ∧
  caml_register_generational_global_root (AC := sample_class) 24
    scanning_state = Stuck Blocked ∧
  caml_modify_generational_global_root (AC := sample_class) 24 4120
    scanning_state = Stuck Blocked.
Proof.
  destruct (insertions_wait_for_mutex (AC := sample_class) 24 4120 12288
              scanning_state) as (Hmutable & Hregister & Hmodify & _).
  - reflexivity.
  - vm_compute. reflexivity.
  - split_and!.
    + exact Hmutable.
    + apply Hregister. vm_compute. reflexivity.
    + apply Hmodify; [vm_compute; reflexivity|vm_compute; discriminate].
Defined.

Lemma mutable_and_generational_roots_apart_witness :
  ∃ st',
    run_call (AC := sample_class)
      (Modify_generational_global_root 16 12288) registered_state =
      Done tt st' ∧
    caml_global_roots st' = caml_global_roots registered_state ∧
    mem st' = <[16 := 12288]> (mem registered_state).
Proof.
  eexists. split; [vm_compute; reflexivity|].
  apply (mutable_and_generational_roots_apart (AC := sample_class)
           (Modify_generational_global_root 16 12288) registered_state).
  vm_compute. reflexivity.
Defined.

Lemma removal_leaves_no_entry_witness :
  ∃ st',
    caml_remove_generational_global_root (AC := sample_class) 16
      registered_state = Done tt st' ∧
    caml_global_roots_young st' !! 16 = None ∧
    caml_global_roots_old st' !! 16 = None ∧
    (∀ k, k ≠ 16 →
          caml_global_roots_young st' !! k =
            caml_global_roots_young registered_state !! k ∧
          caml_global_roots_old st' !! k =
            caml_global_roots_old registered_state !! k) ∧
    lists_agree (AC := sample_class) st'.
Proof.
  apply (removal_leaves_no_entry (AC := sample_class) 16 4104).
  - split; reflexivity.
  - exact registered_state_agree.
  - vm_compute. reflexivity.
Defined.

Lemma full_scan_visits_live_roots_once_witness :
  ∃ st' new,
    caml_scan_global_roots (oldify_action (AC := sample_class) 8192) 0
      registered_state = Done tt st' ∧
    quiescent st' ∧
    scanned st' = scanned registered_state ++ new ∧
    (∀ r, times_scanned r new =
          (live_count (caml_global_roots registered_state) r +
           live_count (caml_global_roots_young registered_state) r +
           live_count (caml_global_roots_old registered_state) r)%nat) ∧
    (∀ list, deref list st' = purge (deref list registered_state)) ∧
    (∀ list k, deref list st' !! k ≠ Some ROOT_DELETED).
Proof.
  apply (full_scan_visits_live_roots_once (AC := sample_class)).
  - exact (oldify_action_relocating 4096 8192 4096).
  - split; reflexivity.
  - exact registered_state_mapped.
Defined.

Lemma minor_scan_visits_mutable_and_young_roots_witness :
  ∃ st' new,
    caml_scan_global_young_roots (oldify_action (AC := sample_class) 8192) 0
      registered_state = Done tt st' ∧
    quiescent st' ∧
    scanned st' = scanned registered_state ++ new ∧
    (∀ r, times_scanned r new =
          (live_count (caml_global_roots registered_state) r +
           live_count (caml_global_roots_young registered_state) r)%nat) ∧
    caml_global_roots st' = purge (caml_global_roots registered_state) ∧
    caml_global_roots_young st' = ∅ ∧
    (∀ r, present (caml_global_roots_young registered_state) r →
          caml_global_roots_old st' !! r = Some ROOT_PRESENT) ∧
    (∀ r, is_Some (caml_global_roots_old registered_state !! r) →
          is_Some (caml_global_roots_old st' !! r)).
Proof.
  apply (minor_scan_visits_mutable_and_young_roots (AC := sample_class)).
  - exact (oldify_action_relocating 4096 8192 4096).
  - split; reflexivity.
  - exact registered_state_mapped.
Defined.

Lemma removal_during_scan_witness :
  ∃ st1 log1,
    caml_scan_global_roots (remove_when_visiting 32 40) 0
      two_mutable_roots_state = Done tt st1 ∧
    times_scanned 40 log1 = 0%nat ∧
    times_scanned 32 log1 = 1%nat ∧
    scanned st1 = scanned two_mutable_roots_state ++ log1 ∧
    caml_global_roots st1 !! 40 = None.
Proof.
  destruct (removal_during_scan (AC := sample_class) 32 40 0 0 no_action
              two_mutable_roots_state)
    as (st1 & log1 & Hrun & _ & Hsc & Hother & HC & Hl & _).
  - split; reflexivity.
  - exact two_mutable_roots_state_mapped.
  - vm_compute. reflexivity.
  - vm_compute. reflexivity.
  - discriminate.
  - vm_compute. reflexivity.
  - vm_compute. reflexivity.
  - exact (no_action_relocating (AC := sample_class)).
  - exists st1, log1. split; [exact Hrun|]. split_and!.
    + rewrite HC. vm_compute. reflexivity.
    + rewrite Hother by discriminate. vm_compute. reflexivity.
    + exact Hsc.
    + rewrite Hl. reflexivity.
Defined.

Lemma registering_action_blocks_scan_witness :
  caml_scan_global_roots (registering_action 1000) 0 registered_state =
    Stuck Blocked.
Proof.
  apply (registering_action_blocks_scan 1000 0 GLOBAL_ROOTS_OLD 24).
  - split; reflexivity.
  - exact registered_state_mapped.
  - exists ROOT_PRESENT. split; [vm_compute; reflexivity|discriminate].
Defined.

Lemma register_dyn_globals_prepends_witness :
  caml_register_dyn_globals 8 16 3 [1048576] sample_state =
    Done [7; 12288; 4104; 1048576] sample_state.
Proof.
  destruct (register_dyn_globals_prepends 8 16 [4104; 12288; 7] [1048576]
              sample_state) as (Hrun & _ & _).
  - intros j g Hj.
    destruct j as [|[|[|j]]]; cbn in Hj; try discriminate;
      injection Hj as <-; vm_compute; reflexivity.
  - apply Hrun. reflexivity.
Defined.
